(** * Demand capacity simulator: the simulation core

    A shallow embedding of [demand-simulator/simulation-core.js] and of
    the second copy of that module found in the repository, together
    with the properties the specification states about them.

    Number model.  JavaScript numbers are IEEE-754 doubles; here every
    magnitude (capacity, demand, served and shed amounts) is a real
    number, so [Math.exp], [Math.sqrt], [Math.PI] and [Math.min] are
    [exp], [sqrt], [PI] and [Rmin], and arithmetic is exact.  Rounding
    error of the double operations is outside this model.  Minute
    indices, arrival times, the queue timeout and priorities are
    integers.

    Object model.  The JavaScript objects keyed by [curve.id]
    ([demandByCurve], [queuesByCurve], [utilizationByCurve],
    [shedByCurve]) are finite maps from strings; two curves with the
    same id therefore share one entry, as they do in the source.

    The sources bundle two more modules with the engine: the test
    suite, whose [assert.close] is the relative tolerance used below,
    and the falling-block board ([mulberry32], [PIECE_SHAPES], class
    [Board]) whose embedding is [Module Board].  A 32-bit integer of
    the board's random number generator is kept as its unsigned bit
    pattern; the [Map] of pieces is an association list in insertion
    order; the [while] loop of [applyGravity] carries a bound on its
    rounds, and the properties show that the loop ends within it.

    Left out.  The sampled chart points ([data]), the per-minute usage
    history [usageValuesByCurve] and the metrics derived from the 180
    busiest minutes or printed with [toFixed] (peak, average and percent
    figures) are not modelled; the totals served and shed, their rounded
    metrics and the per-minute records are.  A division by zero (a
    Gaussian source of zero width) yields [NaN] or [Infinity] in the
    source; the real-number model gives such a quotient the value Rocq's
    [/ 0] has, so statements about Gaussian sources of zero width say
    nothing about the source. *)

From Stdlib Require Import Reals Lra Lia ZArith Sorted QArith Qround.
From stdpp Require Import base gmap strings list.

#[local] Open Scope R_scope.

(** ** Numbers *)

#[global] Instance R_inhabited : Inhabited R := populate 0.
#[global] Instance Rlt_decision (x y : R) : Decision (x < y) := Rlt_dec x y.
#[global] Instance Rle_decision (x y : R) : Decision (x <= y) := Rle_dec x y.

(** Sum of a list of magnitudes, the value of
    [xs.reduce((sum, v) => sum + v, 0)]. *)
Fixpoint Rsum (xs : list R) : R :=
  match xs with
  | [] => 0
  | x :: xs' => x + Rsum xs'
  end.

(** [Math.round]: the nearest integer, halves rounded up. *)
Definition Math_round (x : R) : R := IZR (Int_part (x + / 2)).

(** The simulated day has 1440 minutes. *)
Definition horizon : nat := 1440.

(** ** Data model *)

(** A demand source as the callers build it:
    [{id, type, totalDemand, peakHour, curveWidth, priority}]. *)
Record curve := Curve {
  id : string;
  type : string;
  totalDemand : R;
  peakHour : R;
  curveWidth : R;
  priority : Z
}.

(** A queued request:
    [{arrivalTime, demand, curveId, priority}]. *)
Record item := Item {
  arrivalTime : Z;
  demand : R;
  curveId : string;
  itemPriority : Z
}.

(** [item.demand -= served] *)
Definition subDemand (it : item) (served : R) : item :=
  Item (arrivalTime it) (demand it - served) (curveId it) (itemPriority it).

(** One entry of [demandValues]:
    [{minute, demand, usage, queueSize, shed}]. *)
Record minuteRecord := MinuteRecord {
  mrMinute : nat;
  mrDemand : R;
  mrUsage : R;
  mrQueueSize : R;
  mrShed : R
}.

(** The mutable variables of [runFullSimulation] that live across
    minutes. *)
Record sim := Sim {
  queuesByCurve : gmap string (list item);
  utilizationByCurve : gmap string R;
  shedByCurve : gmap string R;
  totalUtilization : R;
  totalShedDemand : R;
  demandValues : list minuteRecord
}.

(** ** Distribution generator *)

(** [gaussian(x, mean, stdDev)] *)
Definition gaussian (x mean stdDev : R) : R :=
  let exponent := - (1 / 2) * ((x - mean) / stdDev) ^ 2 in
  exp exponent.

(** [generateGaussianDemand(totalDemand, peakHour, curveWidth)] *)
Definition generateGaussianDemand (totalDemand peakHour curveWidth : R) : list R :=
  let stdDevMinutes := curveWidth * 60 in
  let peakMinute := peakHour * 60 in
  let gaussianIntegral := stdDevMinutes * sqrt (2 * PI) in
  let scaleFactor := totalDemand / gaussianIntegral in
  map (fun minute : nat => scaleFactor * gaussian (INR minute) peakMinute stdDevMinutes)
      (seq 0 horizon).

(** [generateLinearDemand(totalDemand)] *)
Definition generateLinearDemand (totalDemand : R) : list R :=
  let constantDemand := totalDemand / 1440 in
  map (fun _ : nat => constantDemand) (seq 0 horizon).

(** The array stored for one curve by the first [curves.forEach]:
    anything whose [type] is not ['linear'] takes the Gaussian branch. *)
Definition curveDemandArray (c : curve) : list R :=
  if decide (type c = "linear"%string)
  then generateLinearDemand (totalDemand c)
  else generateGaussianDemand (totalDemand c) (peakHour c) (curveWidth c).

(** [demandByCurve], built in list order; a later curve with the same id
    overwrites the earlier entry. *)
Definition buildDemandByCurve (curves : list curve) : gmap string (list R) :=
  fold_left (fun d c => <[id c := curveDemandArray c]> d) curves ∅.

(** [demandByCurve[curve.id][minute]] *)
Definition demandAt (demandByCurve : gmap string (list R)) (c : curve) (minute : nat) : R :=
  nth minute (demandByCurve !!! id c) 0.

(** The second [curves.forEach]: empty queues and zero totals. *)
Definition initSim (curves : list curve) : sim :=
  fold_left
    (fun s c =>
       Sim (<[id c := []]> (queuesByCurve s))
           (<[id c := 0]> (utilizationByCurve s))
           (<[id c := 0]> (shedByCurve s))
           (totalUtilization s) (totalShedDemand s) (demandValues s))
    curves (Sim ∅ ∅ ∅ 0 0 []).

(** ** Step 1: timed-out requests *)

(** The accumulators touched by the expiry loop. *)
Record shedAcc := ShedAcc {
  shedThisMinute : R;
  accTotalShed : R;
  accShedByCurve : gmap string R
}.

(** The test of the expiry loop:
    [minute - queue[i].arrivalTime > queueTimeout]. *)
Definition timedOut (minute : nat) (queueTimeout : Z) (it : item) : bool :=
  (Z.of_nat minute - arrivalTime it >? queueTimeout)%Z.

(** One iteration of the backwards loop over a queue. *)
Definition expireItem (minute : nat) (queueTimeout : Z) (cid : string)
    (it : item) (st : list item * shedAcc) : list item * shedAcc :=
  let (kept, a) := st in
  if timedOut minute queueTimeout it then
    let shedAmount := demand it in
    (kept,
     ShedAcc (shedThisMinute a + shedAmount)
             (accTotalShed a + shedAmount)
             (<[cid := (accShedByCurve a !!! cid) + shedAmount]> (accShedByCurve a)))
  else (it :: kept, a).

(** The loop [for (i = queue.length - 1; i >= 0; i--)]: the last item is
    visited first, which is the order of [fold_right]. *)
Definition expireQueue (minute : nat) (queueTimeout : Z) (cid : string)
    (queue : list item) (a : shedAcc) : list item * shedAcc :=
  fold_right (expireItem minute queueTimeout cid) ([], a) queue.

(** The body of the expiry [curves.forEach]. *)
Definition expireCurve (minute : nat) (queueTimeout : Z)
    (st : sim * R) (c : curve) : sim * R :=
  let (s, shedNow) := st in
  let queue := queuesByCurve s !!! id c in
  let (kept, a) :=
    expireQueue minute queueTimeout (id c) queue
      (ShedAcc shedNow (totalShedDemand s) (shedByCurve s)) in
  (Sim (<[id c := kept]> (queuesByCurve s))
       (utilizationByCurve s)
       (accShedByCurve a)
       (totalUtilization s)
       (accTotalShed a)
       (demandValues s),
   shedThisMinute a).

(** Step 1 of a minute, starting from [shedThisMinute = 0]. *)
Definition expireAll (minute : nat) (queueTimeout : Z) (curves : list curve)
    (s : sim) : sim * R :=
  fold_left (expireCurve minute queueTimeout) curves (s, 0).

(** ** Sorting *)

(** [Array.prototype.sort] with a comparator [(a, b) => key(a) - key(b)]
    is a stable sort by [key]; this is the stable insertion sort. *)
Fixpoint insertBy {A : Type} (key : A -> Z) (x : A) (l : list A) : list A :=
  match l with
  | [] => [x]
  | y :: l' => if (key x <=? key y)%Z then x :: l else y :: insertBy key x l'
  end.

Definition sortBy {A : Type} (key : A -> Z) (l : list A) : list A :=
  fold_right (insertBy key) [] l.

(** [queue.reduce((qSum, item) => qSum + item.demand, 0)] *)
Definition queueDemand (queue : list item) : R :=
  fold_left (fun qSum it => qSum + demand it) queue 0.

(** [curves.reduce((sum, curve) => sum + queueDemand(queuesByCurve[curve.id]), 0)] *)
Definition totalQueued (curves : list curve) (queues : gmap string (list item)) : R :=
  fold_left (fun sum c => sum + queueDemand (queues !!! id c)) curves 0.

(** [curves.reduce((sum, curve) => sum + demandByCurve[curve.id][minute], 0)] *)
Definition totalDemandAt (demandByCurve : gmap string (list R))
    (curves : list curve) (minute : nat) : R :=
  fold_left (fun sum c => sum + demandAt demandByCurve c minute) curves 0.

(** The minute-local variables [availableCapacity] and [actualUsage]. *)
Record minuteVars := MinuteVars {
  availableCapacity : R;
  actualUsage : R
}.

(** Step 5: at the end of the day every queue is shed; the queues
    themselves are left as they are. *)
Definition drainCurve (s : sim) (c : curve) : sim :=
  fold_left
    (fun s' it =>
       let shedAmount := demand it in
       Sim (queuesByCurve s') (utilizationByCurve s')
           (<[id c := (shedByCurve s' !!! id c) + shedAmount]> (shedByCurve s'))
           (totalUtilization s')
           (totalShedDemand s' + shedAmount)
           (demandValues s'))
    (queuesByCurve s !!! id c) s.

Definition drainAll (curves : list curve) (s : sim) : sim :=
  fold_left drainCurve curves s.

(** The per-source and aggregate figures of the returned [metrics]
    object that the properties below speak about. *)
Record curveMetrics := CurveMetrics {
  cmTotalUtilization : R;
  cmShedDemand : R
}.

Record metrics := Metrics {
  mTotalUtilization : R;
  mShedDemand : R;
  byCurve : gmap string curveMetrics
}.

Definition buildMetrics (curves : list curve) (s : sim) : metrics :=
  Metrics (Math_round (totalUtilization s))
          (Math_round (totalShedDemand s))
          (fold_left
             (fun m c =>
                <[id c := CurveMetrics (Math_round (utilizationByCurve s !!! id c))
                                       (Math_round (shedByCurve s !!! id c))]> m)
             curves ∅).

(** A call either completes with its result or is rejected by an
    exception. *)
Inductive outcome (A : Type) : Type :=
| Completed (result : A)
| Rejected (message : string).
Arguments Completed {A} result.
Arguments Rejected {A} message.

(** * The engine of [demand-simulator/simulation-core.js] *)

Module SimulationCore.

(** The queue loop
    [for (i = 0; i < queue.length && availableCapacity > 0; i++)]. *)
Fixpoint serveQueue (queue : list item) (v : minuteVars) (curveUsageThisMinute : R)
    : list item * minuteVars * R :=
  match queue with
  | [] => ([], v, curveUsageThisMinute)
  | it :: rest =>
      if decide (0 < availableCapacity v) then
        let servedFromQueue := Rmin (demand it) (availableCapacity v) in
        let '(rest', v', u') :=
          serveQueue rest
            (MinuteVars (availableCapacity v - servedFromQueue)
                        (actualUsage v + servedFromQueue))
            (curveUsageThisMinute + servedFromQueue) in
        (subDemand it servedFromQueue :: rest', v', u')
      else (queue, v, curveUsageThisMinute)
  end.

(** The body of [sortedCurves.forEach]: steps 2a, 2b and 3 for one
    curve. *)
Definition processCurve (demandByCurve : gmap string (list R)) (minute : nat)
    (st : sim * minuteVars) (c : curve) : sim * minuteVars :=
  let (s, v) := st in
  let curveDemand := demandAt demandByCurve c minute in
  let immediatelyServed := Rmin curveDemand (availableCapacity v) in
  let v1 := MinuteVars (availableCapacity v - immediatelyServed)
                       (actualUsage v + immediatelyServed) in
  let usage1 := 0 + immediatelyServed in
  let excessDemand := curveDemand - immediatelyServed in
  let pushed :=
    if decide (0 < excessDemand)
    then (queuesByCurve s !!! id c)
           ++ [Item (Z.of_nat minute) excessDemand (id c) (priority c)]
    else queuesByCurve s !!! id c in
  let sorted := sortBy arrivalTime pushed in
  let '(served, v2, usage2) := serveQueue sorted v1 usage1 in
  let remaining := filter (fun it => 0 < demand it) served in
  (Sim (<[id c := remaining]> (queuesByCurve s))
       (<[id c := (utilizationByCurve s !!! id c) + usage2]> (utilizationByCurve s))
       (shedByCurve s)
       (totalUtilization s)
       (totalShedDemand s)
       (demandValues s),
   v2).

(** Steps 2 to 4 of a minute: the curves in priority order against a
    fresh [availableCapacity = machines]. *)
Definition allocate (machines : R) (demandByCurve : gmap string (list R))
    (curves : list curve) (minute : nat) (s : sim) : sim * minuteVars :=
  let sortedCurves := sortBy priority curves in
  fold_left (processCurve demandByCurve minute) sortedCurves
            (s, MinuteVars machines 0).

(** One iteration of [for (let minute = 0; minute < 1440; minute++)]. *)
Definition stepMinute (machines : R) (demandByCurve : gmap string (list R))
    (curves : list curve) (queueTimeout : Z) (s : sim) (minute : nat) : sim :=
  let demandNow := totalDemandAt demandByCurve curves minute in
  let (s1, shedNow) := expireAll minute queueTimeout curves s in
  let (s2, v) := allocate machines demandByCurve curves minute s1 in
  let queueSize := totalQueued curves (queuesByCurve s2) in
  Sim (queuesByCurve s2) (utilizationByCurve s2) (shedByCurve s2)
      (totalUtilization s2 + actualUsage v)
      (totalShedDemand s2)
      (demandValues s2
         ++ [MinuteRecord minute demandNow (actualUsage v) queueSize shedNow]).

(** The state after the first [n] iterations of the minute loop. *)
Definition simulateMinutes (machines : R) (curves : list curve) (queueTimeout : Z)
    (n : nat) : sim :=
  fold_left (stepMinute machines (buildDemandByCurve curves) curves queueTimeout)
            (seq 0 n) (initSim curves).

(** The state when the function returns: all 1440 minutes, then the
    end-of-day drain. *)
Definition finalState (machines : R) (curves : list curve) (queueTimeout : Z) : sim :=
  drainAll curves (simulateMinutes machines curves queueTimeout horizon).

(** [runFullSimulation(machines, curves, queueTimeout)], restricted to
    the totals of its [metrics]. *)
Definition runFullSimulation (machines : R) (curves : list curve) (queueTimeout : Z)
    : metrics :=
  buildMetrics curves (finalState machines curves queueTimeout).

(** The function body has no [throw] and no validation: every call
    runs to its [return]. *)
Definition runFullSimulationOutcome (machines : R) (curves : list curve)
    (queueTimeout : Z) : outcome metrics :=
  Completed (runFullSimulation machines curves queueTimeout).

End SimulationCore.

(** * The engine of the second copy of the module

    The repository holds a second [simulation-core.js] whose
    distribution generator, expiry step, end-of-day drain and metrics
    are the same text, and whose allocation works on priority groups
    and arrival-time cohorts. *)

Module CohortSimulationCore.

(** [combinedQueue] holds references to the item objects that are also
    in [queuesByCurve]; a write through one is seen through the other.
    A reference is the key of the queue and the index in it. *)
Definition handle : Type := string * nat.

#[global] Instance item_inhabited : Inhabited item := populate (Item 0 0 "" 0).

Definition itemAt (queues : gmap string (list item)) (h : handle) : item :=
  (queues !!! h.1) !!! h.2.

(** [item.demand = d] through a reference. *)
Definition setDemandAt (queues : gmap string (list item)) (h : handle) (d : R)
    : gmap string (list item) :=
  let it := itemAt queues h in
  <[h.1 := <[h.2 := Item (arrivalTime it) d (curveId it) (itemPriority it)]>
             (queues !!! h.1)]> queues.

(** The variables of one minute's allocation. *)
Record alloc := Alloc {
  queues : gmap string (list item);
  available : R;
  usage : R;
  curveUsageThisMinute : gmap string R
}.

(** The sorted priority levels:
    [Object.keys(priorityGroups).map(Number).sort((a, b) => a - b)],
    the distinct priorities in ascending order. *)
Definition priorityLevels (curves : list curve) : list Z :=
  sortBy (fun p => p) (remove_dups (map priority curves)).

(** [priorityGroups[p]]: the curves of priority [p] in list order. *)
Definition curvesAtPriority (curves : list curve) (p : Z) : list curve :=
  filter (fun c => priority c = p) curves.

(** Step 2a for one curve: the new demand of the minute is queued when
    it is positive. *)
Definition queueNewDemand (demandByCurve : gmap string (list R)) (minute : nat)
    (qs : gmap string (list item)) (c : curve) : gmap string (list item) :=
  let newDemand := demandAt demandByCurve c minute in
  if decide (0 < newDemand)
  then <[id c := (qs !!! id c)
                   ++ [Item (Z.of_nat minute) newDemand (id c) (priority c)]]> qs
  else qs.

(** The references collected into [combinedQueue], queue after queue. *)
Definition combinedQueue (qs : gmap string (list item)) (group : list curve)
    : list handle :=
  flat_map (fun c => map (fun i => (id c, i)) (seq 0 (length (qs !!! id c)))) group.

(** The maximal runs of equal keys of a list, the cohorts the inner
    [while] collects one after the other. *)
Fixpoint cohorts {A : Type} (key : A -> Z) (l : list A) : list (list A) :=
  match l with
  | [] => []
  | x :: l' =>
      match cohorts key l' with
      | [] => [[x]]
      | [] :: gs => [x] :: gs
      | (y :: g) :: gs =>
          if (key x =? key y)%Z then (x :: y :: g) :: gs
          else [x] :: (y :: g) :: gs
      end
  end.

(** [cohort.reduce((sum, item) => sum + item.demand, 0)] *)
Definition cohortDemand (qs : gmap string (list item)) (cohort : list handle) : R :=
  fold_left (fun sum h => sum + demand (itemAt qs h)) cohort 0.

(** The branch that serves every item of the cohort fully. *)
Definition serveFully (a : alloc) (h : handle) : alloc :=
  let it := itemAt (queues a) h in
  Alloc (setDemandAt (queues a) h 0)
        (available a - demand it)
        (usage a + demand it)
        (<[curveId it := (curveUsageThisMinute a !!! curveId it) + demand it]>
           (curveUsageThisMinute a)).

(** The branch that splits the capacity in proportion to the remaining
    demands; [availableCapacity] is set to zero after the loop. *)
Definition serveShare (total : R) (a : alloc) (h : handle) : alloc :=
  let it := itemAt (queues a) h in
  let share := demand it / total in
  let served := available a * share in
  Alloc (setDemandAt (queues a) h (demand it - served))
        (available a)
        (usage a + served)
        (<[curveId it := (curveUsageThisMinute a !!! curveId it) + served]>
           (curveUsageThisMinute a)).

Definition serveCohort (a : alloc) (cohort : list handle) : alloc :=
  let total := cohortDemand (queues a) cohort in
  if decide (total <= available a)
  then fold_left serveFully cohort a
  else
    let a' := fold_left (serveShare total) cohort a in
    Alloc (queues a') 0 (usage a') (curveUsageThisMinute a').

(** The loop [while (i < combinedQueue.length && availableCapacity > 0)],
    cohort by cohort. *)
Fixpoint serveCohorts (cs : list (list handle)) (a : alloc) : alloc :=
  match cs with
  | [] => a
  | cohort :: rest =>
      if decide (0 < available a) then serveCohorts rest (serveCohort a cohort)
      else a
  end.

(** The body of [priorityLevels.forEach]. *)
Definition processLevel (demandByCurve : gmap string (list R)) (curves : list curve)
    (minute : nat) (a : alloc) (p : Z) : alloc :=
  let group := curvesAtPriority curves p in
  let queued := fold_left (queueNewDemand demandByCurve minute) group (queues a) in
  let combined := combinedQueue queued group in
  let sorted := sortBy (fun h => arrivalTime (itemAt queued h)) combined in
  let a' :=
    serveCohorts (cohorts (fun h => arrivalTime (itemAt queued h)) sorted)
      (Alloc queued (available a) (usage a) (curveUsageThisMinute a)) in
  Alloc (fold_left
           (fun qs c => <[id c := filter (fun it => 0 < demand it) (qs !!! id c)]> qs)
           group (queues a'))
        (available a') (usage a') (curveUsageThisMinute a').

(** Steps 2 to 4 of a minute. *)
Definition allocate (machines : R) (demandByCurve : gmap string (list R))
    (curves : list curve) (minute : nat) (s : sim) : sim * R :=
  let usage0 := fold_left (fun u c => <[id c := 0]> u) curves ∅ in
  let a := fold_left (processLevel demandByCurve curves minute)
             (priorityLevels curves)
             (Alloc (queuesByCurve s) machines 0 usage0) in
  (Sim (queues a)
       (fold_left
          (fun u c => <[id c := (u !!! id c) + (curveUsageThisMinute a !!! id c)]> u)
          curves (utilizationByCurve s))
       (shedByCurve s) (totalUtilization s) (totalShedDemand s) (demandValues s),
   usage a).

(** One iteration of the minute loop. *)
Definition stepMinute (machines : R) (demandByCurve : gmap string (list R))
    (curves : list curve) (queueTimeout : Z) (s : sim) (minute : nat) : sim :=
  let demandNow := totalDemandAt demandByCurve curves minute in
  let (s1, shedNow) := expireAll minute queueTimeout curves s in
  let (s2, actualUsage) := allocate machines demandByCurve curves minute s1 in
  let queueSize := totalQueued curves (queuesByCurve s2) in
  Sim (queuesByCurve s2) (utilizationByCurve s2) (shedByCurve s2)
      (totalUtilization s2 + actualUsage)
      (totalShedDemand s2)
      (demandValues s2
         ++ [MinuteRecord minute demandNow actualUsage queueSize shedNow]).

Definition simulateMinutes (machines : R) (curves : list curve) (queueTimeout : Z)
    (n : nat) : sim :=
  fold_left (stepMinute machines (buildDemandByCurve curves) curves queueTimeout)
            (seq 0 n) (initSim curves).

Definition finalState (machines : R) (curves : list curve) (queueTimeout : Z) : sim :=
  drainAll curves (simulateMinutes machines curves queueTimeout horizon).

Definition runFullSimulation (machines : R) (curves : list curve) (queueTimeout : Z)
    : metrics :=
  buildMetrics curves (finalState machines curves queueTimeout).

End CohortSimulationCore.

(** * Quantities and scenarios of the specification *)

(** The served and shed totals of a source when the function returns. *)
Definition servedOf (s : sim) (c : curve) : R := utilizationByCurve s !!! id c.
Definition shedOf (s : sim) (c : curve) : R := shedByCurve s !!! id c.




(** The single Gaussian source of the conservation test. *)
Definition bellCurve : curve := Curve "curve-1" "gaussian" 100000 15 3 1.

(** Two identical linear sources at the same priority. *)
Definition twinA : curve := Curve "curve-1" "linear" 144000 0 0 1.
Definition twinB : curve := Curve "curve-2" "linear" 144000 0 0 1.

(** The two linear sources of the priority test. *)
Definition p1Curve : curve := Curve "p1" "linear" 216000 0 0 1.


(** A source as the interface admits it: a volume that is not negative
    and, for the Gaussian shape, a positive spread. *)
Definition validSource (c : curve) : Prop :=
  0 <= totalDemand c /\ (type c <> "linear"%string -> 0 < curveWidth c).

(** A configuration the interface does not admit: a negative capacity,
    a negative volume, a Gaussian source with a spread that is not
    positive, a priority that is not positive, two sources with one id,
    or a negative timeout. *)
Definition malformed (machines : R) (curves : list curve) (queueTimeout : Z) : Prop :=
  machines < 0
  \/ (exists c, c ∈ curves /\ totalDemand c < 0)
  \/ (exists c, c ∈ curves /\ type c <> "linear"%string /\ curveWidth c <= 0)
  \/ (exists c, c ∈ curves /\ (priority c <= 0)%Z)
  \/ ~ NoDup (map id curves)
  \/ (queueTimeout < 0)%Z.

(** The source with its shape spelled out: ['linear'] stays, anything
    else becomes ['gaussian']. *)
Definition asGaussian (c : curve) : curve :=
  if decide (type c = "linear"%string) then c
  else Curve (id c) "gaussian" (totalDemand c) (peakHour c) (curveWidth c) (priority c).

(** * Invariants and relations used in the proofs *)

(** Keys in non-decreasing order, item by item. *)
Inductive keySorted {A : Type} (key : A -> Z) : list A -> Prop :=
| keySorted_nil : keySorted key []
| keySorted_cons x l :
    Forall (fun y => (key x <= key y)%Z) l -> keySorted key l ->
    keySorted key (x :: l).

(** The items of a queue that survive the expiry test, in queue
    order. *)
Definition keepLive (minute : nat) (queueTimeout : Z) (q : list item) : list item :=
  filter (fun it => timedOut minute queueTimeout it = false) q.

(** The total remaining demand of the items that fail it. *)
Definition timedOutDemand (minute : nat) (queueTimeout : Z) (q : list item) : R :=
  Rsum (map demand (filter (fun it => timedOut minute queueTimeout it = true) q)).

(** Queues as the engine keeps them between two steps: arrival times in
    order and bounded, remaining demands positive. *)
Definition queueOK (bound : Z) (q : list item) : Prop :=
  keySorted arrivalTime q
  /\ Forall (fun it => 0 < demand it /\ (arrivalTime it <= bound)%Z) q.

(** The queue after step 2b: the excess of the minute is appended when
    it is positive. *)
Definition pushExcess (minute : nat) (c : curve) (excessDemand : R) (q : list item)
    : list item :=
  if decide (0 < excessDemand)
  then q ++ [Item (Z.of_nat minute) excessDemand (id c) (priority c)]
  else q.

(** Every queue of the state is in order. *)
Definition simOK (bound : Z) (s : sim) : Prop :=
  forall k, queueOK bound (queuesByCurve s !!! k).

(** What is accounted to a key and has not been shed: its served total
    plus what waits in its queue. *)
Definition inFlight (s : sim) (k : string) : R :=
  utilizationByCurve s !!! k + Rsum (map demand (queuesByCurve s !!! k)).

(** The demand that the curves named [k] generate at a minute. *)
Definition demandOfKey (demandByCurve : gmap string (list R)) (cs : list curve)
    (k : string) (minute : nat) : R :=
  Rsum (map (fun c => if decide (id c = k) then demandAt demandByCurve c minute else 0) cs).

(** The demand generated for key [k] during the first [n] minutes. *)
Definition cumDemand (demandByCurve : gmap string (list R)) (cs : list curve)
    (k : string) (n : nat) : R :=
  Rsum (map (demandOfKey demandByCurve cs k) (seq 0 n)).

(** The state after [n] minutes over an arbitrary demand table. *)
Definition stateAfter (machines : R) (demandByCurve : gmap string (list R))
    (curves : list curve) (queueTimeout : Z) (n : nat) : sim :=
  fold_left (SimulationCore.stepMinute machines demandByCurve curves queueTimeout)
            (seq 0 n) (initSim curves).

(** The invariant of the minute loop. *)
Record runInv (demandByCurve : gmap string (list R)) (curves : list curve)
    (n : nat) (s : sim) : Prop := RunInv {
  inv_queues : simOK (Z.of_nat n - 1) s;
  inv_conserved : forall k,
      inFlight s k + shedByCurve s !!! k = cumDemand demandByCurve curves k n;
  inv_utilization : forall ks, NoDup ks -> (forall c, c ∈ curves -> id c ∈ ks) ->
      (forall k, k ∉ map id curves -> utilizationByCurve s !!! k = 0) /\
      totalUtilization s = Rsum (map (fun k => utilizationByCurve s !!! k) ks);
  inv_shed :
      NoDup (map id curves) ->
      totalShedDemand s = Rsum (map (fun c => shedByCurve s !!! id c) curves);
  inv_length : length (demandValues s) = n
}.


(** The keys of a list of cohorts ascend: every item of a cohort has a
    smaller key than every item of the cohorts after it. *)
Inductive cohortsAscending {A : Type} (key : A -> Z) : list (list A) -> Prop :=
| cohortsAscending_nil : cohortsAscending key []
| cohortsAscending_cons g gs :
    (forall x y, x ∈ g -> y ∈ concat gs -> (key x < key y)%Z) ->
    cohortsAscending key gs ->
    cohortsAscending key (g :: gs).

(** [x] lies in a cohort that comes before the cohort of [y]. *)
Definition cohortBefore {A : Type} (cs : list (list A)) (x y : A) : Prop :=
  exists pre g post, cs = pre ++ g :: post /\ x ∈ g /\ y ∈ concat post.

(** A reference that points into its queue. *)
Definition inRange (qs : gmap string (list item)) (h : CohortSimulationCore.handle) : Prop :=
  (h.2 < length (qs !!! h.1))%nat.



(** * The peak and average figures of the result *)








(** * The falling-block board bundled with the simulator sources *)

Module Board.

#[local] Open Scope nat_scope.

(** ** Seeded random numbers *)

(** A 32-bit integer of the source is kept as its unsigned bit pattern;
    [u32] is the conversion that every bit operation applies to its
    operands. *)
Definition u32 (z : Z) : Z := z mod 2 ^ 32.

(** [Math.imul(a, b)], as a bit pattern. *)
Definition imul (a b : Z) : Z := u32 (a * b).

(** One call of the function that [mulberry32(seed)] returns: the new
    value of the captured [seed] and the numerator [n] of the result
    [n / 4294967296].  The seed is an integer and is not wrapped by the
    source ([seed += 0x6D2B79F5] is an addition of numbers). *)
Definition mulberry32 (seed : Z) : Z * Z :=
  let seed := (seed + 0x6D2B79F5)%Z in
  let t := u32 seed in
  let t := imul (Z.lxor t (Z.shiftr t 15)) (Z.lor t 1) in
  let t := Z.lxor t (u32 (t + imul (Z.lxor t (Z.shiftr t 7)) (Z.lor t 61))) in
  (seed, Z.lxor t (Z.shiftr t 14)).

(** [Math.floor(rand() * k)] for a result [n / 4294967296] of [rand()]
    and a small integer [k]. *)
Definition scaled (n k : Z) : Z := (n * k / 2 ^ 32)%Z.

(** ** Pieces *)

Inductive pieceType := pieceI | pieceO | pieceT | pieceS | pieceZ | pieceJ | pieceL.

#[global] Instance pieceType_eq_dec : EqDecision pieceType.
Proof. solve_decision. Defined.

Record shape := Shape {
  shapeCells : list (Z * Z);
  shapeColor : string
}.

(** [PIECE_SHAPES]: the cells of a piece relative to its base, as
    [[dx, dy]], and its colour. *)
Definition PIECE_SHAPES (t : pieceType) : shape :=
  match t with
  | pieceI => Shape [(0, 0); (1, 0); (2, 0); (3, 0)]%Z "#00f0f0"
  | pieceO => Shape [(0, 0); (1, 0); (0, 1); (1, 1)]%Z "#f0f000"
  | pieceT => Shape [(0, 0); (1, 0); (2, 0); (1, 1)]%Z "#a000f0"
  | pieceS => Shape [(1, 0); (2, 0); (0, 1); (1, 1)]%Z "#00f000"
  | pieceZ => Shape [(0, 0); (1, 0); (1, 1); (2, 1)]%Z "#f00000"
  | pieceJ => Shape [(0, 0); (0, 1); (1, 1); (2, 1)]%Z "#0000f0"
  | pieceL => Shape [(2, 0); (0, 1); (1, 1); (2, 1)]%Z "#f0a000"
  end.

(** [PIECE_TYPES = Object.keys(PIECE_SHAPES)] *)
Definition PIECE_TYPES : list pieceType :=
  [pieceI; pieceO; pieceT; pieceS; pieceZ; pieceJ; pieceL].

(** ** The board *)

(** An occupied grid cell, [{ pieceId, color }]; [null] is [None]. *)
Record cell := Cell {
  pieceId : nat;
  cellColor : string
}.

(** An entry of [pieces]: [{ type, color, cells: [{x, y}] }]. *)
Record piece := Piece {
  type : pieceType;
  color : string;
  cells : list (Z * Z)
}.

(** The fields of a [Board].  [grid] is indexed [grid[y][x]]; [pieces]
    is a [Map], kept in insertion order. *)
Record board := MkBoard {
  width : nat;
  height : nat;
  grid : list (list (option cell));
  pieces : list (nat * piece);
  nextPieceId : nat
}.

(** [Map.prototype.get] *)
Fixpoint mapGet (k : nat) (m : list (nat * piece)) : option piece :=
  match m with
  | [] => None
  | (k', v) :: m' => if decide (k' = k) then Some v else mapGet k m'
  end.

(** [Map.prototype.set]: an existing key keeps its place, a new key
    goes to the end. *)
Fixpoint mapSet (k : nat) (v : piece) (m : list (nat * piece)) : list (nat * piece) :=
  match m with
  | [] => [(k, v)]
  | (k', v') :: m' =>
      if decide (k' = k) then (k, v) :: m' else (k', v') :: mapSet k v m'
  end.

(** [Map.prototype.delete] *)
Definition mapDelete (k : nat) (m : list (nat * piece)) : list (nat * piece) :=
  filter (fun kv => kv.1 <> k) m.

(** [grid[y][x]] read.  The source reads only inside the grid; outside
    it this gives [None]. *)
Definition gridAt (g : list (list (option cell))) (x y : Z) : option cell :=
  if decide (0 <= x /\ 0 <= y)%Z
  then match g !! Z.to_nat y with
       | Some row => match row !! Z.to_nat x with
                     | Some c => c
                     | None => None
                     end
       | None => None
       end
  else None.

(** [grid[y][x] = v].  The source writes only inside the grid; outside
    it this leaves the grid as it is. *)
Definition gridSet (g : list (list (option cell))) (x y : Z) (v : option cell)
    : list (list (option cell)) :=
  if decide (0 <= x /\ 0 <= y)%Z
  then alter (fun row => <[Z.to_nat x := v]> row) (Z.to_nat y) g
  else g.

(** [clear()] *)
Definition clear (b : board) : board :=
  MkBoard (width b) (height b)
          (replicate (height b) (replicate (width b) None)) [] 0.

(** [new Board(width, height)] *)
Definition new (width height : nat) : board :=
  clear (MkBoard width height [] [] 0).

(** [clone()]: a fresh board of the same size, the occupied cells copied
    one by one, then the pieces and the id counter. *)
Definition clone (b : board) : board :=
  let newBoard := new (width b) (height b) in
  let copied :=
    fold_left
      (fun g y =>
         fold_left
           (fun g x =>
              match gridAt (grid b) (Z.of_nat x) (Z.of_nat y) with
              | Some c => gridSet g (Z.of_nat x) (Z.of_nat y) (Some (Cell (pieceId c) (cellColor c)))
              | None => g
              end)
           (seq 0 (width b)) g)
      (seq 0 (height b)) (grid newBoard) in
  let copiedPieces :=
    fold_left
      (fun m kv => mapSet kv.1 (Piece (type kv.2) (color kv.2) (map (fun c => c) (cells kv.2))) m)
      (pieces b) (pieces newBoard) in
  MkBoard (width newBoard) (height newBoard) copied copiedPieces (nextPieceId b).

(** The test of the inner loops of [getHeight] and
    [getFilledCellCount]: [grid[y][x] !== null]. *)
Definition occupied (b : board) (x y : nat) : bool :=
  match gridAt (grid b) (Z.of_nat x) (Z.of_nat y) with
  | Some _ => true
  | None => false
  end.

(** [getHeight()]: rows are scanned from the top; the first row with an
    occupied cell gives the height. *)
Fixpoint getHeightFrom (b : board) (rows : nat) : nat :=
  match rows with
  | O => 0
  | S y => if existsb (fun x => occupied b x y) (seq 0 (width b))
           then y + 1
           else getHeightFrom b y
  end.

Definition getHeight (b : board) : nat := getHeightFrom b (height b).

(** [getFilledCellCount()] *)
Definition getFilledCellCount (b : board) : nat :=
  fold_left
    (fun count y =>
       fold_left (fun count x => if occupied b x y then count + 1 else count)
                 (seq 0 (width b)) count)
    (seq 0 (height b)) 0%nat.

(** [canPlacePiece(type, baseX, baseY)] *)
Definition canPlacePiece (b : board) (t : pieceType) (baseX baseY : Z) : bool :=
  forallb
    (fun d : Z * Z =>
       let x := (baseX + d.1)%Z in
       let y := (baseY + d.2)%Z in
       if ((x <? 0) || (x >=? Z.of_nat (width b))
           || (y <? 0) || (y >=? Z.of_nat (height b)))%Z
       then false
       else match gridAt (grid b) x y with
            | Some _ => false
            | None => true
            end)
    (shapeCells (PIECE_SHAPES t)).

(** [placePiece(type, baseX, baseY)]: the returned id ([None] for
    [null]) and the board afterwards. *)
Definition placePiece (b : board) (t : pieceType) (baseX baseY : Z)
    : option nat * board :=
  if negb (canPlacePiece b t baseX baseY) then (None, b)
  else
    let shape := PIECE_SHAPES t in
    let pieceId := nextPieceId b in
    let '(g, cells) :=
      fold_left
        (fun (acc : list (list (option cell)) * list (Z * Z)) (d : Z * Z) =>
           let x := (baseX + d.1)%Z in
           let y := (baseY + d.2)%Z in
           (gridSet acc.1 x y (Some (Cell pieceId (shapeColor shape))),
            acc.2 ++ [(x, y)]))
        (shapeCells shape) (grid b, []) in
    (Some pieceId,
     MkBoard (width b) (height b) g
             (mapSet pieceId (Piece t (shapeColor shape) cells) (pieces b))
             (nextPieceId b + 1)).

(** [removePiece(pieceId)] *)
Definition removePiece (b : board) (pieceId : nat) : bool * board :=
  match mapGet pieceId (pieces b) with
  | None => (false, b)
  | Some piece =>
      let g := fold_left (fun g c => gridSet g c.1 c.2 None) (cells piece) (grid b) in
      (true,
       MkBoard (width b) (height b) g (mapDelete pieceId (pieces b)) (nextPieceId b))
  end.

(** The inner loop of [dropPiece] for one cell: how many rows below
    [y], counted downwards from [y - 1], are free or held by the piece
    itself before a cell of another piece is met. *)
Fixpoint clearBelow (g : list (list (option cell))) (pid : nat) (x : Z) (y : nat) : Z :=
  match y with
  | O => 0
  | S testY =>
      match gridAt g x (Z.of_nat testY) with
      | Some c =>
          if decide (pieceId c <> pid) then 0%Z
          else (clearBelow g pid x testY + 1)%Z
      | None => (clearBelow g pid x testY + 1)%Z
      end
  end.

(** The first loop of [dropPiece]: the least drop over the cells. *)
Definition minDropOf (b : board) (pid : nat) (cs : list (Z * Z)) : Z :=
  fold_left
    (fun minDrop c =>
       let drop := clearBelow (grid b) pid c.1 (Z.to_nat c.2) in
       let drop := Z.min drop c.2 in
       Z.min minDrop drop)
    cs (Z.of_nat (height b)).

(** [dropPiece(pieceId)]: the distance dropped and the board
    afterwards.  The cells of the piece are updated in place, so the
    entry of [pieces] changes with them. *)
Definition dropPiece (b : board) (pid : nat) : Z * board :=
  match mapGet pid (pieces b) with
  | None => (0%Z, b)
  | Some piece =>
      let minDrop := minDropOf b pid (cells piece) in
      if decide (minDrop = 0%Z) then (0%Z, b)
      else
        let g := fold_left (fun g c => gridSet g c.1 c.2 None) (cells piece) (grid b) in
        let moved := map (fun c => (c.1, (c.2 - minDrop)%Z)) (cells piece) in
        let g := fold_left (fun g c => gridSet g c.1 c.2 (Some (Cell pid (color piece))))
                           moved g in
        (minDrop,
         MkBoard (width b) (height b) g
                 (mapSet pid (Piece (type piece) (color piece) moved) (pieces b))
                 (nextPieceId b))
  end.

(** [Math.min(...piece.cells.map(c => c.y))] for a piece with cells;
    every piece on a board has four. *)
Definition lowestY (cs : list (Z * Z)) : Z :=
  match cs with
  | [] => 0
  | c :: cs' => fold_left (fun m c' => Z.min m c'.2) cs' c.2
  end.

(** The sort key of [applyGravity]: the lowest row of the piece. *)
Definition lowestYOf (b : board) (pid : nat) : Z :=
  match mapGet pid (pieces b) with
  | Some piece => lowestY (cells piece)
  | None => 0
  end.

(** [getPieceIds()] *)
Definition getPieceIds (b : board) : list nat := map fst (pieces b).

(** [getPiece(pieceId)] *)
Definition getPiece (b : board) (pid : nat) : option piece := mapGet pid (pieces b).

(** One round of the [for] loop inside [applyGravity]'s [while]. *)
Record gravityState := GravityState {
  gBoard : board;
  totalDropped : Z;
  changed : bool
}.

Definition gravityRound (pieceIds : list nat) (b : board) (total : Z) : gravityState :=
  fold_left
    (fun st pid =>
       let '(dropped, b') := dropPiece (gBoard st) pid in
       if (dropped >? 0)%Z
       then GravityState b' (totalDropped st + dropped) true
       else GravityState b' (totalDropped st) (changed st))
    pieceIds (GravityState b total false).

(** [while (changed) { ... }], with a bound on the number of rounds:
    [None] when the bound is reached before a round without a drop. *)
Fixpoint gravityLoop (rounds : nat) (pieceIds : list nat) (b : board) (total : Z)
    : option (Z * board) :=
  match rounds with
  | O => None
  | S rounds' =>
      let st := gravityRound pieceIds b total in
      if changed st
      then gravityLoop rounds' pieceIds (gBoard st) (totalDropped st)
      else Some (totalDropped st, gBoard st)
  end.

(** [applyGravity()]: the total distance dropped and the board
    afterwards. *)
Definition applyGravity (rounds : nat) (b : board) : option (Z * board) :=
  let pieceIds := sortBy (lowestYOf b) (getPieceIds b) in
  gravityLoop rounds pieceIds b 0.



End Board.

(** ** Well-formed boards *)

(** A grid of [h] rows of [w] cells. *)
Definition rectangular (w h : nat) (g : list (list (option Board.cell))) : Prop :=
  length g = h /\ Forall (fun row => length row = w) g.

(** A position inside the grid of a board. *)
Definition inGrid (b : Board.board) (c : Z * Z) : Prop :=
  (0 <= c.1 < Z.of_nat (Board.width b))%Z /\ (0 <= c.2 < Z.of_nat (Board.height b))%Z.

(** The cells that a piece of type [t] takes at base [(baseX, baseY)]. *)
Definition placedCells (t : Board.pieceType) (baseX baseY : Z) : list (Z * Z) :=
  map (fun d => (baseX + d.1, baseY + d.2)%Z) (Board.shapeCells (Board.PIECE_SHAPES t)).

(** The cells [cs], each [d] rows lower. *)
Definition lowered (d : Z) (cs : list (Z * Z)) : list (Z * Z) :=
  map (fun c => (c.1, c.2 - d)%Z) cs.

(** The boards that the operations build and keep: the grid has the
    size of the board, the ids of [pieces] are distinct and below the
    id counter, a piece has four cells, they are distinct, lie inside
    the grid and hold the piece's id and colour there, and every
    occupied grid cell is a cell of the piece it names. *)
Record boardOK (b : Board.board) : Prop := BoardOK {
  ok_grid : rectangular (Board.width b) (Board.height b) (Board.grid b);
  ok_keys : NoDup (map fst (Board.pieces b));
  ok_fresh : Forall (fun kv => (kv.1 < Board.nextPieceId b)%nat) (Board.pieces b);
  ok_four : Forall (fun kv => length (Board.cells kv.2) = 4%nat) (Board.pieces b);
  ok_cells : forall pid p,
      Board.mapGet pid (Board.pieces b) = Some p ->
      NoDup (Board.cells p)
      /\ Forall (fun c => inGrid b c
                          /\ Board.gridAt (Board.grid b) c.1 c.2
                             = Some (Board.Cell pid (Board.color p)))
                (Board.cells p);
  ok_owner : forall x y c,
      Board.gridAt (Board.grid b) x y = Some c ->
      exists p, Board.mapGet (Board.pieceId c) (Board.pieces b) = Some p
                /\ (x, y) ∈ Board.cells p
}.

(** The occupied positions of the grid, row by row. *)
Definition occupiedPositions (b : Board.board) : list (Z * Z) :=
  y ← seq 0 (Board.height b);
  x ← seq 0 (Board.width b);
  if Board.occupied b x y then [(Z.of_nat x, Z.of_nat y)] else [].

(** The cells of all pieces, piece by piece. *)
Definition pieceCells (b : Board.board) : list (Z * Z) :=
  kv ← Board.pieces b; Board.cells kv.2.

(** A grid cell that does not stop piece [pid]: free, or held by the
    piece itself. *)
Definition freeFor (pid : nat) (v : option Board.cell) : Prop :=
  match v with
  | Some c => Board.pieceId c = pid
  | None => True
  end.

(** The drop that [dropPiece] computes for one cell. *)
Definition dropOf (g : list (list (option Board.cell))) (pid : nat) (c : Z * Z) : Z :=
  Z.min (Board.clearBelow g pid c.1 (Z.to_nat c.2)) c.2.

(** The sum of the row numbers of a list of cells. *)
Definition rowSum (cs : list (Z * Z)) : Z :=
  fold_right (fun c s => (c.2 + s)%Z) 0%Z cs.

(** The sum of the row numbers of all cells of all pieces: what
    gravity uses up. *)
Definition totalRows (b : Board.board) : Z := rowSum (pieceCells b).

(** [b'] holds the pieces of [b], each as a whole some rows lower, on a
    board of the same size. *)
Definition settledFrom (b b' : Board.board) : Prop :=
  Board.width b' = Board.width b /\ Board.height b' = Board.height b
  /\ Board.nextPieceId b' = Board.nextPieceId b
  /\ map fst (Board.pieces b') = map fst (Board.pieces b)
  /\ forall pid p, Board.mapGet pid (Board.pieces b) = Some p ->
       exists k, (0 <= k)%Z
         /\ Board.mapGet pid (Board.pieces b')
            = Some (Board.Piece (Board.type p) (Board.color p) (lowered k (Board.cells p))).

(** No piece of the board can fall. *)
Definition atRest (b : Board.board) : Prop :=
  forall pid, Board.dropPiece b pid = (0%Z, b).

(** * Relations used for the second copy of the engine *)



(** What identifies an item apart from its remaining demand. *)
Definition tag (it : item) : Z * string * Z :=
  (arrivalTime it, curveId it, itemPriority it).

(** The same items in the same places, up to their remaining demands. *)
Definition sameTags (qs qs' : gmap string (list item)) : Prop :=
  forall k, map tag (qs' !!! k) = map tag (qs !!! k).


(** What a key holds during a minute's allocation: the demand waiting
    in its queue and what it has been served in the minute. *)
Definition ledger (a : CohortSimulationCore.alloc) (k : string) : R :=
  Rsum (map demand (CohortSimulationCore.queues a !!! k))
  + CohortSimulationCore.curveUsageThisMinute a !!! k.

(** The minute's usage that is not accounted to one of the keys [ks]. *)
Definition usageGap (ks : list string) (a : CohortSimulationCore.alloc) : R :=
  CohortSimulationCore.usage a
  - Rsum (map (fun k => CohortSimulationCore.curveUsageThisMinute a !!! k) ks).







(** A state of the second copy with one source that has two requests
    waiting, of 30 each, from minutes 0 and 1, and a capacity of 50. *)
Definition waitingCurve : curve := Curve "a" "linear" 0 0 0 1.

Definition waitingQueues : gmap string (list item) :=
  {[ "a"%string := [Item 0 30 "a" 1; Item 1 30 "a" 1] ]}.

Definition waitingAlloc : CohortSimulationCore.alloc :=
  CohortSimulationCore.Alloc waitingQueues 50 0 ∅.

(** * The embedding on small inputs *)

Section SmallInputs.

(** The sort is stable: equal priorities keep their list order. *)
Example sortBy_stable :
  map id (sortBy priority
            [Curve "a" "linear" 0 0 0 2; Curve "b" "linear" 0 0 0 1;
             Curve "c" "linear" 0 0 0 2; Curve "d" "linear" 0 0 0 1])
  = ["b"; "d"; "a"; "c"]%string.
Proof. reflexivity. Qed.

(** An item is shed when its age exceeds the timeout, not when it
    reaches it. *)
Example timedOut_at_31 :
  timedOut 30 30 (Item 0 50 "p1" 1) = false
  /\ timedOut 31 30 (Item 0 50 "p1" 1) = true.
Proof. split; reflexivity. Qed.

Example keepLive_at_31 :
  keepLive 31 30 [Item 0 50 "p1" 1; Item 1 50 "p1" 1] = [Item 1 50 "p1" 1].
Proof. reflexivity. Qed.

(** The queue loop: 100 units against items of 50 and 80, oldest
    first. *)
Example serveQueue_100 :
  let r := SimulationCore.serveQueue [Item 0 50 "p1" 1; Item 1 80 "p1" 1]
             (MinuteVars 100 0) 0 in
  map demand r.1.1 = [50 - 50; 80 - 50]
  /\ availableCapacity r.1.2 = 100 - 50 - 50
  /\ r.2 = 0 + 50 + 50.
Proof.
  cbn [SimulationCore.serveQueue availableCapacity actualUsage demand].
  rewrite (decide_True (P := 0 < 100)) by lra.
  rewrite (Rmin_left 50 100) by lra.
  rewrite (decide_True (P := 0 < 100 - 50)) by lra.
  rewrite (Rmin_right 80 (100 - 50)) by lra.
  cbn [fst snd map demand subDemand availableCapacity].
  repeat split; try lra. do 2 f_equal. lra.
Qed.

(** The cohorts of a sorted queue are its runs of equal arrival
    times. *)
Example cohorts_of_runs :
  CohortSimulationCore.cohorts (fun z : Z => z) [0; 0; 1; 3; 3; 3]%Z
  = [[0; 0]; [1]; [3; 3; 3]]%Z.
Proof. reflexivity. Qed.

(** The priority levels are the distinct priorities in ascending
    order. *)
Example priorityLevels_of_four :
  CohortSimulationCore.priorityLevels
    [Curve "a" "linear" 0 0 0 2; Curve "b" "linear" 0 0 0 1;
     Curve "c" "linear" 0 0 0 2; Curve "d" "linear" 0 0 0 1]
  = [1; 2]%Z.
Proof. reflexivity. Qed.

End SmallInputs.

(** * Sums *)

Section Sums.

Lemma Rsum_app (xs ys : list R) : Rsum (xs ++ ys) = Rsum xs + Rsum ys.
Proof. induction xs as [|x xs IH]; simpl; [lra | rewrite IH; lra]. Qed.



Lemma Rsum_perm (xs ys : list R) : xs ≡ₚ ys -> Rsum xs = Rsum ys.
Proof. induction 1; simpl; lra. Qed.

Lemma Rsum_const {A : Type} (c : R) (l : list A) :
  Rsum (map (fun _ => c) l) = INR (length l) * c.
Proof.
  induction l as [|x l IH]; [simpl; lra|].
  change (Rsum (map (fun _ => c) (x :: l))) with (c + Rsum (map (fun _ => c) l)).
  rewrite IH. change (length (x :: l)) with (S (length l)).
  rewrite S_INR. lra.
Qed.



Lemma Rsum_map_ext {A : Type} (f g : A -> R) (l : list A) :
  (forall x, x ∈ l -> f x = g x) -> Rsum (map f l) = Rsum (map g l).
Proof.
  induction l as [|x l IH]; intros Hfg; simpl; [reflexivity|].
  rewrite (Hfg x) by apply list_elem_of_here.
  rewrite IH; [reflexivity|].
  intros y Hy. apply Hfg. by apply list_elem_of_further.
Qed.

Lemma Rsum_map_plus {A : Type} (f g : A -> R) (l : list A) :
  Rsum (map (fun x => f x + g x) l) = Rsum (map f l) + Rsum (map g l).
Proof. induction l as [|x l IH]; simpl; [lra | rewrite IH; lra]. Qed.

Lemma Rsum_map_zero {A : Type} (l : list A) : Rsum (map (fun _ => 0) l) = 0.
Proof. induction l as [|x l IH]; simpl; [lra | rewrite IH; lra]. Qed.

End Sums.

(** * The stable sort *)

Section Sorting.

Context {A : Type} (key : A -> Z).

Lemma insertBy_perm (x : A) (l : list A) : insertBy key x l ≡ₚ x :: l.
Proof.
  induction l as [|y l IH]; simpl; [reflexivity|].
  destruct (key x <=? key y)%Z; [reflexivity|].
  rewrite IH. apply Permutation_swap.
Qed.

Lemma sortBy_perm (l : list A) : sortBy key l ≡ₚ l.
Proof.
  induction l as [|x l IH]; simpl; [reflexivity|].
  rewrite insertBy_perm. by rewrite IH.
Qed.

Lemma insertBy_head (x : A) (l : list A) :
  Forall (fun y => (key x <= key y)%Z) l -> insertBy key x l = x :: l.
Proof.
  destruct l as [|y l]; [reflexivity|].
  intros Hall. simpl. inversion Hall as [|? ? Hxy _]; subst.
  apply Z.leb_le in Hxy. by rewrite Hxy.
Qed.

(** The sort leaves an already sorted array as it is. *)
Lemma sortBy_sorted (l : list A) : keySorted key l -> sortBy key l = l.
Proof.
  induction 1 as [|x l Hall _ IH]; simpl; [reflexivity|].
  rewrite IH. by apply insertBy_head.
Qed.

Lemma keySorted_snoc (l : list A) (x : A) :
  keySorted key l -> Forall (fun y => (key y <= key x)%Z) l -> keySorted key (l ++ [x]).
Proof.
  induction 1 as [|y l Hall Hs IH]; intros Hle; simpl.
  - constructor; constructor.
  - inversion Hle as [|? ? Hyx Hle']; subst. constructor.
    + apply Forall_app. split; [assumption|]. by constructor.
    + by apply IH.
Qed.

Lemma keySorted_filter (P : A -> Prop) `{!forall x, Decision (P x)} (l : list A) :
  keySorted key l -> keySorted key (filter P l).
Proof.
  induction 1 as [|x l Hall Hs IH]; [constructor|].
  rewrite filter_cons. destruct (decide (P x)); [|assumption].
  constructor; [|assumption].
  apply Forall_forall. intros y Hy. apply list_elem_of_filter in Hy as [_ Hy].
  rewrite Forall_forall in Hall. by apply Hall.
Qed.

End Sorting.

(** * Step 1: what the expiry loop computes *)

Section Expiry.

Variables (minute : nat) (queueTimeout : Z).

Lemma keepLive_cons (it : item) (q : list item) :
  keepLive minute queueTimeout (it :: q) =
  if timedOut minute queueTimeout it then keepLive minute queueTimeout q
  else it :: keepLive minute queueTimeout q.
Proof.
  unfold keepLive. rewrite filter_cons.
  destruct (timedOut minute queueTimeout it); by case_decide.
Qed.

Lemma timedOutDemand_cons (it : item) (q : list item) :
  timedOutDemand minute queueTimeout (it :: q) =
  if timedOut minute queueTimeout it
  then demand it + timedOutDemand minute queueTimeout q
  else timedOutDemand minute queueTimeout q.
Proof.
  unfold timedOutDemand. rewrite filter_cons.
  destruct (timedOut minute queueTimeout it); by case_decide.
Qed.

Lemma keepLive_idem (q : list item) :
  keepLive minute queueTimeout (keepLive minute queueTimeout q)
  = keepLive minute queueTimeout q.
Proof.
  induction q as [|it q IH]; [reflexivity|].
  rewrite keepLive_cons.
  destruct (timedOut minute queueTimeout it) eqn:E; [assumption|].
  rewrite keepLive_cons, E. by rewrite IH.
Qed.

Lemma timedOutDemand_keepLive (q : list item) :
  timedOutDemand minute queueTimeout (keepLive minute queueTimeout q) = 0.
Proof.
  induction q as [|it q IH]; [reflexivity|].
  rewrite keepLive_cons.
  destruct (timedOut minute queueTimeout it) eqn:E; [assumption|].
  by rewrite timedOutDemand_cons, E.
Qed.

(** Expiry moves demand from the queue to the shed side, nothing is
    lost. *)
Lemma keepLive_timedOut_sum (q : list item) :
  Rsum (map demand (keepLive minute queueTimeout q))
  + timedOutDemand minute queueTimeout q
  = Rsum (map demand q).
Proof.
  induction q as [|it q IH]; [simpl; unfold timedOutDemand; simpl; lra|].
  rewrite keepLive_cons, timedOutDemand_cons.
  destruct (timedOut minute queueTimeout it); simpl; lra.
Qed.


Lemma expireQueue_spec (cid : string) (q : list item) (a : shedAcc) :
  let r := expireQueue minute queueTimeout cid q a in
  let x := timedOutDemand minute queueTimeout q in
  r.1 = keepLive minute queueTimeout q
  /\ shedThisMinute r.2 = shedThisMinute a + x
  /\ accTotalShed r.2 = accTotalShed a + x
  /\ accShedByCurve r.2 !!! cid = accShedByCurve a !!! cid + x
  /\ (forall k, k <> cid -> accShedByCurve r.2 !!! k = accShedByCurve a !!! k).
Proof.
  induction q as [|it q IH]; simpl.
  - unfold timedOutDemand. simpl. repeat split; try lra. 
  - destruct IH as (IH1 & IH2 & IH3 & IH4 & IH5).
    change (fold_right (expireItem minute queueTimeout cid) ([], a) q)
      with (expireQueue minute queueTimeout cid q a).
    destruct (expireQueue minute queueTimeout cid q a) as [kept a'] eqn:E.
    simpl in *. rewrite keepLive_cons, timedOutDemand_cons.
    unfold expireItem.
    destruct (timedOut minute queueTimeout it); simpl.
    + repeat split; try (subst; lra); try assumption.
      * rewrite lookup_total_insert_eq. lra.
      * intros k Hk. rewrite lookup_total_insert_ne by congruence. by apply IH5.
    + repeat split; try assumption. by rewrite IH1.
Qed.

Lemma expireCurve_spec (s : sim) (x0 : R) (c : curve) (s1 : sim) (x1 : R) :
  expireCurve minute queueTimeout (s, x0) c = (s1, x1) ->
  let x := timedOutDemand minute queueTimeout (queuesByCurve s !!! id c) in
  queuesByCurve s1
    = <[id c := keepLive minute queueTimeout (queuesByCurve s !!! id c)]> (queuesByCurve s)
  /\ shedByCurve s1 !!! id c = shedByCurve s !!! id c + x
  /\ (forall k, k <> id c -> shedByCurve s1 !!! k = shedByCurve s !!! k)
  /\ utilizationByCurve s1 = utilizationByCurve s
  /\ totalUtilization s1 = totalUtilization s
  /\ demandValues s1 = demandValues s
  /\ totalShedDemand s1 = totalShedDemand s + x
  /\ x1 = x0 + x.
Proof.
  unfold expireCurve.
  pose proof (expireQueue_spec (id c) (queuesByCurve s !!! id c)
                (ShedAcc x0 (totalShedDemand s) (shedByCurve s))) as Hq.
  destruct (expireQueue minute queueTimeout (id c) (queuesByCurve s !!! id c)
              (ShedAcc x0 (totalShedDemand s) (shedByCurve s))) as [kept a].
  cbn [fst snd shedThisMinute accTotalShed accShedByCurve] in Hq.
  destruct Hq as (Hk & Hs & Ht & Hb & Hbo).
  intros [= <- <-]. cbn. subst kept. repeat split; assumption.
Qed.

(** The state transformation of the whole step, key by key.  A key
    met twice in [curves] is filtered twice, which changes nothing the
    second time. *)
Lemma expireFold_spec (cs : list curve) (s : sim) (x0 : R) (s' : sim) (x' : R) :
  fold_left (expireCurve minute queueTimeout) cs (s, x0) = (s', x') ->
  (forall k, queuesByCurve s' !!! k =
             if decide (k ∈ map id cs)
             then keepLive minute queueTimeout (queuesByCurve s !!! k)
             else queuesByCurve s !!! k)
  /\ (forall k, shedByCurve s' !!! k =
                shedByCurve s !!! k +
                if decide (k ∈ map id cs)
                then timedOutDemand minute queueTimeout (queuesByCurve s !!! k)
                else 0)
  /\ utilizationByCurve s' = utilizationByCurve s
  /\ totalUtilization s' = totalUtilization s
  /\ demandValues s' = demandValues s
  /\ totalShedDemand s' - totalShedDemand s = x' - x0
  /\ (NoDup (map id cs) ->
      x' = x0 + Rsum (map (fun c => timedOutDemand minute queueTimeout
                                      (queuesByCurve s !!! id c)) cs)).
Proof.
  revert s x0. induction cs as [|c cs IH]; intros s x0; cbn [fold_left map].
  - intros [= <- <-].
    split; [|split; [|repeat split; try lra; try (intros _; simpl; lra)]].
    + intros k. destruct (decide (k ∈ [])) as [Hk|_];
        [by apply elem_of_nil in Hk | reflexivity].
    + intros k. destruct (decide (k ∈ [])) as [Hk|_];
        [by apply elem_of_nil in Hk | lra].
  - destruct (expireCurve minute queueTimeout (s, x0) c) as [s1 x1] eqn:E1.
    apply expireCurve_spec in E1.
    destruct E1 as (Hq & Hb & Hbo & Hu & Htu & Hd & Ht & Hx).
    intros Hfold. apply IH in Hfold.
    destruct Hfold as (IHq & IHs & IHu & IHtu & IHd & IHt & IHn).
    split; [|split; [|repeat split; try congruence]].
    + intros k. rewrite IHq, Hq.
      destruct (decide (k = id c)) as [->|Hne].
      * rewrite lookup_total_insert_eq.
        rewrite (decide_True (P := id c ∈ id c :: map id cs))
          by apply list_elem_of_here.
        case_decide; [apply keepLive_idem | reflexivity].
      * rewrite lookup_total_insert_ne by congruence.
        case_decide as H1; case_decide as H2; try reflexivity.
        -- exfalso. apply H2. by apply list_elem_of_further.
        -- exfalso. apply elem_of_cons in H2 as [?|?]; [congruence | by apply H1].
    + intros k. rewrite IHs, Hq.
      destruct (decide (k = id c)) as [->|Hne].
      * rewrite lookup_total_insert_eq, Hb.
        rewrite (decide_True (P := id c ∈ id c :: map id cs))
          by apply list_elem_of_here.
        case_decide; [rewrite timedOutDemand_keepLive|]; lra.
      * rewrite lookup_total_insert_ne by congruence.
        rewrite Hbo by assumption.
        case_decide as H1; case_decide as H2; try lra.
        -- exfalso. apply H2. by apply list_elem_of_further.
        -- exfalso. apply elem_of_cons in H2 as [?|?]; [congruence | by apply H1].
    + lra.
    + intros Hnd. apply NoDup_cons in Hnd as [Hnotin Hnd].
      rewrite (IHn Hnd), Hx, Hq. cbn [map Rsum].
      rewrite (Rsum_map_ext
                 (fun c0 => timedOutDemand minute queueTimeout
                              (<[id c:=keepLive minute queueTimeout
                                         (queuesByCurve s !!! id c)]>
                                 (queuesByCurve s) !!! id c0))
                 (fun c0 => timedOutDemand minute queueTimeout
                              (queuesByCurve s !!! id c0))); [lra|].
      intros c0 Hc0. rewrite lookup_total_insert_ne; [reflexivity|].
      intros Heq. apply Hnotin. rewrite Heq.
      apply list_elem_of_In, in_map, list_elem_of_In, Hc0.
Qed.

End Expiry.

(** * The allocation of [demand-simulator/simulation-core.js] *)

Section Allocation.

Import SimulationCore.

Lemma subDemand_arrival (it : item) (x : R) : arrivalTime (subDemand it x) = arrivalTime it.
Proof. reflexivity. Qed.

(** With no capacity left the queue loop does not run. *)
Lemma serveQueue_no_capacity (q : list item) (v : minuteVars) (u : R) :
  availableCapacity v <= 0 -> serveQueue q v u = (q, v, u).
Proof.
  intros Hle. destruct q as [|it q]; [reflexivity|].
  cbn [serveQueue]. rewrite decide_False by lra. reflexivity.
Qed.

(** The bookkeeping of the queue loop: what leaves the queue is what is
    added to the usage counters and taken from the capacity; arrival
    times are not touched. *)
Lemma serveQueue_spec (q : list item) (v : minuteVars) (u : R)
    (q' : list item) (v' : minuteVars) (u' : R) :
  serveQueue q v u = (q', v', u') ->
  availableCapacity v' + actualUsage v' = availableCapacity v + actualUsage v
  /\ u' - u = actualUsage v' - actualUsage v
  /\ Rsum (map demand q') + u' = Rsum (map demand q) + u
  /\ map arrivalTime q' = map arrivalTime q
  /\ map curveId q' = map curveId q
  /\ Rmin (availableCapacity v) 0 <= availableCapacity v'
  /\ (Forall (fun it => 0 <= demand it) q -> Forall (fun it => 0 <= demand it) q')
  /\ (Forall (fun it => 0 <= demand it) q -> actualUsage v <= actualUsage v').
Proof.
  revert v u q' v' u'. induction q as [|it q IH]; intros v u q' v' u'.
  - cbn [serveQueue]. intros [= <- <- <-].
    repeat split; try lra; try (intros _; constructor).
    unfold Rmin. destruct (Rle_dec (availableCapacity v) 0); lra.
  - cbn [serveQueue]. destruct (decide (0 < availableCapacity v)) as [Hpos|Hnpos].
    + set (served := Rmin (demand it) (availableCapacity v)).
      destruct (serveQueue q
                  (MinuteVars (availableCapacity v - served) (actualUsage v + served))
                  (u + served)) as [[rest' v1] u1] eqn:E.
      apply IH in E. cbn [availableCapacity actualUsage] in E.
      destruct E as (E1 & E2 & E3 & E4 & E5 & E7 & E8 & E9).
      intros [= <- <- <-].
      assert (Hs1 : served <= demand it) by apply Rmin_l.
      assert (Hs2 : served <= availableCapacity v) by apply Rmin_r.
      cbn [map Rsum subDemand demand arrivalTime curveId].
      repeat split; try lra; try congruence.
      * revert E7. unfold Rmin.
        destruct (Rle_dec (availableCapacity v - served) 0);
          destruct (Rle_dec (availableCapacity v) 0); lra.
      * intros Hall. inversion Hall as [|? ? Hit Hall']; subst.
        constructor; [cbn; lra | by apply E8].
      * intros Hall. inversion Hall as [|? ? Hit Hall']; subst.
        specialize (E9 Hall').
        assert (0 <= served); [|lra].
        unfold served, Rmin. destruct (Rle_dec (demand it) (availableCapacity v)); lra.
    + intros [= <- <- <-]. repeat split; try lra; try (intros H; exact H).
      unfold Rmin. destruct (Rle_dec (availableCapacity v) 0); lra.
Qed.

Lemma queueOK_nil (bound : Z) : queueOK bound [].
Proof. split; constructor. Qed.

Lemma queueOK_weaken (b1 b2 : Z) (q : list item) :
  (b1 <= b2)%Z -> queueOK b1 q -> queueOK b2 q.
Proof.
  intros Hb [Hs Hall]. split; [assumption|].
  eapply Forall_impl; [exact Hall|]. intros it [? ?]. split; [assumption | lia].
Qed.

Lemma queueOK_nonneg (bound : Z) (q : list item) :
  queueOK bound q -> Forall (fun it => 0 <= demand it) q.
Proof.
  intros [_ Hall]. eapply Forall_impl; [exact Hall|]. intros it [? _]. simpl. lra.
Qed.

Lemma queueOK_keepLive (bound : Z) (minute : nat) (queueTimeout : Z) (q : list item) :
  queueOK bound q -> queueOK bound (keepLive minute queueTimeout q).
Proof.
  intros [Hs Hall]. split.
  - by apply keySorted_filter.
  - apply Forall_forall. intros it Hit.
    apply list_elem_of_filter in Hit as [_ Hit].
    rewrite Forall_forall in Hall. by apply Hall.
Qed.

Lemma pushExcess_OK (minute : nat) (c : curve) (x : R) (q : list item) :
  queueOK (Z.of_nat minute) q -> queueOK (Z.of_nat minute) (pushExcess minute c x q).
Proof.
  intros [Hs Hall]. unfold pushExcess. case_decide as Hx; [|by split].
  split.
  - apply keySorted_snoc; [assumption|].
    eapply Forall_impl; [exact Hall|]. intros it [_ ?]. assumption.
  - apply Forall_app. split; [assumption|].
    constructor; [|constructor]. cbn. split; [assumption | lia].
Qed.

Lemma pushExcess_sum (minute : nat) (c : curve) (x : R) (q : list item) :
  0 <= x -> Rsum (map demand (pushExcess minute c x q)) = Rsum (map demand q) + x.
Proof.
  intros Hx. unfold pushExcess. case_decide as Hpos.
  - rewrite map_app, Rsum_app. cbn. lra.
  - lra.
Qed.

(** Dropping the fully served items does not change the queued
    total. *)
Lemma filter_positive_sum (q : list item) :
  Forall (fun it => 0 <= demand it) q ->
  Rsum (map demand (filter (fun it => 0 < demand it) q)) = Rsum (map demand q).
Proof.
  induction 1 as [|it q Hit _ IH]; [reflexivity|].
  rewrite filter_cons. case_decide as Hpos; cbn [map Rsum]; rewrite IH; lra.
Qed.

(** Steps 2a to 3 for one curve whose queue is in order: the sort is
    the identity and the step is the queue loop on the pushed queue. *)
Lemma processCurve_sorted (demandByCurve : gmap string (list R)) (minute : nat)
    (s : sim) (v : minuteVars) (c : curve) :
  queueOK (Z.of_nat minute) (queuesByCurve s !!! id c) ->
  let d := demandAt demandByCurve c minute in
  let now := Rmin d (availableCapacity v) in
  let r := serveQueue
             (pushExcess minute c (d - now) (queuesByCurve s !!! id c))
             (MinuteVars (availableCapacity v - now) (actualUsage v + now))
             (0 + now) in
  processCurve demandByCurve minute (s, v) c =
  (Sim (<[id c := filter (fun it => 0 < demand it) r.1.1]> (queuesByCurve s))
       (<[id c := (utilizationByCurve s !!! id c) + r.2]> (utilizationByCurve s))
       (shedByCurve s) (totalUtilization s) (totalShedDemand s) (demandValues s),
   r.1.2).
Proof.
  intros Hok d now r. unfold processCurve.
  fold d. fold now. fold (pushExcess minute c (d - now) (queuesByCurve s !!! id c)).
  rewrite sortBy_sorted by apply (pushExcess_OK _ _ _ _ Hok).
  fold r. by destruct r as [[q' v'] u'].
Qed.

(** The accounting of one curve step. *)
Lemma processCurve_spec (demandByCurve : gmap string (list R)) (minute : nat)
    (s : sim) (v : minuteVars) (c : curve) (s' : sim) (v' : minuteVars) :
  queueOK (Z.of_nat minute) (queuesByCurve s !!! id c) ->
  processCurve demandByCurve minute (s, v) c = (s', v') ->
  let d := demandAt demandByCurve c minute in
  let used := actualUsage v' - actualUsage v in
  (exists q', queuesByCurve s' = <[id c := q']> (queuesByCurve s)
              /\ queueOK (Z.of_nat minute) q'
              /\ Rsum (map demand q') + used
                 = Rsum (map demand (queuesByCurve s !!! id c)) + d)
  /\ utilizationByCurve s'
     = <[id c := (utilizationByCurve s !!! id c) + used]> (utilizationByCurve s)
  /\ shedByCurve s' = shedByCurve s
  /\ totalUtilization s' = totalUtilization s
  /\ totalShedDemand s' = totalShedDemand s
  /\ demandValues s' = demandValues s
  /\ availableCapacity v' + actualUsage v' = availableCapacity v + actualUsage v
  /\ 0 <= availableCapacity v'
  /\ (0 <= d -> 0 <= availableCapacity v -> 0 <= used).
Proof.
  intros Hok. rewrite (processCurve_sorted _ _ _ _ _ Hok). cbn zeta.
  set (d := demandAt demandByCurve c minute).
  set (now := Rmin d (availableCapacity v)).
  set (pushed := pushExcess minute c (d - now) (queuesByCurve s !!! id c)).
  assert (Hn1 : now <= d) by apply Rmin_l.
  assert (Hn2 : now <= availableCapacity v) by apply Rmin_r.
  assert (Hpushed : queueOK (Z.of_nat minute) pushed) by by apply pushExcess_OK.
  destruct (serveQueue pushed
              (MinuteVars (availableCapacity v - now) (actualUsage v + now))
              (0 + now)) as [[q1 v1] u1] eqn:E.
  apply serveQueue_spec in E. cbn [availableCapacity actualUsage] in E.
  destruct E as (E1 & E2 & E3 & E4 & E5 & E7 & E8 & E9).
  specialize (E8 (queueOK_nonneg _ _ Hpushed)).
  specialize (E9 (queueOK_nonneg _ _ Hpushed)).
  cbn [fst snd]. intros [= <- <-]. cbn.
  assert (Hused : u1 = actualUsage v1 - actualUsage v) by lra.
  split; [|repeat split; try lra].
  - exists (filter (fun it => 0 < demand it) q1). split; [reflexivity|]. split.
    + destruct Hpushed as [Hs Hall]. split.
      * apply keySorted_filter.
        clear -Hs E4. revert q1 E4.
        induction Hs as [|x l Hx Hs IH]; intros q1 E4.
        -- destruct q1; [constructor | discriminate].
        -- destruct q1 as [|y q1]; [discriminate|]. injection E4 as Ey E4.
           constructor; [|by apply IH].
           apply Forall_forall. intros z Hz.
           apply list_elem_of_In, (in_map arrivalTime) in Hz. rewrite E4 in Hz.
           apply in_map_iff in Hz as (z0 & Hz0 & Hin).
           rewrite Forall_forall in Hx. rewrite Ey, <- Hz0.
           apply Hx. by apply list_elem_of_In.
      * apply Forall_forall. intros it Hit.
        apply list_elem_of_filter in Hit as [Hpos Hit]. split; [assumption|].
        apply list_elem_of_In, (in_map arrivalTime) in Hit. rewrite E4 in Hit.
        apply in_map_iff in Hit as (z0 & Hz0 & Hin).
        rewrite Forall_forall in Hall. rewrite <- Hz0.
        by apply Hall, list_elem_of_In.
    + rewrite filter_positive_sum by assumption.
      unfold pushed in E3. rewrite pushExcess_sum in E3 by lra. lra.
  - by rewrite Hused.
  - revert E7. unfold Rmin.
    destruct (Rle_dec (availableCapacity v - now) 0); lra.
  - intros Hd Hv.
    assert (0 <= now); [|lra].
    unfold now, Rmin. destruct (Rle_dec d (availableCapacity v)); lra.
Qed.

Lemma demandOfKey_notin (demandByCurve : gmap string (list R)) (cs : list curve)
    (k : string) (minute : nat) :
  k ∉ map id cs -> demandOfKey demandByCurve cs k minute = 0.
Proof.
  unfold demandOfKey. induction cs as [|c cs IH]; intros Hk; [reflexivity|].
  cbn [map Rsum]. cbn [map] in Hk. apply not_elem_of_cons in Hk as [Hne Hk].
  rewrite decide_False by congruence. rewrite IH by assumption. lra.
Qed.

Lemma demandOfKey_unique (demandByCurve : gmap string (list R)) (cs : list curve)
    (c : curve) (minute : nat) :
  NoDup (map id cs) -> c ∈ cs ->
  demandOfKey demandByCurve cs (id c) minute = demandAt demandByCurve c minute.
Proof.
  unfold demandOfKey. induction cs as [|c0 cs IH]; intros Hnd Hin.
  - by apply elem_of_nil in Hin.
  - cbn [map] in Hnd. apply NoDup_cons in Hnd as [Hnotin Hnd].
    cbn [map Rsum]. apply elem_of_cons in Hin as [->|Hin].
    + rewrite decide_True by reflexivity.
      fold (demandOfKey demandByCurve cs (id c0) minute).
      rewrite demandOfKey_notin by assumption. lra.
    + rewrite decide_False.
      * rewrite IH by assumption. lra.
      * intros Heq. apply Hnotin. rewrite Heq.
        by apply list_elem_of_In, in_map, list_elem_of_In.
Qed.

Lemma demandOfKey_perm (demandByCurve : gmap string (list R)) (cs cs' : list curve)
    (k : string) (minute : nat) :
  cs ≡ₚ cs' -> demandOfKey demandByCurve cs k minute = demandOfKey demandByCurve cs' k minute.
Proof.
  intros Hp. unfold demandOfKey. apply Rsum_perm. by apply Permutation_map.
Qed.

(** Updating one key of a table moves the sum over a duplicate-free
    key list by the change of that key. *)
Lemma Rsum_insert (m : gmap string R) (k0 : string) (x : R) (ks : list string) :
  NoDup ks -> k0 ∈ ks ->
  Rsum (map (fun k => <[k0 := x]> m !!! k) ks)
  = Rsum (map (fun k => m !!! k) ks) - m !!! k0 + x.
Proof.
  induction ks as [|k ks IH]; intros Hnd Hin.
  - by apply elem_of_nil in Hin.
  - apply NoDup_cons in Hnd as [Hnotin Hnd]. cbn [map Rsum].
    destruct (decide (k = k0)) as [->|Hne].
    + rewrite lookup_total_insert_eq.
      rewrite (Rsum_map_ext (fun k => <[k0:=x]> m !!! k) (fun k => m !!! k)); [lra|].
      intros k Hk. rewrite lookup_total_insert_ne; [reflexivity|].
      intros ->. contradiction.
    + rewrite lookup_total_insert_ne by congruence.
      apply elem_of_cons in Hin as [Heq|Hin]; [congruence|].
      rewrite IH by assumption. lra.
Qed.

Lemma Rsum_insert_notin (m : gmap string R) (k0 : string) (x : R) (ks : list string) :
  k0 ∉ ks ->
  Rsum (map (fun k => <[k0 := x]> m !!! k) ks) = Rsum (map (fun k => m !!! k) ks).
Proof.
  intros Hk. apply Rsum_map_ext. intros k Hin.
  rewrite lookup_total_insert_ne; [reflexivity|]. intros ->. contradiction.
Qed.

(** The accounting of a sequence of curve steps within one minute. *)
Lemma processFold_spec (demandByCurve : gmap string (list R)) (minute : nat)
    (cs : list curve) (s : sim) (v : minuteVars) (s' : sim) (v' : minuteVars) :
  simOK (Z.of_nat minute) s ->
  fold_left (processCurve demandByCurve minute) cs (s, v) = (s', v') ->
  simOK (Z.of_nat minute) s'
  /\ availableCapacity v' + actualUsage v' = availableCapacity v + actualUsage v
  /\ (0 <= availableCapacity v -> 0 <= availableCapacity v')
  /\ shedByCurve s' = shedByCurve s
  /\ totalUtilization s' = totalUtilization s
  /\ totalShedDemand s' = totalShedDemand s
  /\ demandValues s' = demandValues s
  /\ (forall k, inFlight s' k = inFlight s k + demandOfKey demandByCurve cs k minute)
  /\ (forall k, k ∉ map id cs ->
        queuesByCurve s' !!! k = queuesByCurve s !!! k
        /\ utilizationByCurve s' !!! k = utilizationByCurve s !!! k)
  /\ (forall ks, NoDup ks -> (forall c, c ∈ cs -> id c ∈ ks) ->
        Rsum (map (fun k => utilizationByCurve s' !!! k) ks)
        = Rsum (map (fun k => utilizationByCurve s !!! k) ks)
          + (actualUsage v' - actualUsage v)).
Proof.
  revert s v. induction cs as [|c cs IH]; intros s v Hok; cbn [fold_left].
  - intros [= <- <-]. unfold demandOfKey. cbn [map Rsum].
    repeat split; try lra; try assumption; try apply Hok.
    + intros k. lra.
    + intros ks _ _. lra.
  - destruct (processCurve demandByCurve minute (s, v) c) as [s1 v1] eqn:E1.
    apply processCurve_spec in E1; [|apply Hok].
    destruct E1 as ((q1 & Hq & Hq1 & Hsum) & Hu & Hsh & Htu & Hts & Hdv & Hcap & Hpos & _).
    assert (Hok1 : simOK (Z.of_nat minute) s1).
    { intros k. rewrite Hq. destruct (decide (k = id c)) as [->|Hne].
      - by rewrite lookup_total_insert_eq.
      - rewrite lookup_total_insert_ne by congruence. apply Hok. }
    intros Hfold. apply (IH _ _ Hok1) in Hfold.
    destruct Hfold as (F1 & F2 & F3 & F4 & F5 & F6 & F7 & F8 & F9 & F10).
    split; [assumption|]. repeat split; try congruence; try lra.
    + intros k. rewrite F8. unfold demandOfKey. cbn [map Rsum].
      unfold inFlight. rewrite Hq, Hu.
      destruct (decide (id c = k)) as [<-|Hne].
      * rewrite !lookup_total_insert_eq. lra.
      * rewrite !lookup_total_insert_ne by congruence. lra.
    + cbn [map] in H. apply not_elem_of_cons in H as [Hne Hk].
      destruct (F9 k Hk) as [-> _]. rewrite Hq.
      by rewrite lookup_total_insert_ne by congruence.
    + cbn [map] in H. apply not_elem_of_cons in H as [Hne Hk].
      destruct (F9 k Hk) as [_ ->]. rewrite Hu.
      by rewrite lookup_total_insert_ne by congruence.
    + intros ks Hnd Hks. rewrite F10; [|assumption|].
      * rewrite Hu. rewrite Rsum_insert; [lra|assumption|].
        apply Hks, list_elem_of_here.
      * intros c0 Hc0. by apply Hks, list_elem_of_further.
Qed.

Lemma cumDemand_S (demandByCurve : gmap string (list R)) (cs : list curve)
    (k : string) (n : nat) :
  cumDemand demandByCurve cs k (S n)
  = cumDemand demandByCurve cs k n + demandOfKey demandByCurve cs k n.
Proof.
  unfold cumDemand. rewrite seq_S, map_app, Rsum_app. cbn. lra.
Qed.

Lemma initSim_spec (cs : list curve) :
  (forall k, queuesByCurve (initSim cs) !!! k = [])
  /\ (forall k, utilizationByCurve (initSim cs) !!! k = 0)
  /\ (forall k, shedByCurve (initSim cs) !!! k = 0)
  /\ totalUtilization (initSim cs) = 0
  /\ totalShedDemand (initSim cs) = 0
  /\ demandValues (initSim cs) = [].
Proof.
  unfold initSim.
  assert (H0 : (forall k, queuesByCurve (Sim ∅ ∅ ∅ 0 0 []) !!! k = [])
               /\ (forall k, utilizationByCurve (Sim ∅ ∅ ∅ 0 0 []) !!! k = 0)
               /\ (forall k, shedByCurve (Sim ∅ ∅ ∅ 0 0 []) !!! k = 0)
               /\ totalUtilization (Sim ∅ ∅ ∅ 0 0 []) = 0
               /\ totalShedDemand (Sim ∅ ∅ ∅ 0 0 []) = 0
               /\ demandValues (Sim ∅ ∅ ∅ 0 0 []) = []).
  { cbn. repeat split; intros k; by rewrite lookup_total_empty. }
  revert H0. generalize (Sim ∅ ∅ ∅ 0 0 []).
  induction cs as [|c cs IH]; intros s Hs; [exact Hs|].
  cbn [fold_left]. apply IH. destruct Hs as (H1 & H2 & H3 & H4 & H5 & H6).
  cbn. repeat split; try assumption; intros k;
    (destruct (decide (k = id c)) as [->|Hne];
     [by rewrite lookup_total_insert_eq
     | by rewrite lookup_total_insert_ne by congruence]).
Qed.

(** ** The minute loop *)

Section Run.

Variables (machines : R) (demandByCurve : gmap string (list R))
          (curves : list curve) (queueTimeout : Z).

Lemma stateAfter_S (n : nat) :
  stateAfter machines demandByCurve curves queueTimeout (S n)
  = stepMinute machines demandByCurve curves queueTimeout
      (stateAfter machines demandByCurve curves queueTimeout n) n.
Proof. unfold stateAfter. by rewrite seq_S, fold_left_app. Qed.

Lemma runInv_init : runInv demandByCurve curves 0 (initSim curves).
Proof.
  destruct (initSim_spec curves) as (H1 & H2 & H3 & H4 & H5 & H6).
  constructor.
  - intros k. rewrite H1. apply queueOK_nil.
  - intros k. unfold inFlight, cumDemand. rewrite H1, H2, H3. cbn. lra.
  - intros ks _ _. split; [intros k _; apply H2|].
    rewrite H4.
    rewrite (Rsum_map_ext _ (fun _ => 0)); [by rewrite Rsum_map_zero|].
    intros k _. apply H2.
  - intros _. rewrite H5.
    rewrite (Rsum_map_ext _ (fun _ => 0)); [by rewrite Rsum_map_zero|].
    intros c _. apply H3.
  - by rewrite H6.
Qed.

Lemma sorted_curves_elem (c : curve) : c ∈ sortBy priority curves <-> c ∈ curves.
Proof. by rewrite (sortBy_perm priority curves). Qed.

Lemma sorted_curves_ids (k : string) :
  k ∈ map id (sortBy priority curves) <-> k ∈ map id curves.
Proof.
  assert (Hp : map id (sortBy priority curves) ≡ₚ map id curves)
    by apply Permutation_map, sortBy_perm.
  by rewrite Hp.
Qed.

Lemma runInv_step (n : nat) (s : sim) :
  runInv demandByCurve curves n s ->
  runInv demandByCurve curves (S n)
    (stepMinute machines demandByCurve curves queueTimeout s n).
Proof.
  intros [Hq Hc Hu Hs Hl]. unfold stepMinute.
  destruct (expireAll n queueTimeout curves s) as [s1 shedNow] eqn:E1.
  unfold expireAll in E1. apply expireFold_spec in E1.
  destruct E1 as (X1 & X2 & X3 & X4 & X5 & X6 & X7).
  assert (Hok1 : simOK (Z.of_nat n) s1).
  { intros k. rewrite X1. apply (queueOK_weaken (Z.of_nat n - 1)); [lia|].
    case_decide; [apply queueOK_keepLive|]; apply Hq. }
  destruct (allocate machines demandByCurve curves n s1) as [s2 v] eqn:E2.
  unfold allocate in E2. apply (processFold_spec _ _ _ _ _ _ _ Hok1) in E2.
  cbn [availableCapacity actualUsage] in E2.
  destruct E2 as (F1 & F2 & F3 & F4 & F5 & F6 & F7 & F8 & F9 & F10).
  constructor; cbn [queuesByCurve utilizationByCurve shedByCurve totalUtilization
                      totalShedDemand demandValues].
  - intros k. replace (Z.of_nat (S n) - 1)%Z with (Z.of_nat n) by lia. apply F1.
  - intros k. pose proof (F8 k) as F8k.
    rewrite (demandOfKey_perm _ _ curves) in F8k by apply sortBy_perm.
    rewrite F4, cumDemand_S, <- Hc.
    unfold inFlight in *.
    cbn [queuesByCurve utilizationByCurve shedByCurve].
    rewrite F8k, X3, X1, X2.
    case_decide.
    + pose proof (keepLive_timedOut_sum n queueTimeout (queuesByCurve s !!! k)). lra.
    + lra.
  - intros ks Hnd Hks. destruct (Hu ks Hnd Hks) as [Hz Ht]. split.
    + intros k Hk. destruct (F9 k) as [_ ->]; [by rewrite sorted_curves_ids|].
      rewrite X3. by apply Hz.
    + rewrite F10; [|assumption|].
      * rewrite F5, X4, X3, Ht. lra.
      * intros c Hc0. apply Hks. by apply sorted_curves_elem.
  - intros Hnd. rewrite F6, F4.
    assert (Hsum : Rsum (map (fun c => shedByCurve s1 !!! id c) curves)
                   = Rsum (map (fun c => shedByCurve s !!! id c) curves)
                     + Rsum (map (fun c => timedOutDemand n queueTimeout
                                             (queuesByCurve s !!! id c)) curves)).
    { rewrite <- Rsum_map_plus. apply Rsum_map_ext. intros c Hc0.
      rewrite X2. rewrite decide_True; [reflexivity|].
      by apply list_elem_of_In, in_map, list_elem_of_In. }
    rewrite Hsum, <- (Hs Hnd). rewrite (X7 Hnd) in X6. lra.
  - rewrite length_app, F7, X5, Hl. cbn. lia.
Qed.

Lemma runInv_stateAfter (n : nat) :
  runInv demandByCurve curves n (stateAfter machines demandByCurve curves queueTimeout n).
Proof.
  induction n as [|n IH]; [apply runInv_init|].
  rewrite stateAfter_S. by apply runInv_step.
Qed.

End Run.

(** ** The demand table *)

Lemma buildDemand_notin (cs : list curve) (d0 : gmap string (list R)) (k : string) :
  k ∉ map id cs ->
  fold_left (fun d c => <[id c := curveDemandArray c]> d) cs d0 !!! k = d0 !!! k.
Proof.
  revert d0. induction cs as [|c cs IH]; intros d0 Hk; [reflexivity|].
  cbn [map] in Hk. apply not_elem_of_cons in Hk as [Hne Hk].
  cbn [fold_left]. rewrite IH by assumption.
  by rewrite lookup_total_insert_ne by congruence.
Qed.

(** With distinct ids every curve finds its own array in the table. *)
Lemma buildDemand_lookup (cs : list curve) (c : curve) :
  NoDup (map id cs) -> c ∈ cs ->
  buildDemandByCurve cs !!! id c = curveDemandArray c.
Proof.
  unfold buildDemandByCurve. generalize (∅ : gmap string (list R)).
  induction cs as [|c0 cs IH]; intros d0 Hnd Hin.
  - by apply elem_of_nil in Hin.
  - cbn [map] in Hnd. apply NoDup_cons in Hnd as [Hnotin Hnd]. cbn [fold_left].
    apply elem_of_cons in Hin as [->|Hin].
    + rewrite buildDemand_notin by assumption. by rewrite lookup_total_insert_eq.
    + by apply IH.
Qed.

Lemma generateLinearDemand_length (t : R) : length (generateLinearDemand t) = horizon.
Proof. unfold generateLinearDemand. by rewrite length_map, length_seq. Qed.

Lemma generateGaussianDemand_length (t p w : R) :
  length (generateGaussianDemand t p w) = horizon.
Proof. unfold generateGaussianDemand. by rewrite length_map, length_seq. Qed.

Lemma curveDemandArray_length (c : curve) : length (curveDemandArray c) = horizon.
Proof.
  unfold curveDemandArray. case_decide.
  - apply generateLinearDemand_length.
  - apply generateGaussianDemand_length.
Qed.

Lemma INR_horizon : INR horizon = 1440.
Proof. rewrite INR_IZR_INZ. reflexivity. Qed.

(** A linear array adds up to the configured volume. *)
Lemma generateLinearDemand_sum (t : R) : Rsum (generateLinearDemand t) = t.
Proof.
  unfold generateLinearDemand. rewrite Rsum_const, length_seq, INR_horizon. field.
Qed.

(** Reading an array entry by entry gives its sum. *)
Lemma Rsum_nth (l : list R) :
  Rsum (map (fun m => nth m l 0) (seq 0 (length l))) = Rsum l.
Proof.
  induction l as [|x l IH]; [reflexivity|].
  cbn [length]. rewrite <- cons_seq, <- seq_shift. cbn [map Rsum nth].
  rewrite map_map. cbn [nth]. by rewrite IH.
Qed.

Lemma cumDemand_unique (cs : list curve) (c : curve) :
  NoDup (map id cs) -> c ∈ cs ->
  cumDemand (buildDemandByCurve cs) cs (id c) horizon = Rsum (curveDemandArray c).
Proof.
  intros Hnd Hin. unfold cumDemand.
  rewrite <- (Rsum_nth (curveDemandArray c)), curveDemandArray_length.
  apply Rsum_map_ext. intros m _.
  rewrite demandOfKey_unique by assumption.
  unfold demandAt. by rewrite buildDemand_lookup.
Qed.

(** ** Step 5: the end-of-day drain *)

Lemma drainCurve_spec (s : sim) (c : curve) :
  let x := Rsum (map demand (queuesByCurve s !!! id c)) in
  queuesByCurve (drainCurve s c) = queuesByCurve s
  /\ utilizationByCurve (drainCurve s c) = utilizationByCurve s
  /\ totalUtilization (drainCurve s c) = totalUtilization s
  /\ demandValues (drainCurve s c) = demandValues s
  /\ totalShedDemand (drainCurve s c) = totalShedDemand s + x
  /\ shedByCurve (drainCurve s c) !!! id c = shedByCurve s !!! id c + x
  /\ (forall k, k <> id c -> shedByCurve (drainCurve s c) !!! k = shedByCurve s !!! k).
Proof.
  unfold drainCurve. generalize (queuesByCurve s !!! id c) as q.
  intros q. revert s. induction q as [|it q IH]; intros s.
  - cbn. repeat split; lra.
  - cbn [fold_left map Rsum].
    match goal with |- context [fold_left ?f q ?s1] => specialize (IH s1) end.
    cbn [queuesByCurve utilizationByCurve shedByCurve totalUtilization
         totalShedDemand demandValues] in IH.
    destruct IH as (I1 & I2 & I3 & I4 & I5 & I6 & I7).
    repeat split; try assumption.
    + rewrite I5. lra.
    + rewrite I6, lookup_total_insert_eq. lra.
    + intros k Hk. rewrite I7 by assumption.
      by rewrite lookup_total_insert_ne by congruence.
Qed.

Lemma drainAll_spec (cs : list curve) (s : sim) :
  NoDup (map id cs) ->
  queuesByCurve (drainAll cs s) = queuesByCurve s
  /\ utilizationByCurve (drainAll cs s) = utilizationByCurve s
  /\ totalUtilization (drainAll cs s) = totalUtilization s
  /\ demandValues (drainAll cs s) = demandValues s
  /\ totalShedDemand (drainAll cs s)
     = totalShedDemand s
       + Rsum (map (fun c => Rsum (map demand (queuesByCurve s !!! id c))) cs)
  /\ (forall c, c ∈ cs ->
        shedByCurve (drainAll cs s) !!! id c
        = shedByCurve s !!! id c + Rsum (map demand (queuesByCurve s !!! id c)))
  /\ (forall k, k ∉ map id cs -> shedByCurve (drainAll cs s) !!! k = shedByCurve s !!! k).
Proof.
  unfold drainAll. revert s. induction cs as [|c cs IH]; intros s Hnd.
  - cbn. repeat split; try lra. intros c Hc. by apply elem_of_nil in Hc.
  - cbn [map] in Hnd. apply NoDup_cons in Hnd as [Hnotin Hnd].
    cbn [fold_left map Rsum].
    destruct (drainCurve_spec s c) as (D1 & D2 & D3 & D4 & D5 & D6 & D7).
    destruct (IH (drainCurve s c) Hnd) as (I1 & I2 & I3 & I4 & I5 & I6 & I7).
    repeat split; try congruence.
    + rewrite I5, D5, D1. lra.
    + intros c0 Hc0. apply elem_of_cons in Hc0 as [->|Hc0].
      * rewrite I7 by assumption. by rewrite D6.
      * rewrite I6 by assumption. rewrite D1, D7; [reflexivity|].
        intros Heq. apply Hnotin. rewrite <- Heq.
        by apply list_elem_of_In, in_map, list_elem_of_In.
    + intros k Hk. apply not_elem_of_cons in Hk as [Hne Hk].
      rewrite I7 by assumption. by apply D7.
Qed.

(** * Properties of the run *)

Section GaussianBounds.

Lemma gaussian_le_1 (x mean stdDev : R) : gaussian x mean stdDev <= 1.
Proof.
  unfold gaussian. cbn zeta.
  set (y := (x - mean) / stdDev).
  assert (Hy : 0 <= y ^ 2) by apply pow2_ge_0.
  apply Rle_trans with (exp 0); [|rewrite exp_0; lra].
  destruct (Rle_lt_or_eq_dec (- (1 / 2) * y ^ 2) 0) as [Hlt|Heq]; [lra| |].
  - left. by apply exp_increasing.
  - rewrite Heq. lra.
Qed.

Lemma gaussian_pos (x mean stdDev : R) : 0 < gaussian x mean stdDev.
Proof. unfold gaussian. apply exp_pos. Qed.

Lemma sqrt_2PI_gt_2 : 2 < sqrt (2 * PI).
Proof.
  pose proof PI2_1 as Hpi.
  replace 2 with (sqrt (2 * 2)) at 1 by (apply sqrt_square; lra).
  apply sqrt_lt_1; lra.
Qed.


Lemma generateGaussianDemand_nonneg (t p w : R) :
  0 <= t -> 0 < w ->
  Forall (fun x => 0 <= x) (generateGaussianDemand t p w).
Proof.
  intros Ht Hw. unfold generateGaussianDemand. cbn zeta.
  apply Forall_forall. intros x Hx.
  apply list_elem_of_In, in_map_iff in Hx as (m & <- & _).
  pose proof sqrt_2PI_gt_2 as Hs.
  assert (Hscale : 0 <= t / (w * 60 * sqrt (2 * PI))).
  { apply Rmult_le_pos; [assumption|]. left. apply Rinv_0_lt_compat. nra. }
  pose proof (gaussian_pos (INR m) (p * 60) (w * 60)) as Hg.
  nra.
Qed.


End GaussianBounds.

(** ** Conservation over the whole run *)

Lemma final_conservation (machines : R) (demandByCurve : gmap string (list R))
    (curves : list curve) (queueTimeout : Z) :
  NoDup (map id curves) ->
  let s := drainAll curves (stateAfter machines demandByCurve curves queueTimeout horizon) in
  (forall c, c ∈ curves ->
     servedOf s c + shedOf s c = cumDemand demandByCurve curves (id c) horizon)
  /\ totalUtilization s = Rsum (map (servedOf s) curves)
  /\ totalShedDemand s = Rsum (map (shedOf s) curves).
Proof.
  intros Hnd.
  pose proof (runInv_stateAfter machines demandByCurve curves queueTimeout horizon)
    as [Hq Hc Hu Hs Hl].
  set (s0 := stateAfter machines demandByCurve curves queueTimeout horizon) in *.
  destruct (drainAll_spec curves s0 Hnd) as (D1 & D2 & D3 & D4 & D5 & D6 & D7).
  cbn zeta. unfold servedOf, shedOf. split; [|split].
  - intros c Hin. rewrite D2, D6 by assumption. rewrite <- Hc. unfold inFlight. lra.
  - rewrite D3, D2.
    destruct (Hu (map id curves) Hnd) as [_ ->].
    + intros c Hin. by apply list_elem_of_In, in_map, list_elem_of_In.
    + by rewrite map_map.
  - rewrite D5, (Hs Hnd), <- Rsum_map_plus.
    apply Rsum_map_ext. intros c Hin. by rewrite D6.
Qed.

(** ** Curve steps in three situations *)

(** No capacity is left and the curve has demand to place: nothing is
    served. *)
Lemma processCurve_exhausted (demandByCurve : gmap string (list R)) (minute : nat)
    (s : sim) (v : minuteVars) (c : curve) (s' : sim) (v' : minuteVars) :
  queueOK (Z.of_nat minute) (queuesByCurve s !!! id c) ->
  availableCapacity v = 0 ->
  0 <= demandAt demandByCurve c minute ->
  processCurve demandByCurve minute (s, v) c = (s', v') ->
  availableCapacity v' = 0
  /\ actualUsage v' = actualUsage v
  /\ (forall k, utilizationByCurve s' !!! k = utilizationByCurve s !!! k).
Proof.
  intros Hok Hv Hd E. apply processCurve_spec in E; [|assumption].
  destruct E as (_ & Hu & _ & _ & _ & _ & Hcap & Hpos & Hused).
  specialize (Hused Hd ltac:(lra)).
  assert (Hzero : actualUsage v' - actualUsage v = 0) by lra.
  repeat split; try lra.
  intros k. rewrite Hu, Hzero. destruct (decide (k = id c)) as [->|Hne].
  - rewrite lookup_total_insert_eq. lra.
  - by rewrite lookup_total_insert_ne by congruence.
Qed.

Lemma processFold_exhausted (demandByCurve : gmap string (list R)) (minute : nat)
    (cs : list curve) (s : sim) (v : minuteVars) (s' : sim) (v' : minuteVars) :
  simOK (Z.of_nat minute) s ->
  availableCapacity v = 0 ->
  (forall c, c ∈ cs -> 0 <= demandAt demandByCurve c minute) ->
  fold_left (processCurve demandByCurve minute) cs (s, v) = (s', v') ->
  availableCapacity v' = 0
  /\ actualUsage v' = actualUsage v
  /\ (forall k, utilizationByCurve s' !!! k = utilizationByCurve s !!! k).
Proof.
  revert s v. induction cs as [|c cs IH]; intros s v Hok Hv Hd; cbn [fold_left].
  - intros [= <- <-]. by repeat split.
  - destruct (processCurve demandByCurve minute (s, v) c) as [s1 v1] eqn:E1.
    pose proof E1 as E2.
    apply processCurve_exhausted in E1;
      [|apply Hok|assumption|apply Hd, list_elem_of_here].
    destruct E1 as (A1 & A2 & A3).
    apply processCurve_spec in E2; [|apply Hok].
    destruct E2 as ((q1 & Hq & Hq1 & _) & _).
    assert (Hok1 : simOK (Z.of_nat minute) s1).
    { intros k. rewrite Hq. destruct (decide (k = id c)) as [->|Hne].
      - by rewrite lookup_total_insert_eq.
      - rewrite lookup_total_insert_ne by congruence. apply Hok. }
    intros Hfold. apply IH in Hfold; try assumption.
    + destruct Hfold as (B1 & B2 & B3). repeat split; try congruence.
    + intros c0 Hc0. by apply Hd, list_elem_of_further.
Qed.


(** The curve's demand is at least the capacity: the curve takes all of
    it, and the queue loop has nothing to give. *)
Lemma processCurve_saturates (demandByCurve : gmap string (list R)) (minute : nat)
    (s : sim) (v : minuteVars) (c : curve) (s' : sim) (v' : minuteVars) :
  queueOK (Z.of_nat minute) (queuesByCurve s !!! id c) ->
  availableCapacity v <= demandAt demandByCurve c minute ->
  processCurve demandByCurve minute (s, v) c = (s', v') ->
  let d := demandAt demandByCurve c minute in
  availableCapacity v' = 0
  /\ actualUsage v' = actualUsage v + availableCapacity v
  /\ utilizationByCurve s'
     = <[id c := (utilizationByCurve s !!! id c) + (0 + availableCapacity v)]>
         (utilizationByCurve s)
  /\ queuesByCurve s'
     = <[id c := filter (fun it => 0 < demand it)
                   (pushExcess minute c (d - availableCapacity v)
                      (queuesByCurve s !!! id c))]> (queuesByCurve s).
Proof.
  intros Hok Hd. rewrite processCurve_sorted by assumption. cbn zeta.
  rewrite (Rmin_right _ _ Hd).
  rewrite serveQueue_no_capacity by (cbn; lra).
  cbn [fst snd]. intros [= <- <-]. cbn. repeat split. lra.
Qed.

(** ** Capacity within a minute *)

Section Capacity.

Variables (machines : R) (demandByCurve : gmap string (list R))
          (curves : list curve) (queueTimeout : Z).

(** The state in which the allocation of minute [n] starts. *)
Lemma expired_state_OK (n : nat) (s : sim) :
  runInv demandByCurve curves n s ->
  simOK (Z.of_nat n) (expireAll n queueTimeout curves s).1.
Proof.
  intros [Hq _ _ _ _].
  destruct (expireAll n queueTimeout curves s) as [s1 shedNow] eqn:E1.
  unfold expireAll in E1. apply expireFold_spec in E1. destruct E1 as (X1 & _).
  intros k. cbn [fst]. rewrite X1.
  apply (queueOK_weaken (Z.of_nat n - 1)); [lia|].
  case_decide; [apply queueOK_keepLive|]; apply Hq.
Qed.




End Capacity.

(** ** Runs without capacity *)

Section ZeroCapacity.

Variables (demandByCurve : gmap string (list R))
          (curves : list curve) (queueTimeout : Z).


End ZeroCapacity.

(** ** The curve at the head of the priority order *)

Section HeadOfLine.

Variables (machines : R) (demandByCurve : gmap string (list R))
          (curves : list curve) (queueTimeout : Z)
          (c0 : curve) (rest : list curve).

Hypothesis distinct_ids : NoDup (map id curves).
Hypothesis head_of_line : sortBy priority curves = c0 :: rest.

Lemma head_not_in_rest : id c0 ∉ map id rest.
Proof.
  assert (Hp : map id (c0 :: rest) ≡ₚ map id curves).
  { rewrite <- head_of_line. apply Permutation_map, sortBy_perm. }
  rewrite <- Hp in distinct_ids. cbn [map] in distinct_ids.
  by apply NoDup_cons in distinct_ids as [? _].
Qed.

Lemma rest_in_curves (c : curve) : c ∈ rest -> c ∈ curves.
Proof.
  intros Hc. apply (sorted_curves_elem curves). rewrite head_of_line.
  by apply list_elem_of_further.
Qed.

Lemma head_in_curves : c0 ∈ curves.
Proof.
  apply (sorted_curves_elem curves). rewrite head_of_line. apply list_elem_of_here.
Qed.


(** When the head curve's demand is at least the capacity at every
    minute so far, it has been served the whole capacity of every
    minute and nobody else has been served anything. *)
Lemma saturating_head_takes_all (n : nat) :
  (forall m, (m < n)%nat -> machines <= demandAt demandByCurve c0 m) ->
  (forall c m, c ∈ rest -> (m < n)%nat -> 0 <= demandAt demandByCurve c m) ->
  let s := stateAfter machines demandByCurve curves queueTimeout n in
  utilizationByCurve s !!! id c0 = INR n * machines
  /\ (forall k, k <> id c0 -> utilizationByCurve s !!! k = 0).
Proof.
  induction n as [|n IH]; intros Hd Hr.
  - cbn zeta. unfold stateAfter. cbn [seq fold_left].
    destruct (initSim_spec curves) as (_ & H2 & _). split.
    + rewrite H2. cbn. lra.
    + intros k _. apply H2.
  - cbn zeta. rewrite stateAfter_S.
    destruct IH as [IH0 IHr];
      [intros m Hm; apply Hd; lia|intros c m Hc Hm; apply Hr; [assumption|lia]|].
    pose proof (runInv_stateAfter machines demandByCurve curves queueTimeout n) as Hinv.
    set (s := stateAfter machines demandByCurve curves queueTimeout n) in *.
    pose proof (expired_state_OK demandByCurve curves queueTimeout n s Hinv) as Hok1.
    unfold stepMinute.
    destruct (expireAll n queueTimeout curves s) as [s1 shedNow] eqn:E1.
    unfold expireAll in E1. apply expireFold_spec in E1.
    destruct E1 as (_ & _ & X3 & _).
    cbn [fst] in Hok1.
    destruct (allocate machines demandByCurve curves n s1) as [s2 v] eqn:E2.
    unfold allocate in E2. rewrite head_of_line in E2. cbn [fold_left] in E2.
    destruct (processCurve demandByCurve n (s1, MinuteVars machines 0) c0)
      as [s1' v1] eqn:E0.
    apply processCurve_saturates in E0; [|apply Hok1|cbn; apply Hd; lia].
    cbn [availableCapacity actualUsage] in E0. destruct E0 as (S1 & S2 & S3 & S4).
    apply processFold_exhausted in E2.
    + destruct E2 as (_ & _ & A3). cbn [utilizationByCurve]. split.
      * rewrite A3, S3, lookup_total_insert_eq, X3, IH0, S_INR. lra.
      * intros k Hk. rewrite A3, S3, lookup_total_insert_ne by congruence.
        rewrite X3. by apply IHr.
    + intros k. rewrite S4. destruct (decide (k = id c0)) as [->|Hne].
      * rewrite lookup_total_insert_eq.
        destruct (pushExcess_OK n c0
                    (demandAt demandByCurve c0 n - machines)
                    _ (Hok1 (id c0))) as [Hs Hall].
        split; [by apply keySorted_filter|].
        apply Forall_forall. intros it Hit.
        apply list_elem_of_filter in Hit as [_ Hit].
        rewrite Forall_forall in Hall. by apply Hall.
      * rewrite lookup_total_insert_ne by congruence. apply Hok1.
    + assumption.
    + intros c Hc. apply Hr; [assumption|lia].
Qed.

(** The queue of a saturating head curve from one minute to the
    next: the live items, then the excess of the minute. *)
Lemma saturating_head_queue (n : nat) :
  machines <= demandAt demandByCurve c0 n ->
  let s := stateAfter machines demandByCurve curves queueTimeout n in
  queuesByCurve (stateAfter machines demandByCurve curves queueTimeout (S n)) !!! id c0
  = filter (fun it => 0 < demand it)
      (pushExcess n c0 (demandAt demandByCurve c0 n - machines)
         (keepLive n queueTimeout (queuesByCurve s !!! id c0))).
Proof.
  intros Hd. cbn zeta. rewrite stateAfter_S.
  pose proof (runInv_stateAfter machines demandByCurve curves queueTimeout n) as Hinv.
  set (s := stateAfter machines demandByCurve curves queueTimeout n) in *.
  pose proof (expired_state_OK demandByCurve curves queueTimeout n s Hinv) as Hok1.
  unfold stepMinute.
  destruct (expireAll n queueTimeout curves s) as [s1 shedNow] eqn:E1.
  unfold expireAll in E1. apply expireFold_spec in E1.
  destruct E1 as (X1 & _).
  cbn [fst] in Hok1.
  destruct (allocate machines demandByCurve curves n s1) as [s2 v] eqn:E2.
  unfold allocate in E2. rewrite head_of_line in E2. cbn [fold_left] in E2.
  destruct (processCurve demandByCurve n (s1, MinuteVars machines 0) c0)
    as [s1' v1] eqn:E0.
  apply processCurve_saturates in E0; [|apply Hok1|cbn; exact Hd].
  cbn [availableCapacity actualUsage] in E0. destruct E0 as (S1 & S2 & S3 & S4).
  apply processFold_spec in E2.
  - destruct E2 as (_ & _ & _ & _ & _ & _ & _ & _ & F9 & _).
    destruct (F9 (id c0) head_not_in_rest) as [F9q _].
    cbn [queuesByCurve]. rewrite F9q, S4, lookup_total_insert_eq, X1.
    rewrite decide_True; [reflexivity|].
    apply list_elem_of_In, in_map, list_elem_of_In, head_in_curves.
  - intros k. rewrite S4. destruct (decide (k = id c0)) as [->|Hne].
    + rewrite lookup_total_insert_eq.
      destruct (pushExcess_OK n c0
                  (demandAt demandByCurve c0 n - machines)
                  _ (Hok1 (id c0))) as [Hs Hall].
      split; [by apply keySorted_filter|].
      apply Forall_forall. intros it Hit.
      apply list_elem_of_filter in Hit as [_ Hit].
      rewrite Forall_forall in Hall. by apply Hall.
    + rewrite lookup_total_insert_ne by congruence. apply Hok1.
Qed.

End HeadOfLine.

(** ** Reading the generated arrays *)

Lemma demandAt_build (curves : list curve) (c : curve) (m : nat) :
  NoDup (map id curves) -> c ∈ curves ->
  demandAt (buildDemandByCurve curves) c m = nth m (curveDemandArray c) 0.
Proof. intros Hnd Hin. unfold demandAt. by rewrite buildDemand_lookup. Qed.

Lemma nth_Forall (P : R -> Prop) (l : list R) (m : nat) :
  Forall P l -> (m < length l)%nat -> P (nth m l 0).
Proof.
  intros Hall Hm. rewrite Forall_forall in Hall.
  apply Hall, list_elem_of_In, nth_In, Hm.
Qed.

Lemma generateLinearDemand_all (t : R) :
  Forall (fun x => x = t / 1440) (generateLinearDemand t).
Proof.
  unfold generateLinearDemand. cbn zeta. apply Forall_forall. intros x Hx.
  by apply list_elem_of_In, in_map_iff in Hx as (m & <- & _).
Qed.

Lemma linear_demandAt (curves : list curve) (c : curve) (m : nat) :
  NoDup (map id curves) -> c ∈ curves -> type c = "linear"%string ->
  (m < horizon)%nat ->
  demandAt (buildDemandByCurve curves) c m = totalDemand c / 1440.
Proof.
  intros Hnd Hin Hlin Hm. rewrite demandAt_build by assumption.
  unfold curveDemandArray. rewrite decide_True by assumption.
  apply (nth_Forall (fun x => x = totalDemand c / 1440)).
  - apply generateLinearDemand_all.
  - by rewrite generateLinearDemand_length.
Qed.

Lemma curveDemandArray_nonneg (c : curve) :
  validSource c -> Forall (fun x => 0 <= x) (curveDemandArray c).
Proof.
  intros [Ht Hw]. unfold curveDemandArray. case_decide as Hty.
  - eapply Forall_impl; [apply generateLinearDemand_all|].
    intros x ->. lra.
  - apply generateGaussianDemand_nonneg; auto.
Qed.

Lemma demandAt_nonneg (curves : list curve) (c : curve) (m : nat) :
  NoDup (map id curves) -> c ∈ curves -> validSource c ->
  0 <= demandAt (buildDemandByCurve curves) c m.
Proof.
  intros Hnd Hin Hv. rewrite demandAt_build by assumption.
  destruct (Nat.lt_ge_cases m (length (curveDemandArray c))) as [Hm|Hm].
  - by apply (nth_Forall (fun x => 0 <= x)); [apply curveDemandArray_nonneg|].
  - rewrite nth_overflow by assumption. lra.
Qed.

(** ** The head of the priority order *)





(** ** Two runs that differ in the timeout *)














Section TwoTimeouts.

Variables (machines : R) (demandByCurve : gmap string (list R))
          (curves : list curve) (t1 t2 : Z).

Hypothesis timeouts_ordered : (t1 <= t2)%Z.


End TwoTimeouts.

End Allocation.

(** * Fair sharing in the second copy of the module *)

Section CohortSharing.

Import CohortSimulationCore.

Lemma setDemandAt_length (qs : gmap string (list item)) (h : handle) (d : R) (k : string) :
  length (setDemandAt qs h d !!! k) = length (qs !!! k).
Proof.
  unfold setDemandAt. destruct (decide (k = h.1)) as [->|Hne].
  - by rewrite lookup_total_insert_eq, length_insert.
  - by rewrite lookup_total_insert_ne by congruence.
Qed.

Lemma itemAt_setDemandAt_eq (qs : gmap string (list item)) (h : handle) (d : R) :
  inRange qs h ->
  itemAt (setDemandAt qs h d) h
  = Item (arrivalTime (itemAt qs h)) d (curveId (itemAt qs h)) (itemPriority (itemAt qs h)).
Proof.
  intros Hr. unfold itemAt at 1. unfold setDemandAt.
  by rewrite lookup_total_insert_eq, list_lookup_total_insert_eq by exact Hr.
Qed.

Lemma itemAt_setDemandAt_same (qs : gmap string (list item)) (h : handle) (d : R) :
  inRange qs h ->
  demand (itemAt (setDemandAt qs h d) h) = d
  /\ arrivalTime (itemAt (setDemandAt qs h d) h) = arrivalTime (itemAt qs h)
  /\ curveId (itemAt (setDemandAt qs h d) h) = curveId (itemAt qs h).
Proof. intros Hr. by rewrite itemAt_setDemandAt_eq. Qed.

Lemma itemAt_setDemandAt_other (qs : gmap string (list item)) (h h' : handle) (d : R) :
  h' <> h -> itemAt (setDemandAt qs h d) h' = itemAt qs h'.
Proof.
  intros Hne. unfold itemAt at 1, setDemandAt.
  destruct (decide (h'.1 = h.1)) as [Heq|Hk].
  - rewrite Heq, lookup_total_insert_eq.
    rewrite list_lookup_total_insert_ne.
    + unfold itemAt. by rewrite Heq.
    + intros Hi. apply Hne. destruct h, h'. cbn in *. congruence.
  - by rewrite lookup_total_insert_ne by congruence.
Qed.


(** The proportional branch, reference by reference. *)
Lemma serveShare_fold (total : R) (cohort : list handle) (a : alloc) :
  NoDup cohort ->
  (forall h, h ∈ cohort -> inRange (queues a) h) ->
  let a' := fold_left (serveShare total) cohort a in
  available a' = available a
  /\ usage a' = usage a
                + Rsum (map (fun h => available a * (demand (itemAt (queues a) h) / total))
                            cohort)
  /\ (forall h, h ∈ cohort ->
        demand (itemAt (queues a') h)
        = demand (itemAt (queues a) h)
          - available a * (demand (itemAt (queues a) h) / total))
  /\ (forall h, h ∉ cohort -> itemAt (queues a') h = itemAt (queues a) h)
  /\ (forall k, length (queues a' !!! k) = length (queues a !!! k)).
Proof.
  revert a. induction cohort as [|h0 cohort IH]; intros a Hnd Hr.
  - cbn. repeat split; try lra. intros h Hh. by apply elem_of_nil in Hh.
  - apply NoDup_cons in Hnd as [Hnotin Hnd]. cbn zeta. cbn [fold_left map Rsum].
    set (a1 := serveShare total a h0).
    assert (Hr0 : inRange (queues a) h0) by apply Hr, list_elem_of_here.
    assert (Hq1 : forall h, h <> h0 -> itemAt (queues a1) h = itemAt (queues a) h).
    { intros h Hne. unfold a1, serveShare. cbn [queues].
      by apply itemAt_setDemandAt_other. }
    assert (Hl1 : forall k, length (queues a1 !!! k) = length (queues a !!! k)).
    { intros k. unfold a1, serveShare. cbn [queues]. apply setDemandAt_length. }
    destruct (IH a1 Hnd) as (I1 & I2 & I3 & I4 & I5).
    { intros h Hh. unfold inRange. rewrite Hl1. apply Hr. by apply list_elem_of_further. }
    change (available a1) with (available a) in *.
    repeat split.
    + exact I1.
    + rewrite I2. unfold a1 at 1, serveShare. cbn [usage].
      rewrite (Rsum_map_ext
                 (fun h => available a * (demand (itemAt (queues a1) h) / total))
                 (fun h => available a * (demand (itemAt (queues a) h) / total))).
      * lra.
      * intros h Hh. rewrite Hq1; [reflexivity|]. intros ->. contradiction.
    + intros h Hh. apply elem_of_cons in Hh as [->|Hh].
      * rewrite I4 by assumption. unfold a1, serveShare. cbn [queues].
        by destruct (itemAt_setDemandAt_same (queues a) h0
                       (demand (itemAt (queues a) h0)
                        - available a * (demand (itemAt (queues a) h0) / total)) Hr0)
          as (-> & _).
      * rewrite I3 by assumption. rewrite Hq1; [reflexivity|].
        intros ->. contradiction.
    + intros h Hh. apply not_elem_of_cons in Hh as [Hne Hh].
      rewrite I4 by assumption. by apply Hq1.
    + intros k. by rewrite I5.
Qed.

(** The branch that serves the cohort fully, reference by
    reference. *)
Lemma serveFully_fold (cohort : list handle) (a : alloc) :
  NoDup cohort ->
  (forall h, h ∈ cohort -> inRange (queues a) h) ->
  let a' := fold_left serveFully cohort a in
  let total := Rsum (map (fun h => demand (itemAt (queues a) h)) cohort) in
  available a' = available a - total
  /\ usage a' = usage a + total
  /\ (forall h, h ∈ cohort -> demand (itemAt (queues a') h) = 0)
  /\ (forall h, h ∉ cohort -> itemAt (queues a') h = itemAt (queues a) h)
  /\ (forall k, length (queues a' !!! k) = length (queues a !!! k)).
Proof.
  revert a. induction cohort as [|h0 cohort IH]; intros a Hnd Hr.
  - cbn. repeat split; try lra. intros h Hh. by apply elem_of_nil in Hh.
  - apply NoDup_cons in Hnd as [Hnotin Hnd]. cbn zeta. cbn [fold_left map Rsum].
    set (a1 := serveFully a h0).
    assert (Hr0 : inRange (queues a) h0) by apply Hr, list_elem_of_here.
    assert (Hq1 : forall h, h <> h0 -> itemAt (queues a1) h = itemAt (queues a) h).
    { intros h Hne. unfold a1, serveFully. cbn [queues].
      by apply itemAt_setDemandAt_other. }
    assert (Hl1 : forall k, length (queues a1 !!! k) = length (queues a !!! k)).
    { intros k. unfold a1, serveFully. cbn [queues]. apply setDemandAt_length. }
    destruct (IH a1 Hnd) as (I1 & I2 & I3 & I4 & I5).
    { intros h Hh. unfold inRange. rewrite Hl1. apply Hr. by apply list_elem_of_further. }
    assert (Hsum : Rsum (map (fun h => demand (itemAt (queues a1) h)) cohort)
                   = Rsum (map (fun h => demand (itemAt (queues a) h)) cohort)).
    { apply Rsum_map_ext. intros h Hh. rewrite Hq1; [reflexivity|].
      intros ->. contradiction. }
    rewrite Hsum in I1, I2.
    repeat split.
    + rewrite I1. unfold a1, serveFully. cbn [available]. lra.
    + rewrite I2. unfold a1, serveFully. cbn [usage]. lra.
    + intros h Hh. apply elem_of_cons in Hh as [->|Hh].
      * rewrite I4 by assumption. unfold a1, serveFully. cbn [queues].
        by destruct (itemAt_setDemandAt_same (queues a) h0 0 Hr0) as (-> & _).
      * by apply I3.
    + intros h Hh. apply not_elem_of_cons in Hh as [Hne Hh].
      rewrite I4 by assumption. by apply Hq1.
    + intros k. by rewrite I5.
Qed.


End CohortSharing.
(** * Cohorts and the order of service in the second copy *)

Section Cohorts.

Import CohortSimulationCore.

Context {A : Type} (key : A -> Z).

Lemma insertBy_keySorted (x : A) (l : list A) :
  keySorted key l -> keySorted key (insertBy key x l).
Proof.
  induction 1 as [|y l Hall Hs IH]; cbn [insertBy].
  - constructor; constructor.
  - destruct (Z.leb_spec (key x) (key y)) as [Hle|Hlt].
    + constructor; [|by constructor].
      constructor; [assumption|].
      eapply Forall_impl; [exact Hall|]. cbn. intros z Hz. lia.
    + constructor; [|assumption].
      apply Forall_forall. intros z Hz.
      apply (elem_of_Permutation_proper _ _ _ (insertBy_perm key x l)) in Hz.
      apply elem_of_cons in Hz as [->|Hz]; [lia|].
      rewrite Forall_forall in Hall. by apply Hall.
Qed.

(** The sort returns its input in key order. *)
Lemma sortBy_keySorted (l : list A) : keySorted key (sortBy key l).
Proof.
  induction l as [|x l IH]; [constructor|].
  cbn [sortBy fold_right]. by apply insertBy_keySorted.
Qed.

(** The cohorts are a partition of the list into consecutive
    pieces. *)
Lemma cohorts_concat (l : list A) : concat (cohorts key l) = l.
Proof.
  induction l as [|x l IH]; [reflexivity|].
  cbn [cohorts]. destruct (cohorts key l) as [|[|y g] gs].
  - cbn in *. by subst.
  - cbn in *. by subst.
  - destruct (key x =? key y)%Z; cbn in *; by subst.
Qed.

Lemma cohorts_nonempty (l : list A) : Forall (fun g => g <> []) (cohorts key l).
Proof.
  induction l as [|x l IH]; [constructor|].
  cbn [cohorts]. destruct (cohorts key l) as [|[|y g] gs].
  - by repeat constructor.
  - inversion IH; subst. by constructor.
  - inversion IH; subst. destruct (key x =? key y)%Z; by repeat constructor.
Qed.

(** Within a cohort all keys are equal. *)
Lemma cohorts_same_key (l : list A) :
  Forall (fun g => forall x y, x ∈ g -> y ∈ g -> key x = key y) (cohorts key l).
Proof.
  induction l as [|x l IH]; [constructor|].
  cbn [cohorts]. destruct (cohorts key l) as [|[|y g] gs].
  - constructor; [|constructor]. intros a b Ha Hb.
    apply list_elem_of_singleton in Ha, Hb. by subst.
  - inversion IH; subst. constructor; [|assumption]. intros a b Ha Hb.
    apply list_elem_of_singleton in Ha, Hb. by subst.
  - inversion IH as [|? ? Hg Hgs]; subst.
    destruct (Z.eqb_spec (key x) (key y)) as [Heq|Hne].
    + constructor; [|assumption]. intros a b Ha Hb.
      assert (Hk : forall z, z ∈ x :: y :: g -> key z = key y).
      { intros z Hz. apply elem_of_cons in Hz as [->|Hz]; [assumption|].
        apply Hg; [assumption | apply list_elem_of_here]. }
      by rewrite (Hk a Ha), (Hk b Hb).
    + constructor; [|by constructor]. intros a b Ha Hb.
      apply list_elem_of_singleton in Ha, Hb. by subst.
Qed.

Lemma cohorts_ascending (l : list A) :
  keySorted key l -> cohortsAscending key (cohorts key l).
Proof.
  induction 1 as [|x l Hall Hs IH]; [constructor|].
  pose proof (cohorts_concat l) as Hcat.
  pose proof (cohorts_same_key l) as Hsame.
  pose proof (cohorts_nonempty l) as Hne.
  cbn [cohorts]. destruct (cohorts key l) as [|[|y g] gs].
  - constructor; [|constructor]. intros a b _ Hb. cbn in Hb.
    by apply elem_of_nil in Hb.
  - inversion Hne as [|? ? Hnil _]; subst. by exfalso.
  - inversion IH as [|? ? Hlt Hasc]; subst.
    inversion Hsame as [|? ? Hg _]; subst.
    assert (Hy : y ∈ concat ((y :: g) :: gs)) by (cbn; apply list_elem_of_here).
    rewrite Forall_forall in Hall.
    destruct (Z.eqb_spec (key x) (key y)) as [Heq|Hneq].
    + constructor; [|assumption]. intros a b Ha Hb.
      apply elem_of_cons in Ha as [->|Ha].
      * rewrite Heq. apply Hlt; [apply list_elem_of_here | assumption].
      * by apply Hlt.
    + assert (Hxy : (key x < key y)%Z).
      { specialize (Hall y Hy). lia. }
      constructor; [|by constructor]. intros a b Ha Hb.
      apply list_elem_of_singleton in Ha as ->.
      cbn [concat] in Hb. apply elem_of_app in Hb as [Hb|Hb].
      * rewrite (Hg b y Hb (list_elem_of_here _ _)). exact Hxy.
      * specialize (Hlt y b (list_elem_of_here _ _) Hb). lia.
Qed.

Lemma earlier_key_earlier_cohort (cs : list (list A)) (x y : A) :
  cohortsAscending key cs ->
  Forall (fun g => forall a b, a ∈ g -> b ∈ g -> key a = key b) cs ->
  x ∈ concat cs -> y ∈ concat cs -> (key x < key y)%Z ->
  cohortBefore cs x y.
Proof.
  induction 1 as [|g gs Hlt Hasc IH]; intros Hsame Hx Hy Hxy.
  - cbn in Hx. by apply elem_of_nil in Hx.
  - inversion Hsame as [|? ? Hg Hgs]; subst.
    cbn [concat] in Hx, Hy.
    apply elem_of_app in Hx as [Hx|Hx]; apply elem_of_app in Hy as [Hy|Hy].
    + specialize (Hg x y Hx Hy). lia.
    + exists [], g, gs. by repeat split.
    + specialize (Hlt y x Hy Hx). lia.
    + destruct (IH Hgs Hx Hy Hxy) as (pre & g' & post & -> & Hxg & Hyp).
      exists (g :: pre), g', post. by repeat split.
Qed.

End Cohorts.
Section OldestFirst.

Import CohortSimulationCore.

(** What serving one cohort leaves alone, and what it means when
    capacity is left afterwards. *)
Lemma serveCohort_spec (a : alloc) (cohort : list handle) :
  NoDup cohort ->
  (forall h, h ∈ cohort -> inRange (queues a) h) ->
  let a' := serveCohort a cohort in
  (forall h, h ∉ cohort -> itemAt (queues a') h = itemAt (queues a) h)
  /\ (forall k, length (queues a' !!! k) = length (queues a !!! k))
  /\ (0 < available a' -> forall h, h ∈ cohort -> demand (itemAt (queues a') h) = 0).
Proof.
  intros Hnd Hr. cbn zeta. unfold serveCohort.
  case_decide as Hfit.
  - destruct (serveFully_fold cohort a Hnd Hr) as (_ & _ & F3 & F4 & F5).
    by repeat split.
  - destruct (serveShare_fold (cohortDemand (queues a) cohort) cohort a Hnd Hr)
      as (_ & _ & _ & S4 & S5).
    cbn [queues available]. repeat split; try assumption.
    intros Hpos. lra.
Qed.

Lemma serveCohorts_stop (cs : list (list handle)) (a : alloc) :
  available a <= 0 -> serveCohorts cs a = a.
Proof.
  intros Hle. destruct cs as [|c cs]; [reflexivity|].
  cbn [serveCohorts]. by rewrite decide_False by lra.
Qed.

(** The loop touches only the items its cohorts refer to. *)
Lemma serveCohorts_frame (cs : list (list handle)) (a : alloc) :
  NoDup (concat cs) ->
  (forall h, h ∈ concat cs -> inRange (queues a) h) ->
  (forall h, h ∉ concat cs ->
     itemAt (queues (serveCohorts cs a)) h = itemAt (queues a) h)
  /\ (forall k, length (queues (serveCohorts cs a) !!! k) = length (queues a !!! k)).
Proof.
  revert a. induction cs as [|c cs IH]; intros a Hnd Hr; [by split|].
  cbn [concat] in Hnd, Hr. apply NoDup_app in Hnd as (Hc & Hdisj & Hcs).
  cbn [serveCohorts]. case_decide as Hpos; [|by split].
  destruct (serveCohort_spec a c Hc) as (S1 & S2 & _).
  { intros h Hh. apply Hr, elem_of_app. by left. }
  destruct (IH (serveCohort a c) Hcs) as (I1 & I2).
  { intros h Hh. unfold inRange. rewrite S2. apply Hr, elem_of_app. by right. }
  split.
  - intros h Hh. cbn [concat] in Hh. apply not_elem_of_app in Hh as [Hh1 Hh2].
    rewrite I1 by assumption. by apply S1.
  - intros k. by rewrite I2, S2.
Qed.

(** First in, first out across cohorts: when an item has been served
    anything, every item of every cohort before its own has been
    served in full. *)
Lemma serveCohorts_oldest_first (cs : list (list handle)) (a : alloc) (x y : handle) :
  NoDup (concat cs) ->
  (forall h, h ∈ concat cs -> inRange (queues a) h) ->
  cohortBefore cs x y ->
  itemAt (queues (serveCohorts cs a)) y <> itemAt (queues a) y ->
  demand (itemAt (queues (serveCohorts cs a)) x) = 0.
Proof.
  revert a. induction cs as [|c cs IH]; intros a Hnd Hr Hbefore Hy.
  - destruct Hbefore as (pre & g & post & Heq & _). by destruct pre.
  - cbn [concat] in Hnd, Hr. apply NoDup_app in Hnd as (Hc & Hdisj & Hcs).
    cbn [serveCohorts] in *. case_decide as Hpos; [|by exfalso].
    destruct (serveCohort_spec a c Hc) as (S1 & S2 & S3).
    { intros h Hh. apply Hr, elem_of_app. by left. }
    assert (Hr1 : forall h, h ∈ concat cs -> inRange (queues (serveCohort a c)) h).
    { intros h Hh. unfold inRange. rewrite S2. apply Hr, elem_of_app. by right. }
    destruct (serveCohorts_frame cs (serveCohort a c) Hcs Hr1) as (F1 & _).
    destruct Hbefore as (pre & g & post & Heq & Hx & Hypost).
    destruct pre as [|c' pre]; cbn [app] in Heq; injection Heq as -> ->.
    + assert (Hyc : y ∉ g).
      { intros Hyg. by apply (Hdisj y). }
      assert (Hxc : x ∉ concat post).
      { intros Hxp. by apply (Hdisj x). }
      rewrite F1 by assumption.
      apply S3; [|assumption].
      destruct (decide (0 < available (serveCohort a g))) as [|Hstop]; [assumption|].
      exfalso. apply Hy.
      rewrite serveCohorts_stop by lra. by apply S1.
    + apply IH; try assumption.
      * by exists pre, g, post.
      * intros Heq. apply Hy. rewrite Heq. apply S1.
        intros Hyc. apply (Hdisj y Hyc).
        rewrite concat_app. apply elem_of_app. right.
        cbn [concat]. apply elem_of_app. by right.
Qed.

(** The references of a group with distinct ids are distinct and point
    into their queues. *)
Lemma combinedQueue_elem (qs : gmap string (list item)) (group : list curve) (h : handle) :
  h ∈ combinedQueue qs group <->
  (exists c, c ∈ group /\ h.1 = id c) /\ inRange qs h.
Proof.
  unfold combinedQueue, inRange. rewrite list_elem_of_In, in_flat_map. split.
  - intros (c & Hc & Hin). apply in_map_iff in Hin as (i & <- & Hi).
    apply in_seq in Hi. cbn. split; [|lia].
    exists c. split; [by apply list_elem_of_In | reflexivity].
  - intros [(c & Hc & Hid) Hr]. exists c. split; [by apply list_elem_of_In|].
    apply in_map_iff. exists h.2. split.
    + destruct h. cbn in *. by subst.
    + apply in_seq. rewrite <- Hid. lia.
Qed.

Lemma combinedQueue_NoDup (qs : gmap string (list item)) (group : list curve) :
  NoDup (map id group) -> NoDup (combinedQueue qs group).
Proof.
  unfold combinedQueue. induction group as [|c group IH]; intros Hnd; [constructor|].
  cbn [map] in Hnd. apply NoDup_cons in Hnd as [Hnotin Hnd].
  cbn [flat_map]. apply NoDup_app. repeat split.
  - apply NoDup_fmap_2; [|apply NoDup_seq]. intros i j. congruence.
  - intros h Hh Hh'.
    apply list_elem_of_In, in_map_iff in Hh as (i & <- & _).
    apply combinedQueue_elem in Hh' as [(c' & Hc' & Hid) _]. cbn in Hid.
    apply Hnotin. rewrite Hid. by apply list_elem_of_In, in_map, list_elem_of_In.
  - by apply IH.
Qed.

(** X27 (the second copy, one priority group).  Oldest first within a
    priority group of the second copy: of two
    queued items of the group, the one that arrived later is served
    only when the one that arrived earlier has been served in full. *)
Lemma group_served_oldest_first (qs : gmap string (list item)) (group : list curve)
    (a0 : alloc) (x y : handle) :
  NoDup (map id group) ->
  queues a0 = qs ->
  let arrival := fun h => arrivalTime (itemAt qs h) in
  let a' := serveCohorts (cohorts arrival (sortBy arrival (combinedQueue qs group))) a0 in
  x ∈ combinedQueue qs group ->
  y ∈ combinedQueue qs group ->
  (arrival x < arrival y)%Z ->
  itemAt (queues a') y <> itemAt qs y ->
  demand (itemAt (queues a') x) = 0.
Proof.
  intros Hnd Hq arrival a' Hx Hy Hlt Hserved. subst a' qs.
  set (sorted := sortBy arrival (combinedQueue (queues a0) group)) in *.
  assert (Hperm : sorted ≡ₚ combinedQueue (queues a0) group) by apply sortBy_perm.
  assert (Hcat : concat (cohorts arrival sorted) = sorted) by apply cohorts_concat.
  apply serveCohorts_oldest_first with (y := y); try assumption.
  - rewrite Hcat, Hperm. by apply combinedQueue_NoDup.
  - intros h Hh. rewrite Hcat, Hperm in Hh.
    by apply combinedQueue_elem in Hh as [_ ?].
  - apply (earlier_key_earlier_cohort arrival).
    + apply cohorts_ascending, sortBy_keySorted.
    + apply cohorts_same_key.
    + by rewrite Hcat, Hperm.
    + by rewrite Hcat, Hperm.
    + exact Hlt.
Qed.

End OldestFirst.

(** * Conservation *)

(** Served plus shed is the generated demand, source by source. *)
Lemma served_plus_shed (machines : R) (curves : list curve) (queueTimeout : Z) (c : curve) :
  NoDup (map id curves) -> c ∈ curves ->
  let s := SimulationCore.finalState machines curves queueTimeout in
  servedOf s c + shedOf s c = Rsum (curveDemandArray c).
Proof.
  intros Hnd Hin s.
  destruct (final_conservation machines (buildDemandByCurve curves) curves
              queueTimeout Hnd) as (Hc & _).
  change (drainAll curves
            (stateAfter machines (buildDemandByCurve curves) curves queueTimeout horizon))
    with s in Hc.
  rewrite (Hc c Hin). by apply cumDemand_unique.
Qed.

Lemma linear_array_sum (c : curve) :
  type c = "linear"%string -> Rsum (curveDemandArray c) = totalDemand c.
Proof.
  intros Hty. unfold curveDemandArray. rewrite decide_True by assumption.
  apply generateLinearDemand_sum.
Qed.

Lemma linear_served_plus_shed (machines : R) (curves : list curve) (queueTimeout : Z)
    (c : curve) :
  NoDup (map id curves) -> c ∈ curves -> type c = "linear"%string ->
  let s := SimulationCore.finalState machines curves queueTimeout in
  servedOf s c + shedOf s c = totalDemand c.
Proof.
  intros Hnd Hin Hty s. rewrite <- (linear_array_sum c Hty).
  by apply served_plus_shed.
Qed.



(** ** Saturated runs *)

(** When the curve at the head of the priority order asks for at least
    the capacity at every minute, the run ends with that curve served
    1440 times the capacity and every other curve served nothing. *)
Lemma head_saturated_final (machines : R) (curves : list curve) (queueTimeout : Z)
    (c0 : curve) (rest : list curve) :
  NoDup (map id curves) ->
  sortBy priority curves = c0 :: rest ->
  (forall m, (m < horizon)%nat -> machines <= demandAt (buildDemandByCurve curves) c0 m) ->
  (forall c, c ∈ rest -> validSource c) ->
  let s := SimulationCore.finalState machines curves queueTimeout in
  servedOf s c0 = 1440 * machines
  /\ (forall c, c ∈ rest -> servedOf s c = 0).
Proof.
  intros Hnd Hhead Hc0 Hrest s.
  destruct (saturating_head_takes_all machines (buildDemandByCurve curves) curves
              queueTimeout c0 rest Hhead horizon) as [H0 Hr].
  { exact Hc0. }
  { intros c m Hc _. apply demandAt_nonneg; [assumption| |by apply Hrest].
    by apply (rest_in_curves curves c0 rest Hhead). }
  destruct (drainAll_spec curves
              (stateAfter machines (buildDemandByCurve curves) curves queueTimeout
                 horizon) Hnd) as (_ & D2 & _).
  assert (Hs : s = drainAll curves
                     (stateAfter machines (buildDemandByCurve curves) curves
                        queueTimeout horizon)) by reflexivity.
  unfold servedOf. rewrite Hs, D2. split.
  - rewrite H0, INR_horizon. reflexivity.
  - intros c Hc. apply Hr. intros Heq.
    apply (head_not_in_rest curves c0 rest Hnd Hhead). rewrite <- Heq.
    by apply list_elem_of_In, in_map, list_elem_of_In.
Qed.





(** * Capacity and non-negativity *)

Lemma drainAll_demandValues (cs : list curve) (s : sim) :
  demandValues (drainAll cs s) = demandValues s.
Proof.
  revert s. induction cs as [|c cs IH]; intros s; [reflexivity|].
  unfold drainAll in *. cbn [fold_left]. rewrite IH.
  by destruct (drainCurve_spec s c) as (_ & _ & _ & -> & _).
Qed.



(** * Timeout expiry *)



(** * Zero capacity *)







(** * Priority dominance *)



(** * Sources of equal priority, and the order of service *)

Lemma filter_positive_id (q : list item) :
  Forall (fun it => 0 < demand it) q -> filter (fun it => 0 < demand it) q = q.
Proof.
  induction 1 as [|it q Hit _ IH]; [reflexivity|].
  by rewrite filter_cons_True, IH.
Qed.

(** C2 (the code departs from the claim): two identical linear sources
    of 144000 at the same priority against a capacity of 100 do not
    share it.  In minute 0 the two requests of 100 form one cohort that
    asks for twice the capacity, and the source listed first is served
    100, the other nothing.  So it goes every minute: the first source
    ends with 144000 served and nothing shed, the other with nothing
    served and 144000 shed. *)
Theorem equal_priority_sources_served_in_list_order :
  let s1 := SimulationCore.simulateMinutes 100 [twinA; twinB] 30 1 in
  let s := SimulationCore.finalState 100 [twinA; twinB] 30 in
  (servedOf s1 twinA = 100 /\ servedOf s1 twinB = 0)
  /\ servedOf s twinA = 144000 /\ shedOf s twinA = 0
  /\ servedOf s twinB = 0 /\ shedOf s twinB = 144000.
Proof.
  intros s1 s.
  assert (Hnd : NoDup (map id [twinA; twinB]))
    by (apply (bool_decide_unpack _); vm_compute; exact I).
  assert (Hd : forall c m, c ∈ [twinA; twinB] -> (m < horizon)%nat ->
                 demandAt (buildDemandByCurve [twinA; twinB]) c m = 100).
  { intros c m Hc Hm. rewrite linear_demandAt; try done.
    - apply elem_of_cons in Hc as [->|Hc]; [cbn; lra|].
      apply list_elem_of_singleton in Hc as ->. cbn. lra.
    - apply elem_of_cons in Hc as [->|Hc]; [reflexivity|].
      by apply list_elem_of_singleton in Hc as ->. }
  split.
  { destruct (saturating_head_takes_all 100 (buildDemandByCurve [twinA; twinB])
                [twinA; twinB] 30 twinA [twinB] eq_refl 1) as [H1 H2].
    - intros m Hm. rewrite Hd; [lra|apply list_elem_of_here|unfold horizon; lia].
    - intros c m Hc Hm. apply list_elem_of_singleton in Hc as ->.
      rewrite Hd; [lra|apply list_elem_of_further, list_elem_of_here
                  |unfold horizon; lia].
    - unfold servedOf. subst s1. split.
      + etransitivity; [exact H1|]. cbn. lra.
      + apply H2. discriminate. }
  destruct (head_saturated_final 100 [twinA; twinB] 30 twinA [twinB] Hnd)
    as [H1 H2].
  { reflexivity. }
  { intros m Hm. rewrite linear_demandAt; try done; [cbn; lra|apply list_elem_of_here]. }
  { intros c Hc. apply list_elem_of_singleton in Hc as ->.
    split; [cbn; lra | intros Hty; by exfalso]. }
  pose proof (fun c Hin Hty =>
                linear_served_plus_shed 100 [twinA; twinB] 30 c Hnd Hin Hty) as Hlin.
  cbn zeta in Hlin. fold s in H1, H2, Hlin.
  assert (Hin1 : twinA ∈ [twinA; twinB]) by apply list_elem_of_here.
  assert (Hin2 : twinB ∈ [twinA; twinB])
    by apply list_elem_of_further, list_elem_of_here.
  pose proof (Hlin twinA Hin1 eq_refl) as L1.
  pose proof (Hlin twinB Hin2 eq_refl) as L2.
  specialize (H2 twinB (list_elem_of_here _ _)).
  change (totalDemand twinA) with 144000 in L1.
  change (totalDemand twinB) with 144000 in L2.
  repeat split; lra.
Qed.

(** The same two sources in the second copy: in minute 0 the cohort of
    the two requests of 100 is split in proportion, 50 each. *)
Example cohort_copy_shares_minute_zero :
  let s1 := CohortSimulationCore.simulateMinutes 100 [twinA; twinB] 30 1 in
  servedOf s1 twinA = 50 /\ servedOf s1 twinB = 50.
Proof.
  assert (Hnd : NoDup (map id [twinA; twinB]))
    by (apply (bool_decide_unpack _); vm_compute; exact I).
  assert (Hd : forall c, c ∈ [twinA; twinB] ->
                 demandAt (buildDemandByCurve [twinA; twinB]) c 0 = 100).
  { intros c Hc. rewrite linear_demandAt; try done.
    - apply elem_of_cons in Hc as [->|Hc]; [cbn; lra|].
      apply list_elem_of_singleton in Hc as ->. cbn. lra.
    - apply elem_of_cons in Hc as [->|Hc]; [reflexivity|].
      by apply list_elem_of_singleton in Hc as ->.
    - unfold horizon. lia. }
  cbn zeta. unfold CohortSimulationCore.simulateMinutes. cbn [seq fold_left].
  unfold CohortSimulationCore.stepMinute.
  destruct (initSim_spec [twinA; twinB]) as (I1 & I2 & _).
  destruct (expireAll 0 30 [twinA; twinB] (initSim [twinA; twinB])) as [s1 shedNow] eqn:E1.
  unfold expireAll in E1. apply expireFold_spec in E1.
  destruct E1 as (X1 & _ & X3 & _).
  assert (Hq1 : forall k, queuesByCurve s1 !!! k = []).
  { intros k. rewrite X1, I1. by case_decide. }
  unfold CohortSimulationCore.allocate.
  change (CohortSimulationCore.priorityLevels [twinA; twinB]) with [1%Z].
  cbn [fold_left]. unfold CohortSimulationCore.processLevel.
  change (CohortSimulationCore.curvesAtPriority [twinA; twinB] 1) with [twinA; twinB].
  cbn [fold_left CohortSimulationCore.queues CohortSimulationCore.available
       CohortSimulationCore.usage CohortSimulationCore.curveUsageThisMinute].
  set (queued := CohortSimulationCore.queueNewDemand _ 0
                   (CohortSimulationCore.queueNewDemand _ 0 (queuesByCurve s1) twinA)
                   twinB).
  assert (QA : queued !!! "curve-1"%string = [Item 0 100 "curve-1" 1]).
  { unfold queued, CohortSimulationCore.queueNewDemand.
    rewrite !Hd by (repeat constructor).
    rewrite !(decide_True (P := 0 < 100)) by lra.
    rewrite lookup_total_insert_ne by done.
    rewrite lookup_total_insert_eq, Hq1. reflexivity. }
  assert (QB : queued !!! "curve-2"%string = [Item 0 100 "curve-2" 1]).
  { unfold queued, CohortSimulationCore.queueNewDemand.
    rewrite !Hd by (repeat constructor).
    rewrite !(decide_True (P := 0 < 100)) by lra.
    rewrite lookup_total_insert_eq.
    rewrite lookup_total_insert_ne by done. rewrite Hq1. reflexivity. }
  assert (HA : CohortSimulationCore.itemAt queued ("curve-1"%string, 0%nat)
               = Item 0 100 "curve-1" 1).
  { unfold CohortSimulationCore.itemAt. cbn [fst snd]. by rewrite QA. }
  assert (HB : CohortSimulationCore.itemAt queued ("curve-2"%string, 0%nat)
               = Item 0 100 "curve-2" 1).
  { unfold CohortSimulationCore.itemAt. cbn [fst snd]. by rewrite QB. }
  assert (Hcomb : CohortSimulationCore.combinedQueue queued [twinA; twinB]
                  = [("curve-1"%string, 0%nat); ("curve-2"%string, 0%nat)]).
  { unfold CohortSimulationCore.combinedQueue. cbn [flat_map].
    change (id twinA) with "curve-1"%string. change (id twinB) with "curve-2"%string.
    rewrite QA, QB. reflexivity. }
  rewrite Hcomb.
  cbn [sortBy fold_right insertBy]. rewrite HA, HB.
  cbn [arrivalTime Z.leb Z.compare CohortSimulationCore.cohorts].
  rewrite HA, HB. cbn [arrivalTime Z.eqb].
  cbn [CohortSimulationCore.serveCohorts CohortSimulationCore.available].
  rewrite (decide_True (P := 0 < 100)) by lra.
  set (cu0 := <[id twinB:=0]> (<[id twinA:=0]> (∅ : gmap string R))).
  set (a' := CohortSimulationCore.serveCohort _ _).
  assert (CU : CohortSimulationCore.curveUsageThisMinute a' !!! "curve-1"%string
               = 0 + 100 * (100 / (0 + 100 + 100))
               /\ CohortSimulationCore.curveUsageThisMinute a' !!! "curve-2"%string
                  = 0 + 100 * (100 / (0 + 100 + 100))).
  { unfold a', CohortSimulationCore.serveCohort, CohortSimulationCore.cohortDemand.
    cbn [fold_left CohortSimulationCore.queues CohortSimulationCore.available].
    rewrite HA, HB. cbn [demand].
    rewrite (decide_False (P := 0 + 100 + 100 <= 100)) by lra.
    cbn [CohortSimulationCore.curveUsageThisMinute].
    unfold CohortSimulationCore.serveShare at 1.
    cbn [CohortSimulationCore.curveUsageThisMinute CohortSimulationCore.queues
         CohortSimulationCore.available].
    unfold CohortSimulationCore.serveShare.
    cbn [CohortSimulationCore.curveUsageThisMinute CohortSimulationCore.queues
         CohortSimulationCore.available].
    rewrite (itemAt_setDemandAt_other queued ("curve-1"%string, 0%nat)
               ("curve-2"%string, 0%nat)) by done.
    rewrite HA, HB. cbn [demand curveId].
    assert (C1 : cu0 !!! "curve-1"%string = 0).
    { unfold cu0. rewrite lookup_total_insert_ne by done.
      by rewrite lookup_total_insert_eq. }
    assert (C2 : cu0 !!! "curve-2"%string = 0).
    { unfold cu0. by rewrite lookup_total_insert_eq. }
    split.
    - rewrite lookup_total_insert_ne by done.
      by rewrite lookup_total_insert_eq, C1.
    - rewrite lookup_total_insert_eq.
      rewrite lookup_total_insert_ne by done. by rewrite C2. }
  destruct CU as [CUA CUB].
  unfold servedOf. cbn [utilizationByCurve].
  change (id twinA) with "curve-1"%string. change (id twinB) with "curve-2"%string.
  rewrite X3. split.
  - rewrite lookup_total_insert_ne by done.
    rewrite lookup_total_insert_eq, I2, CUA. field.
  - rewrite lookup_total_insert_eq.
    rewrite lookup_total_insert_ne by done. rewrite I2, CUB. field.
Qed.
(** C4 (the code departs from the claim): one linear source of 216000
    (150 a minute) against a capacity of 100.  After the first two
    minutes its queue holds 50 from minute 0 and 50 from minute 1: at
    minute 1 the whole capacity went to the demand that had just
    arrived, and the 50 waiting since minute 0 were served nothing. *)
Theorem new_demand_served_before_waiting_demand :
  queuesByCurve (SimulationCore.simulateMinutes 100 [p1Curve] 30 2) !!! "p1"%string
  = [Item 0 50 "p1" 1; Item 1 50 "p1" 1].
Proof.
  assert (Hnd : NoDup (map id [p1Curve]))
    by (apply (bool_decide_unpack _); vm_compute; exact I).
  assert (Hhead : sortBy priority [p1Curve] = [p1Curve]) by reflexivity.
  assert (Hd : forall m, (m < horizon)%nat ->
                 demandAt (buildDemandByCurve [p1Curve]) p1Curve m = 150).
  { intros m Hm. rewrite linear_demandAt; try done; [|apply list_elem_of_here].
    change (totalDemand p1Curve) with 216000. lra. }
  assert (Hstep : forall n, (n < horizon)%nat ->
            queuesByCurve (stateAfter 100 (buildDemandByCurve [p1Curve]) [p1Curve] 30
                             (S n)) !!! "p1"%string
            = keepLive n 30
                (queuesByCurve (stateAfter 100 (buildDemandByCurve [p1Curve])
                                  [p1Curve] 30 n) !!! "p1"%string)
              ++ [Item (Z.of_nat n) 50 "p1" 1]).
  { intros n Hn.
    pose proof (saturating_head_queue 100 (buildDemandByCurve [p1Curve]) [p1Curve] 30
                  p1Curve [] Hnd Hhead n) as Hq.
    rewrite (Hd n Hn) in Hq. specialize (Hq ltac:(lra)). cbn zeta in Hq.
    change (id p1Curve) with "p1"%string in Hq. rewrite Hq.
    pose proof (runInv_stateAfter 100 (buildDemandByCurve [p1Curve]) [p1Curve] 30 n)
      as [Hok _ _ _ _].
    unfold pushExcess. rewrite decide_True by lra.
    replace (150 - 100) with 50 by lra.
    apply filter_positive_id. apply Forall_app. split.
    - destruct (queueOK_keepLive _ n 30 _ (Hok "p1"%string)) as [_ Hall].
      eapply Forall_impl; [exact Hall|]. by intros it [? _].
    - constructor; [cbn; lra | constructor]. }
  unfold SimulationCore.simulateMinutes.
  change (fold_left _ (seq 0 2) (initSim [p1Curve]))
    with (stateAfter 100 (buildDemandByCurve [p1Curve]) [p1Curve] 30 2).
  rewrite (Hstep 1%nat) by (unfold horizon; lia).
  rewrite (Hstep 0%nat) by (unfold horizon; lia).
  unfold stateAfter at 1. cbn [seq fold_left].
  destruct (initSim_spec [p1Curve]) as (-> & _).
  reflexivity.
Qed.

(** * Malformed configurations and unknown shapes *)

(** C9, as amended: the engine validates nothing.  For every capacity,
    list of sources and timeout, malformed or not, the call completes
    and returns the metrics of a full 1440-minute run, one recorded
    minute after the other; rejecting a malformed configuration is left
    to the caller. *)
Theorem no_configuration_is_rejected
    (machines : R) (curves : list curve) (queueTimeout : Z) :
  SimulationCore.runFullSimulationOutcome machines curves queueTimeout
  = Completed (SimulationCore.runFullSimulation machines curves queueTimeout)
  /\ length (demandValues (SimulationCore.finalState machines curves queueTimeout))
     = horizon.
Proof.
  split; [reflexivity|].
  unfold SimulationCore.finalState. rewrite drainAll_demandValues.
  by destruct (runInv_stateAfter machines (buildDemandByCurve curves) curves
                 queueTimeout horizon) as [_ _ _ _ Hl].
Qed.

(** C9 as stated fails: a capacity of -100 is malformed, yet the call
    is not rejected; it returns, with -144000 served by the source. *)
Lemma negative_capacity_not_rejected :
  malformed (-100) [p1Curve] 30
  /\ (forall message,
        SimulationCore.runFullSimulationOutcome (-100) [p1Curve] 30
        <> Rejected message)
  /\ servedOf (SimulationCore.finalState (-100) [p1Curve] 30) p1Curve = -144000.
Proof.
  split; [left; lra|]. split; [intros message; discriminate|].
  assert (Hnd : NoDup (map id [p1Curve]))
    by (apply (bool_decide_unpack _); vm_compute; exact I).
  destruct (head_saturated_final (-100) [p1Curve] 30 p1Curve [] Hnd) as [H1 _].
  - reflexivity.
  - intros m Hm. rewrite linear_demandAt; try done; [|apply list_elem_of_here].
    change (totalDemand p1Curve) with 216000. lra.
  - intros c Hc. by apply elem_of_nil in Hc.
  - rewrite H1. lra.
Qed.

Lemma fold_left_map_ext {A B : Type} (f : A -> B -> A) (g : B -> B) (l : list B) (a : A) :
  (forall a b, f a (g b) = f a b) -> fold_left f (map g l) a = fold_left f l a.
Proof.
  intros Hfg. revert a. induction l as [|b l IH]; intros a; [reflexivity|].
  cbn [map fold_left]. by rewrite Hfg, IH.
Qed.

Lemma sortBy_map {A : Type} (key : A -> Z) (g : A -> A) (l : list A) :
  (forall x, key (g x) = key x) -> sortBy key (map g l) = map g (sortBy key l).
Proof.
  intros Hk. induction l as [|x l IH]; [reflexivity|].
  cbn [map sortBy fold_right]. fold (sortBy key (map g l)). fold (sortBy key l).
  rewrite IH. generalize (sortBy key l) as l'. clear IH.
  induction l' as [|y l' IH]; [reflexivity|].
  cbn [map insertBy]. rewrite !Hk. destruct (key x <=? key y)%Z; [reflexivity|].
  by rewrite IH.
Qed.

Lemma asGaussian_id (c : curve) : id (asGaussian c) = id c.
Proof. unfold asGaussian. by case_decide. Qed.

Lemma asGaussian_priority (c : curve) : priority (asGaussian c) = priority c.
Proof. unfold asGaussian. by case_decide. Qed.

Lemma asGaussian_array (c : curve) : curveDemandArray (asGaussian c) = curveDemandArray c.
Proof.
  unfold asGaussian. case_decide as Hty; [reflexivity|].
  unfold curveDemandArray. cbn [type totalDemand peakHour curveWidth].
  rewrite decide_False by discriminate. by rewrite decide_False.
Qed.

(** The run does not look at the shape beyond the test for
    ['linear']. *)
Lemma run_ignores_shape_name (machines : R) (curves : list curve) (queueTimeout : Z) :
  SimulationCore.runFullSimulation machines (map asGaussian curves) queueTimeout
  = SimulationCore.runFullSimulation machines curves queueTimeout.
Proof.
  assert (Hd : buildDemandByCurve (map asGaussian curves) = buildDemandByCurve curves).
  { unfold buildDemandByCurve. apply fold_left_map_ext.
    intros d c. by rewrite asGaussian_id, asGaussian_array. }
  assert (Hi : initSim (map asGaussian curves) = initSim curves).
  { unfold initSim. apply fold_left_map_ext. intros s c. by rewrite asGaussian_id. }
  assert (Hstep : forall s n,
            SimulationCore.stepMinute machines (buildDemandByCurve curves)
              (map asGaussian curves) queueTimeout s n
            = SimulationCore.stepMinute machines (buildDemandByCurve curves)
                curves queueTimeout s n).
  { intros s n. unfold SimulationCore.stepMinute.
    assert (He : expireAll n queueTimeout (map asGaussian curves) s
                 = expireAll n queueTimeout curves s).
    { unfold expireAll. apply fold_left_map_ext.
      intros [s0 x0] c. unfold expireCurve. by rewrite asGaussian_id. }
    rewrite He. destruct (expireAll n queueTimeout curves s) as [s1 shedNow].
    assert (Ha : SimulationCore.allocate machines (buildDemandByCurve curves)
                   (map asGaussian curves) n s1
                 = SimulationCore.allocate machines (buildDemandByCurve curves)
                     curves n s1).
    { unfold SimulationCore.allocate.
      rewrite sortBy_map by apply asGaussian_priority.
      apply fold_left_map_ext. intros [s0 v0] c.
      unfold SimulationCore.processCurve, demandAt.
      by rewrite asGaussian_id, asGaussian_priority. }
    rewrite Ha.
    destruct (SimulationCore.allocate machines (buildDemandByCurve curves) curves n s1)
      as [s2 v].
    assert (Hq : totalQueued (map asGaussian curves) (queuesByCurve s2)
                 = totalQueued curves (queuesByCurve s2)).
    { unfold totalQueued. apply fold_left_map_ext.
      intros a c. by rewrite asGaussian_id. }
    assert (Ht : totalDemandAt (buildDemandByCurve curves) (map asGaussian curves) n
                 = totalDemandAt (buildDemandByCurve curves) curves n).
    { unfold totalDemandAt. apply fold_left_map_ext.
      intros a c. unfold demandAt. by rewrite asGaussian_id. }
    by rewrite Hq, Ht. }
  assert (Hsim : forall n,
            SimulationCore.simulateMinutes machines (map asGaussian curves) queueTimeout n
            = SimulationCore.simulateMinutes machines curves queueTimeout n).
  { intros n. unfold SimulationCore.simulateMinutes. rewrite Hd, Hi.
    generalize (initSim curves) as s0. generalize (seq 0 n) as ms.
    induction ms as [|m ms IH]; intros s0; [reflexivity|].
    cbn [fold_left]. by rewrite Hstep, IH. }
  unfold SimulationCore.runFullSimulation, SimulationCore.finalState.
  rewrite Hsim.
  set (s := SimulationCore.simulateMinutes machines curves queueTimeout horizon).
  assert (Hdr : drainAll (map asGaussian curves) s = drainAll curves s).
  { unfold drainAll. apply fold_left_map_ext.
    intros s0 c. unfold drainCurve. by rewrite asGaussian_id. }
  rewrite Hdr. unfold buildMetrics. f_equal.
  apply fold_left_map_ext. intros m c. by rewrite asGaussian_id.
Qed.

(** C10: a source whose [type] is anything but ['linear'] is given the
    Gaussian array of its [totalDemand], [peakHour] and [curveWidth];
    with distinct ids that array is the one the run reads for it; the
    run returns what it returns when every such shape is spelled
    ['gaussian']; and the call completes whatever the shapes are. *)
Theorem unknown_shape_is_gaussian
    (machines : R) (curves : list curve) (queueTimeout : Z) (c : curve) :
  type c <> "linear"%string ->
  curveDemandArray c
  = generateGaussianDemand (totalDemand c) (peakHour c) (curveWidth c)
  /\ (NoDup (map id curves) -> c ∈ curves ->
      buildDemandByCurve curves !!! id c
      = generateGaussianDemand (totalDemand c) (peakHour c) (curveWidth c))
  /\ SimulationCore.runFullSimulation machines (map asGaussian curves) queueTimeout
     = SimulationCore.runFullSimulation machines curves queueTimeout
  /\ SimulationCore.runFullSimulationOutcome machines curves queueTimeout
     = Completed (SimulationCore.runFullSimulation machines curves queueTimeout).
Proof.
  intros Hty.
  assert (Harr : curveDemandArray c
                 = generateGaussianDemand (totalDemand c) (peakHour c) (curveWidth c)).
  { unfold curveDemandArray. by rewrite decide_False. }
  split; [exact Harr|]. split; [|split; [apply run_ignores_shape_name|reflexivity]].
  intros Hnd Hin. by rewrite buildDemand_lookup.
Qed.

Lemma unknown_shape_is_gaussian_witness :
  let c := Curve "curve-9" "sawtooth" 1000 12 2 1 in
  curveDemandArray c = generateGaussianDemand 1000 12 2
  /\ (NoDup (map id [c]) -> c ∈ [c] ->
      buildDemandByCurve [c] !!! id c = generateGaussianDemand 1000 12 2)
  /\ SimulationCore.runFullSimulation 100 (map asGaussian [c]) 30
     = SimulationCore.runFullSimulation 100 [c] 30
  /\ SimulationCore.runFullSimulationOutcome 100 [c] 30
     = Completed (SimulationCore.runFullSimulation 100 [c] 30).
Proof.
  intros c. apply (unknown_shape_is_gaussian 100 [c] 30 c). discriminate.
Defined.

(** * Timeout monotonicity *)



(** * The demand generators *)

Section Generators.



(** Farther from the mean, squared, is smaller. *)
Lemma gaussian_le_sq (x y mean stdDev : R) :
  (x - mean) ^ 2 <= (y - mean) ^ 2 ->
  gaussian y mean stdDev <= gaussian x mean stdDev.
Proof.
  intros Hsq. unfold gaussian. cbn zeta.
  assert (Hle : - (1 / 2) * ((y - mean) / stdDev) ^ 2
                <= - (1 / 2) * ((x - mean) / stdDev) ^ 2).
  { unfold Rdiv. rewrite !Rpow_mult_distr.
    pose proof (pow2_ge_0 (/ stdDev)) as Hs. nra. }
  destruct Hle as [Hlt|Heq].
  - left. by apply exp_increasing.
  - rewrite Heq. lra.
Qed.

Lemma gaussian_closer (x y mean stdDev : R) :
  Rabs (x - mean) <= Rabs (y - mean) ->
  gaussian y mean stdDev <= gaussian x mean stdDev.
Proof.
  intros Habs. apply gaussian_le_sq.
  rewrite <- (pow2_abs (x - mean)), <- (pow2_abs (y - mean)).
  pose proof (Rabs_pos (x - mean)). pose proof (Rabs_pos (y - mean)). nra.
Qed.

End Generators.



Lemma nth_map_seq (f : nat -> R) (n m : nat) :
  (m < n)%nat -> nth m (map f (seq 0 n)) 0 = f m.
Proof.
  intros Hm. rewrite (nth_indep _ 0 (f 0%nat)) by (by rewrite length_map, length_seq).
  rewrite (map_nth f). by rewrite seq_nth.
Qed.

Lemma generateGaussianDemand_nth (t p w : R) (m : nat) :
  (m < horizon)%nat ->
  nth m (generateGaussianDemand t p w) 0
  = t / (w * 60 * sqrt (2 * PI)) * gaussian (INR m) (p * 60) (w * 60).
Proof.
  intros Hm. unfold generateGaussianDemand. cbn zeta.
  by rewrite (nth_map_seq (fun minute => _ * gaussian (INR minute) _ _)).
Qed.

Lemma gaussian_scale_nonneg (t w : R) :
  0 <= t -> 0 < w -> 0 <= t / (w * 60 * sqrt (2 * PI)).
Proof.
  intros Ht Hw. pose proof sqrt_2PI_gt_2 as Hs.
  apply Rmult_le_pos; [assumption|]. left. apply Rinv_0_lt_compat. nra.
Qed.

(** X2 ([generateGaussianDemand]): for a non-negative volume and a
    positive spread the array has 1440 entries, each between 0 and the
    scale factor [totalDemand / (curveWidth * 60 * sqrt(2 * PI))]; the
    entries do not decrease up to the peak minute and do not increase
    after it. *)
Theorem gaussian_demand_rises_then_falls (t p w : R) :
  0 <= t -> 0 < w ->
  let arr := generateGaussianDemand t p w in
  length arr = 1440%nat
  /\ (forall m, (m < 1440)%nat ->
        0 <= nth m arr 0 <= t / (w * 60 * sqrt (2 * PI)))
  /\ (forall m1 m2, (m1 <= m2 < 1440)%nat -> INR m2 <= p * 60 ->
        nth m1 arr 0 <= nth m2 arr 0)
  /\ (forall m1 m2, (m1 <= m2 < 1440)%nat -> p * 60 <= INR m1 ->
        nth m2 arr 0 <= nth m1 arr 0).
Proof.
  intros Ht Hw arr. subst arr.
  pose proof (gaussian_scale_nonneg t w Ht Hw) as Hscale.
  split; [apply generateGaussianDemand_length|].
  split; [|split].
  - intros m Hm. rewrite generateGaussianDemand_nth by exact Hm.
    pose proof (gaussian_pos (INR m) (p * 60) (w * 60)).
    pose proof (gaussian_le_1 (INR m) (p * 60) (w * 60)). nra.
  - intros m1 m2 [H12 H2] Hpeak.
    rewrite !generateGaussianDemand_nth by (unfold horizon; lia).
    apply Rmult_le_compat_l; [assumption|]. apply gaussian_closer.
    apply le_INR in H12.
    rewrite !Rabs_left1 by lra. lra.
  - intros m1 m2 [H12 H2] Hpeak.
    rewrite !generateGaussianDemand_nth by (unfold horizon; lia).
    apply Rmult_le_compat_l; [assumption|]. apply gaussian_closer.
    apply le_INR in H12.
    rewrite !Rabs_right by lra. lra.
Qed.

Lemma gaussian_demand_rises_then_falls_witness :
  let arr := generateGaussianDemand 100000 15 3 in
  length arr = 1440%nat
  /\ (forall m, (m < 1440)%nat ->
        0 <= nth m arr 0 <= 100000 / (3 * 60 * sqrt (2 * PI)))
  /\ (forall m1 m2, (m1 <= m2 < 1440)%nat -> INR m2 <= 15 * 60 ->
        nth m1 arr 0 <= nth m2 arr 0)
  /\ (forall m1 m2, (m1 <= m2 < 1440)%nat -> 15 * 60 <= INR m1 ->
        nth m2 arr 0 <= nth m1 arr 0).
Proof. apply (gaussian_demand_rises_then_falls 100000 15 3); lra. Defined.




(** X5 (first [curves.forEach] of [runFullSimulation]): sources that
    carry the same id share one entry of [demandByCurve], and the entry
    is the array of the last of them in the list: every source with
    that id is given the last one's demand, whatever its own shape and
    volume. *)
Theorem duplicate_id_takes_last_array (before after : list curve) (c c' : curve) (m : nat) :
  id c = id c' -> id c' ∉ map id after ->
  demandAt (buildDemandByCurve (before ++ c' :: after)) c m
  = nth m (curveDemandArray c') 0.
Proof.
  intros Hid Hlast. unfold demandAt, buildDemandByCurve.
  rewrite fold_left_app. cbn [fold_left]. rewrite Hid.
  rewrite buildDemand_notin by assumption.
  by rewrite lookup_total_insert_eq.
Qed.

Lemma duplicate_id_takes_last_array_witness :
  demandAt (buildDemandByCurve
              ([Curve "a" "linear" 1440 0 0 1; Curve "a" "linear" 2880 0 0 1]
                 ++ Curve "a" "linear" 4320 0 0 2 :: [Curve "b" "linear" 0 0 0 1]))
           (Curve "a" "linear" 1440 0 0 1) 7
  = nth 7 (curveDemandArray (Curve "a" "linear" 4320 0 0 2)) 0.
Proof.
  apply (duplicate_id_takes_last_array
           [Curve "a" "linear" 1440 0 0 1; Curve "a" "linear" 2880 0 0 1]
           [Curve "b" "linear" 0 0 0 1]
           (Curve "a" "linear" 1440 0 0 1) (Curve "a" "linear" 4320 0 0 2) 7).
  - reflexivity.
  - cbn. rewrite list_elem_of_singleton. discriminate.
Defined.

(** * The per-minute records and the figures computed from them *)

Section Ledger.

Import SimulationCore.

Variables (machines : R) (demandByCurve : gmap string (list R))
          (curves : list curve) (queueTimeout : Z).





End Ledger.

Section Records.

Import SimulationCore.

Variables (machines : R) (curves : list curve) (queueTimeout : Z).

Let after := stateAfter machines (buildDemandByCurve curves) curves queueTimeout.






End Records.




Section BusiestMinutes.







End BusiestMinutes.








Section NonNegativeTotals.

Import SimulationCore.

Variables (machines : R) (demandByCurve : gmap string (list R))
          (curves : list curve) (queueTimeout : Z).

Hypothesis capacity_nonneg : 0 <= machines.
Hypothesis demand_nonneg :
  forall c m, c ∈ curves -> 0 <= demandAt demandByCurve c m.




End NonNegativeTotals.








(** * The board *)

Section BoardSmallInputs.

Import Board.

(** The first two results of the generator seeded with 0: the captured
    seed after each call and the numerator of the result. *)
Example mulberry32_seed_0 :
  mulberry32 0 = (1831565813, 1144304738)%Z
  /\ mulberry32 1831565813 = (3663131626, 1416247)%Z.
Proof. split; reflexivity. Qed.

(** A T piece above an I piece on a board of 4 by 4: gravity moves both
    down, 2 rows in all, and the height falls from 4 to 3. *)
Example gravity_on_two_pieces :
  let b := (placePiece (placePiece (new 4 4) pieceT 0 2).2 pieceI 0 1).2 in
  getHeight b = 4%nat
  /\ match applyGravity 3 b with
     | Some (total, b') =>
         total = 2%Z /\ getHeight b' = 3%nat
         /\ getPiece b' 1 = Some (Piece pieceI "#00f0f0" [(0, 0); (1, 0); (2, 0); (3, 0)]%Z)
         /\ getPiece b' 0 = Some (Piece pieceT "#a000f0" [(0, 1); (1, 1); (2, 1); (1, 2)]%Z)
     | None => False
     end.
Proof. vm_compute. repeat split. Qed.

(** A piece that sticks out of the grid or overlaps another is
    refused. *)
Example placement_refused :
  let b := (placePiece (new 4 4) pieceO 0 0).2 in
  placePiece b pieceI 1 3 = (None, b)
  /\ placePiece b pieceT 1 1 = (None, b)
  /\ (placePiece b pieceT 1 2).1 = Some 1%nat.
Proof. vm_compute. repeat split. Qed.

End BoardSmallInputs.

Section BoardGrid.

Import Board.

#[local] Open Scope nat_scope.

Implicit Types (g : list (list (option cell))) (x y : Z) (v : option cell).

Lemma gridAt_Some_inside w h g x y c :
  rectangular w h g -> gridAt g x y = Some c ->
  (0 <= x < Z.of_nat w)%Z /\ (0 <= y < Z.of_nat h)%Z.
Proof.
  intros [Hh Hw]. unfold gridAt. case_decide as Hxy; [|discriminate].
  destruct (g !! Z.to_nat y) as [row|] eqn:Erow; [|discriminate].
  destruct (row !! Z.to_nat x) as [oc|] eqn:Ec; [|discriminate].
  intros _.
  apply lookup_lt_Some in Erow as Hy. pose proof Ec as Hx. apply lookup_lt_Some in Hx.
  rewrite Forall_forall in Hw.
  rewrite (Hw row) in Hx by (eapply list_elem_of_lookup_2, Erow). lia.
Qed.

Lemma gridSet_rectangular w h g x y v :
  rectangular w h g -> rectangular w h (gridSet g x y v).
Proof.
  intros [Hh Hw]. unfold gridSet. case_decide; [|by split]. split.
  - by rewrite length_alter.
  - apply Forall_alter; [assumption|]. intros row _ Hrow.
    by rewrite length_insert.
Qed.

Lemma gridAt_gridSet_eq w h g x y v :
  rectangular w h g ->
  (0 <= x < Z.of_nat w)%Z -> (0 <= y < Z.of_nat h)%Z ->
  gridAt (gridSet g x y v) x y = v.
Proof.
  intros [Hh Hw] Hx Hy. unfold gridAt, gridSet.
  rewrite !decide_True by lia.
  rewrite list_lookup_alter_eq.
  destruct (lookup_lt_is_Some_2 g (Z.to_nat y) ltac:(lia)) as [row Hrow].
  rewrite Hrow. cbn [fmap option_fmap option_map].
  rewrite Forall_forall in Hw.
  rewrite list_lookup_insert_eq; [reflexivity|].
  rewrite (Hw row) by (eapply list_elem_of_lookup_2, Hrow). lia.
Qed.

Lemma gridAt_gridSet_ne g x y v x' y' :
  (x, y) <> (x', y') -> gridAt (gridSet g x y v) x' y' = gridAt g x' y'.
Proof.
  intros Hne. unfold gridAt, gridSet.
  destruct (decide (0 <= x' /\ 0 <= y')%Z) as [H'|]; [|reflexivity].
  destruct (decide (0 <= x /\ 0 <= y)%Z) as [H|]; [|reflexivity].
  rewrite list_lookup_alter.
  destruct (decide (Z.to_nat y = Z.to_nat y')) as [Hy|Hy]; [|reflexivity].
  destruct (g !! Z.to_nat y') as [row|] eqn:Erow.
  - rewrite Hy, Erow. cbn [fmap option_fmap option_map].
    rewrite list_lookup_insert_ne; [reflexivity|].
    intros Hx. apply Hne. f_equal; lia.
  - rewrite Hy, Erow. reflexivity.
Qed.

(** Writing one value to a list of cells. *)
Lemma setCells_rectangular w h g (cs : list (Z * Z)) v :
  rectangular w h g ->
  rectangular w h (fold_left (fun g c => gridSet g c.1 c.2 v) cs g).
Proof.
  revert g. induction cs as [|c cs IH]; intros g Hg; [exact Hg|].
  cbn [fold_left]. by apply IH, gridSet_rectangular.
Qed.

Lemma setCells_outside g (cs : list (Z * Z)) v x y :
  (x, y) ∉ cs ->
  gridAt (fold_left (fun g c => gridSet g c.1 c.2 v) cs g) x y = gridAt g x y.
Proof.
  revert g. induction cs as [|c cs IH]; intros g Hnot; [reflexivity|].
  apply not_elem_of_cons in Hnot as [Hne Hnot]. cbn [fold_left].
  rewrite IH by assumption. apply gridAt_gridSet_ne.
  destruct c as [cx cy]. cbn. congruence.
Qed.

Lemma setCells_inside w h g (cs : list (Z * Z)) v x y :
  rectangular w h g ->
  (0 <= x < Z.of_nat w)%Z -> (0 <= y < Z.of_nat h)%Z ->
  (x, y) ∈ cs ->
  gridAt (fold_left (fun g c => gridSet g c.1 c.2 v) cs g) x y = v.
Proof.
  revert g. induction cs as [|c cs IH]; intros g Hg Hx Hy Hin.
  - by apply elem_of_nil in Hin.
  - cbn [fold_left]. destruct (decide ((x, y) ∈ cs)) as [Hcs|Hcs].
    + apply IH; try assumption. by apply gridSet_rectangular.
    + rewrite setCells_outside by assumption.
      apply elem_of_cons in Hin as [<-|Hin]; [|contradiction].
      cbn. by apply (gridAt_gridSet_eq w h).
Qed.

End BoardGrid.

Section BoardPieces.

Import Board.

#[local] Open Scope nat_scope.

Implicit Types (m : list (nat * piece)) (k pid : nat) (p : piece) (b : board).

Lemma mapGet_None k m : mapGet k m = None <-> k ∉ map fst m.
Proof.
  induction m as [|[k' v] m IH]; cbn [mapGet map fst].
  - split; [intros _; apply not_elem_of_nil | reflexivity].
  - rewrite not_elem_of_cons. case_decide as Hk.
    + split; [discriminate | intros [Hne _]; congruence].
    + rewrite IH. split; [intros H; split; [congruence | exact H] | intros [_ H]; exact H].
Qed.

Lemma mapGet_Some_elem k m p : mapGet k m = Some p -> (k, p) ∈ m.
Proof.
  induction m as [|[k' v] m IH]; cbn [mapGet]; [discriminate|].
  case_decide as Hk.
  - intros [= ->]. subst. apply list_elem_of_here.
  - intros H. apply list_elem_of_further, IH, H.
Qed.

Lemma mapGet_elem k m p : NoDup (map fst m) -> (k, p) ∈ m -> mapGet k m = Some p.
Proof.
  induction m as [|[k' v] m IH]; intros Hnd Hin.
  - by apply elem_of_nil in Hin.
  - cbn [map fst] in Hnd. apply NoDup_cons in Hnd as [Hnot Hnd]. cbn [mapGet].
    apply elem_of_cons in Hin as [[= -> ->]|Hin].
    + by rewrite decide_True.
    + rewrite decide_False; [by apply IH|].
      intros ->. apply Hnot. apply list_elem_of_In, in_map_iff.
      exists (k, p). split; [reflexivity | by apply list_elem_of_In].
Qed.

Lemma mapGet_mapSet_eq k p m : mapGet k (mapSet k p m) = Some p.
Proof.
  induction m as [|[k' v] m IH]; cbn [mapSet mapGet].
  - by rewrite decide_True.
  - case_decide as Hk; cbn [mapGet].
    + by rewrite decide_True.
    + by rewrite decide_False.
Qed.

Lemma mapGet_mapSet_ne k k' p m : k <> k' -> mapGet k' (mapSet k p m) = mapGet k' m.
Proof.
  intros Hne. induction m as [|[k0 v] m IH]; cbn [mapSet mapGet].
  - by rewrite decide_False.
  - case_decide as Hk; cbn [mapGet].
    + subst k0. by rewrite !decide_False.
    + case_decide; [reflexivity | exact IH].
Qed.

Lemma mapSet_new k p m : k ∉ map fst m -> mapSet k p m = m ++ [(k, p)].
Proof.
  induction m as [|[k' v] m IH]; intros Hnot; [reflexivity|].
  cbn [map fst] in Hnot. apply not_elem_of_cons in Hnot as [Hne Hnot].
  cbn [mapSet]. rewrite decide_False by congruence. by rewrite IH.
Qed.

Lemma mapSet_keys k p m : k ∈ map fst m -> map fst (mapSet k p m) = map fst m.
Proof.
  induction m as [|[k' v] m IH]; intros Hin.
  - by apply elem_of_nil in Hin.
  - cbn [mapSet]. case_decide as Hk.
    + subst. reflexivity.
    + cbn [map fst] in Hin |- *. apply elem_of_cons in Hin as [->|Hin]; [done|].
      by rewrite IH.
Qed.

Lemma mapDelete_keys k m : map fst (mapDelete k m) = filter (fun k' => k' <> k) (map fst m).
Proof.
  unfold mapDelete. induction m as [|[k' v] m IH]; [reflexivity|].
  cbn [map fst]. rewrite !filter_cons. cbn [fst].
  destruct (decide (k' <> k)); cbn [map fst]; by rewrite IH.
Qed.

Lemma mapGet_mapDelete_eq k m : mapGet k (mapDelete k m) = None.
Proof.
  apply mapGet_None. rewrite mapDelete_keys.
  intros Hin. apply list_elem_of_filter in Hin as [Hne _]. by apply Hne.
Qed.

Lemma mapGet_mapDelete_ne k k' m : k <> k' -> mapGet k' (mapDelete k m) = mapGet k' m.
Proof.
  intros Hne. unfold mapDelete. induction m as [|[k0 v] m IH]; [reflexivity|].
  rewrite filter_cons. cbn [fst mapGet].
  destruct (decide (k0 <> k)) as [Hk|Hk]; cbn [mapGet].
  - case_decide; [reflexivity | exact IH].
  - apply dec_stable in Hk. subst k0. rewrite decide_False by assumption. exact IH.
Qed.

Lemma mapDelete_absent k m : k ∉ map fst m -> mapDelete k m = m.
Proof.
  unfold mapDelete. induction m as [|[k' v] m IH]; intros Hnot; [reflexivity|].
  cbn [map fst] in Hnot. apply not_elem_of_cons in Hnot as [Hne Hnot].
  rewrite filter_cons. cbn [fst]. rewrite decide_True by congruence.
  by rewrite IH.
Qed.

Lemma mapDelete_mapSet_new k p m : k ∉ map fst m -> mapDelete k (mapSet k p m) = m.
Proof.
  intros Hnot. rewrite mapSet_new by assumption. unfold mapDelete.
  rewrite filter_app, filter_cons. cbn [fst].
  rewrite decide_False by (intros H; by apply H).
  rewrite filter_nil, app_nil_r. by apply mapDelete_absent.
Qed.

End BoardPieces.

Section BoardPlacement.

Import Board.

#[local] Open Scope nat_scope.

Implicit Types (b : board) (t : pieceType).

Lemma canPlacePiece_spec b t baseX baseY :
  canPlacePiece b t baseX baseY = true
  <-> Forall (fun c => inGrid b c /\ gridAt (grid b) c.1 c.2 = None)
             (placedCells t baseX baseY).
Proof.
  unfold canPlacePiece, placedCells. rewrite forallb_forall, Forall_forall. split.
  - intros Hall c Hc. apply list_elem_of_In, in_map_iff in Hc as (d & <- & Hd).
    specialize (Hall d Hd). cbn zeta in Hall. cbn [fst snd].
    destruct ((baseX + d.1 <? 0)%Z || (baseX + d.1 >=? Z.of_nat (width b))%Z
              || (baseY + d.2 <? 0)%Z || (baseY + d.2 >=? Z.of_nat (height b))%Z)
      eqn:Ebounds; [discriminate|].
    rewrite !orb_false_iff in Ebounds. destruct Ebounds as [[[E1 E2] E3] E4].
    split; [unfold inGrid; cbn [fst snd]; lia|].
    by destruct (gridAt (grid b) (baseX + d.1) (baseY + d.2)).
  - intros Hall d Hd. cbn zeta.
    destruct (Hall (baseX + d.1, baseY + d.2)%Z) as [[Hx Hy] Hfree].
    { apply list_elem_of_In, in_map_iff. by exists d. }
    cbn [fst snd] in Hx, Hy, Hfree. rewrite Hfree.
    replace ((baseX + d.1 <? 0)%Z || (baseX + d.1 >=? Z.of_nat (width b))%Z
             || (baseY + d.2 <? 0)%Z || (baseY + d.2 >=? Z.of_nat (height b))%Z)
      with false; [reflexivity|].
    symmetry. rewrite !orb_false_iff. repeat split; lia.
Qed.

Lemma placeFold_spec (g : list (list (option cell))) (cs0 : list (Z * Z))
    (v : option cell) (baseX baseY : Z) (ds : list (Z * Z)) :
  fold_left
    (fun (acc : list (list (option cell)) * list (Z * Z)) (d : Z * Z) =>
       (gridSet acc.1 (baseX + d.1) (baseY + d.2) v,
        acc.2 ++ [((baseX + d.1)%Z, (baseY + d.2)%Z)]))
    ds (g, cs0)
  = (fold_left (fun g c => gridSet g c.1 c.2 v)
               (map (fun d => (baseX + d.1, baseY + d.2)%Z) ds) g,
     cs0 ++ map (fun d => (baseX + d.1, baseY + d.2)%Z) ds).
Proof.
  revert g cs0. induction ds as [|d ds IH]; intros g cs0; cbn [fold_left map].
  - by rewrite app_nil_r.
  - rewrite IH. cbn [fst snd]. by rewrite <- app_assoc.
Qed.

(** The board that a successful [placePiece] leaves. *)
Lemma placePiece_success b t baseX baseY :
  canPlacePiece b t baseX baseY = true ->
  placePiece b t baseX baseY
  = (Some (nextPieceId b),
     MkBoard (width b) (height b)
       (fold_left
          (fun g c => gridSet g c.1 c.2
                        (Some (Cell (nextPieceId b) (shapeColor (PIECE_SHAPES t)))))
          (placedCells t baseX baseY) (grid b))
       (mapSet (nextPieceId b)
               (Piece t (shapeColor (PIECE_SHAPES t)) (placedCells t baseX baseY))
               (pieces b))
       (nextPieceId b + 1)).
Proof.
  intros Hcan. unfold placePiece. rewrite Hcan. cbn [negb].
  cbn zeta. rewrite placeFold_spec. reflexivity.
Qed.

Lemma placePiece_failure b t baseX baseY :
  canPlacePiece b t baseX baseY = false -> placePiece b t baseX baseY = (None, b).
Proof. intros Hcan. unfold placePiece. by rewrite Hcan. Qed.

Lemma shape_cells_NoDup t : NoDup (shapeCells (PIECE_SHAPES t)).
Proof. destruct t; apply (bool_decide_unpack _); vm_compute; exact I. Qed.

Lemma shape_cells_four t : length (shapeCells (PIECE_SHAPES t)) = 4.
Proof. by destruct t. Qed.

Lemma placedCells_NoDup t baseX baseY : NoDup (placedCells t baseX baseY).
Proof.
  unfold placedCells. apply NoDup_fmap_2; [|apply shape_cells_NoDup].
  intros [x1 y1] [x2 y2] [= H1 H2]. cbn in *. f_equal; lia.
Qed.

Lemma placedCells_four t baseX baseY : length (placedCells t baseX baseY) = 4.
Proof. unfold placedCells. rewrite length_map. apply shape_cells_four. Qed.

Lemma mapGet_fresh b pid p :
  boardOK b -> mapGet pid (pieces b) = Some p -> pid < nextPieceId b.
Proof.
  intros Hok Hget. apply mapGet_Some_elem in Hget.
  pose proof (ok_fresh b Hok) as Hfresh. rewrite Forall_forall in Hfresh.
  apply (Hfresh (pid, p) Hget).
Qed.

Lemma next_id_unused b : boardOK b -> nextPieceId b ∉ map fst (pieces b).
Proof.
  intros Hok Hin. apply list_elem_of_In, in_map_iff in Hin as ([k p] & Hk & Hin).
  cbn in Hk. subst k.
  pose proof (ok_fresh b Hok) as Hfresh. rewrite Forall_forall in Hfresh.
  specialize (Hfresh _ (proj2 (list_elem_of_In _ _) Hin)). cbn in Hfresh. lia.
Qed.

(** A successful placement keeps the board well formed. *)
Lemma placePiece_OK b t baseX baseY :
  boardOK b -> boardOK (placePiece b t baseX baseY).2.
Proof.
  intros Hok. destruct (canPlacePiece b t baseX baseY) eqn:Hcan;
    [|by rewrite placePiece_failure].
  rewrite placePiece_success by assumption. cbn [snd].
  apply canPlacePiece_spec in Hcan. rewrite Forall_forall in Hcan.
  pose proof (next_id_unused b Hok) as Hnew.
  set (placed := placedCells t baseX baseY) in *.
  set (col := shapeColor (PIECE_SHAPES t)).
  constructor; cbn [width height grid pieces nextPieceId].
  - apply setCells_rectangular, Hok.
  - rewrite mapSet_new by assumption. rewrite map_app. cbn [map fst].
    apply NoDup_app. split; [apply Hok|]. split.
    + intros k Hk Hk'. apply list_elem_of_singleton in Hk'. by subst k.
    + apply NoDup_singleton.
  - rewrite mapSet_new by assumption. apply Forall_app. split.
    + eapply Forall_impl; [apply Hok|]. intros kv Hkv. cbn in *. lia.
    + constructor; [cbn; lia | constructor].
  - rewrite mapSet_new by assumption. apply Forall_app. split; [apply Hok|].
    constructor; [apply placedCells_four | constructor].
  - intros pid p Hget. destruct (decide (nextPieceId b = pid)) as [<-|Hne].
    + rewrite mapGet_mapSet_eq in Hget. injection Hget as <-. cbn [cells color].
      split; [apply placedCells_NoDup|].
      apply Forall_forall. intros [x y] Hc. destruct (Hcan _ Hc) as [[Hx Hy] _].
      split; [by split|]. cbn [fst snd] in *.
      apply (setCells_inside (width b) (height b)); try assumption. apply Hok.
    + rewrite mapGet_mapSet_ne in Hget by assumption.
      destruct (ok_cells b Hok pid p Hget) as [Hnd Hall]. split; [assumption|].
      apply Forall_forall. intros [x y] Hc. rewrite Forall_forall in Hall.
      destruct (Hall _ Hc) as [Hin Hat]. split; [exact Hin|]. cbn [fst snd] in *.
      rewrite setCells_outside; [exact Hat|].
      intros Hpl. destruct (Hcan _ Hpl) as [_ Hfree]. cbn [fst snd] in Hfree. congruence.
  - intros x y c Hat. destruct (decide ((x, y) ∈ placed)) as [Hpl|Hpl].
    + destruct (Hcan _ Hpl) as [[Hx Hy] _]. cbn [fst snd] in *.
      rewrite (setCells_inside (width b) (height b)) in Hat; try assumption; [|apply Hok].
      injection Hat as <-. cbn [pieceId]. eexists. rewrite mapGet_mapSet_eq.
      split; [reflexivity | exact Hpl].
    + rewrite setCells_outside in Hat by assumption.
      destruct (ok_owner b Hok x y c Hat) as (p & Hget & Hin).
      exists p. split; [|exact Hin]. rewrite mapGet_mapSet_ne; [exact Hget|].
      pose proof (mapGet_fresh b _ p Hok Hget). lia.
Qed.

Lemma new_OK (w h : nat) : boardOK (new w h).
Proof.
  unfold new, clear. constructor; cbn [width height grid pieces nextPieceId].
  - split; [apply length_replicate|].
    apply Forall_forall. intros row Hrow.
    apply elem_of_replicate in Hrow as [-> _]. apply length_replicate.
  - cbn. apply NoDup_nil_2.
  - constructor.
  - constructor.
  - intros pid p Hget. discriminate.
  - intros x y c Hat. exfalso. unfold gridAt in Hat.
    case_decide; [|discriminate].
    destruct (replicate h (replicate w None) !! Z.to_nat y) as [row|] eqn:Erow;
      [|discriminate].
    apply lookup_replicate in Erow as [-> _].
    destruct (replicate w (@None cell) !! Z.to_nat x) as [oc|] eqn:Ec; [|discriminate].
    apply lookup_replicate in Ec as [-> _]. discriminate.
Qed.

End BoardPlacement.

Section BoardRemoval.

Import Board.

#[local] Open Scope nat_scope.

Implicit Types (b : board) (t : pieceType).

(** Two grids of the same size with the same cells are the same. *)
Lemma grid_ext (w h : nat) (g1 g2 : list (list (option cell))) :
  rectangular w h g1 -> rectangular w h g2 ->
  (forall x y, (0 <= x < Z.of_nat w)%Z -> (0 <= y < Z.of_nat h)%Z ->
               gridAt g1 x y = gridAt g2 x y) ->
  g1 = g2.
Proof.
  intros [Hh1 Hw1] [Hh2 Hw2] Hsame. apply list_eq. intros i.
  destruct (decide (i < h)) as [Hi|Hi].
  - destruct (lookup_lt_is_Some_2 g1 i ltac:(lia)) as [r1 Hr1].
    destruct (lookup_lt_is_Some_2 g2 i ltac:(lia)) as [r2 Hr2].
    rewrite Hr1, Hr2. f_equal.
    rewrite Forall_forall in Hw1, Hw2.
    pose proof (Hw1 r1 (list_elem_of_lookup_2 _ _ _ Hr1)) as Hl1.
    pose proof (Hw2 r2 (list_elem_of_lookup_2 _ _ _ Hr2)) as Hl2.
    apply list_eq. intros j. destruct (decide (j < w)) as [Hj|Hj].
    + specialize (Hsame (Z.of_nat j) (Z.of_nat i) ltac:(lia) ltac:(lia)).
      unfold gridAt in Hsame. rewrite !decide_True in Hsame by lia.
      rewrite !Nat2Z.id, Hr1, Hr2 in Hsame.
      destruct (lookup_lt_is_Some_2 r1 j ltac:(lia)) as [c1 Hc1].
      destruct (lookup_lt_is_Some_2 r2 j ltac:(lia)) as [c2 Hc2].
      rewrite Hc1, Hc2 in Hsame |- *. by rewrite Hsame.
    + rewrite !lookup_ge_None_2 by lia. reflexivity.
  - rewrite !lookup_ge_None_2 by lia. reflexivity.
Qed.

Lemma removePiece_missing b pid :
  mapGet pid (pieces b) = None -> removePiece b pid = (false, b).
Proof. intros Hget. unfold removePiece. by rewrite Hget. Qed.

Lemma removePiece_found b pid p :
  mapGet pid (pieces b) = Some p ->
  removePiece b pid
  = (true,
     MkBoard (width b) (height b)
             (fold_left (fun g c => gridSet g c.1 c.2 None) (cells p) (grid b))
             (mapDelete pid (pieces b)) (nextPieceId b)).
Proof. intros Hget. unfold removePiece. by rewrite Hget. Qed.

(** The cells of two different pieces are apart. *)
Lemma cells_apart b pid1 p1 pid2 p2 (c : Z * Z) :
  boardOK b ->
  mapGet pid1 (pieces b) = Some p1 -> mapGet pid2 (pieces b) = Some p2 ->
  c ∈ cells p1 -> c ∈ cells p2 -> pid1 = pid2.
Proof.
  intros Hok H1 H2 Hc1 Hc2.
  destruct (ok_cells b Hok pid1 p1 H1) as [_ Hall1].
  destruct (ok_cells b Hok pid2 p2 H2) as [_ Hall2].
  rewrite Forall_forall in Hall1, Hall2.
  destruct (Hall1 c Hc1) as [_ E1]. destruct (Hall2 c Hc2) as [_ E2].
  congruence.
Qed.

Lemma removePiece_OK b pid : boardOK b -> boardOK (removePiece b pid).2.
Proof.
  intros Hok. destruct (mapGet pid (pieces b)) as [p|] eqn:Hget;
    [|by rewrite removePiece_missing].
  rewrite (removePiece_found b pid p Hget). cbn [snd].
  destruct (ok_cells b Hok pid p Hget) as [Hnd Hall]. rewrite Forall_forall in Hall.
  constructor; cbn [width height grid pieces nextPieceId].
  - apply setCells_rectangular, Hok.
  - rewrite mapDelete_keys. apply NoDup_filter, Hok.
  - unfold mapDelete. apply Forall_forall. intros kv Hkv.
    apply list_elem_of_filter in Hkv as [_ Hkv].
    pose proof (ok_fresh b Hok) as Hf. rewrite Forall_forall in Hf. by apply Hf.
  - unfold mapDelete. apply Forall_forall. intros kv Hkv.
    apply list_elem_of_filter in Hkv as [_ Hkv].
    pose proof (ok_four b Hok) as Hf. rewrite Forall_forall in Hf. by apply Hf.
  - intros pid' p' Hget'. destruct (decide (pid = pid')) as [<-|Hne].
    + by rewrite mapGet_mapDelete_eq in Hget'.
    + rewrite mapGet_mapDelete_ne in Hget' by assumption.
      destruct (ok_cells b Hok pid' p' Hget') as [Hnd' Hall']. split; [assumption|].
      apply Forall_forall. intros [x y] Hc. rewrite Forall_forall in Hall'.
      destruct (Hall' _ Hc) as [Hin Hat]. split; [exact Hin|]. cbn [fst snd] in *.
      rewrite setCells_outside; [exact Hat|].
      intros Hc'. apply Hne. by apply (cells_apart b pid p pid' p' (x, y)).
  - intros x y c Hat. destruct (decide ((x, y) ∈ cells p)) as [Hc|Hc].
    + destruct (Hall _ Hc) as [[Hx Hy] _]. cbn [fst snd] in *.
      rewrite (setCells_inside (width b) (height b)) in Hat; try assumption;
        [discriminate | apply Hok].
    + rewrite setCells_outside in Hat by assumption.
      destruct (ok_owner b Hok x y c Hat) as (p' & Hget' & Hin).
      exists p'. split; [|exact Hin]. rewrite mapGet_mapDelete_ne; [exact Hget'|].
      intros Heq. rewrite <- Heq, Hget in Hget'. injection Hget' as <-. contradiction.
Qed.

(** Clearing the cells that a placement filled gives the grid back. *)
Lemma clear_placed (w h : nat) (g : list (list (option cell))) (cs : list (Z * Z))
    (v : option cell) :
  rectangular w h g ->
  Forall (fun c => ((0 <= c.1 < Z.of_nat w)%Z /\ (0 <= c.2 < Z.of_nat h)%Z)
                   /\ gridAt g c.1 c.2 = None) cs ->
  fold_left (fun g c => gridSet g c.1 c.2 None) cs
            (fold_left (fun g c => gridSet g c.1 c.2 v) cs g)
  = g.
Proof.
  intros Hg Hall. rewrite Forall_forall in Hall.
  apply (grid_ext w h); [by do 2 apply setCells_rectangular | assumption |].
  intros x y Hx Hy. destruct (decide ((x, y) ∈ cs)) as [Hc|Hc].
  - rewrite (setCells_inside w h); try assumption; [|by apply setCells_rectangular].
    destruct (Hall _ Hc) as [_ Hfree]. cbn [fst snd] in Hfree. by rewrite Hfree.
  - by rewrite !setCells_outside.
Qed.

End BoardRemoval.

Section BoardCount.

Import Board.

#[local] Open Scope nat_scope.

Implicit Types (b : board).

Lemma count_row b (y : nat) (xs : list nat) (count : nat) :
  fold_left (fun count x => if occupied b x y then count + 1 else count) xs count
  = count + length (x ← xs; if occupied b x y then [(Z.of_nat x, Z.of_nat y)] else []).
Proof.
  revert count. induction xs as [|x xs IH]; intros count; cbn [fold_left mbind list_bind].
  - cbn. lia.
  - rewrite IH, length_app. destruct (occupied b x y); cbn [length]; lia.
Qed.

Lemma count_rows b (ys : list nat) (count : nat) :
  fold_left
    (fun count y =>
       fold_left (fun count x => if occupied b x y then count + 1 else count)
                 (seq 0 (width b)) count)
    ys count
  = count + length (y ← ys; x ← seq 0 (width b);
                    if occupied b x y then [(Z.of_nat x, Z.of_nat y)] else []).
Proof.
  revert count. induction ys as [|y ys IH]; intros count; cbn [fold_left mbind list_bind].
  - cbn. lia.
  - rewrite IH, count_row, length_app. lia.
Qed.

Lemma count_occupied b : getFilledCellCount b = length (occupiedPositions b).
Proof. unfold getFilledCellCount, occupiedPositions. by rewrite count_rows. Qed.

Lemma occupiedPositions_elem b (c : Z * Z) :
  rectangular (width b) (height b) (grid b) ->
  c ∈ occupiedPositions b <-> exists v, gridAt (grid b) c.1 c.2 = Some v.
Proof.
  intros Hg. unfold occupiedPositions. rewrite list_elem_of_bind. split.
  - intros (y & Hc & Hy). apply list_elem_of_bind in Hc as (x & Hc & Hx).
    unfold occupied in Hc.
    destruct (gridAt (grid b) (Z.of_nat x) (Z.of_nat y)) as [v|] eqn:E.
    + apply list_elem_of_singleton in Hc as ->. by exists v.
    + by apply elem_of_nil in Hc.
  - intros [v Hv]. destruct c as [x y]. cbn [fst snd] in Hv.
    destruct (gridAt_Some_inside _ _ _ _ _ _ Hg Hv) as [Hx Hy].
    exists (Z.to_nat y). split; [|apply elem_of_seq; lia].
    apply list_elem_of_bind. exists (Z.to_nat x). split; [|apply elem_of_seq; lia].
    unfold occupied. rewrite !Z2Nat.id by lia. rewrite Hv.
    apply list_elem_of_singleton. reflexivity.
Qed.

Lemma occupiedPositions_NoDup b : NoDup (occupiedPositions b).
Proof.
  unfold occupiedPositions. apply NoDup_bind; [| |apply NoDup_seq].
  - intros y1 y2 c _ _ H1 H2.
    apply list_elem_of_bind in H1 as (x1 & H1 & _).
    apply list_elem_of_bind in H2 as (x2 & H2 & _).
    destruct (occupied b x1 y1); [|by apply elem_of_nil in H1].
    destruct (occupied b x2 y2); [|by apply elem_of_nil in H2].
    apply list_elem_of_singleton in H1, H2. subst c. injection H2 as _ H. lia.
  - intros y _. apply NoDup_bind; [| |apply NoDup_seq].
    + intros x1 x2 c _ _ H1 H2.
      destruct (occupied b x1 y); [|by apply elem_of_nil in H1].
      destruct (occupied b x2 y); [|by apply elem_of_nil in H2].
      apply list_elem_of_singleton in H1, H2. subst c. injection H2 as H. lia.
    + intros x _. destruct (occupied b x y); [apply NoDup_singleton | apply NoDup_nil_2].
Qed.

Lemma pieceCells_elem b (c : Z * Z) :
  boardOK b ->
  c ∈ pieceCells b <-> exists pid p, mapGet pid (pieces b) = Some p /\ c ∈ cells p.
Proof.
  intros Hok. unfold pieceCells. rewrite list_elem_of_bind. split.
  - intros ([pid p] & Hc & Hkv). exists pid, p. split; [|exact Hc].
    apply mapGet_elem; [apply Hok | exact Hkv].
  - intros (pid & p & Hget & Hc). exists (pid, p). split; [exact Hc|].
    by apply mapGet_Some_elem.
Qed.

Lemma pieceCells_NoDup b : boardOK b -> NoDup (pieceCells b).
Proof.
  intros Hok. unfold pieceCells. apply NoDup_bind.
  - intros [pid1 p1] [pid2 p2] c H1 H2 Hc1 Hc2. cbn [snd] in *.
    pose proof (mapGet_elem _ _ _ (ok_keys b Hok) H1) as G1.
    pose proof (mapGet_elem _ _ _ (ok_keys b Hok) H2) as G2.
    assert (pid1 = pid2) as -> by (by apply (cells_apart b pid1 p1 pid2 p2 c)).
    congruence.
  - intros [pid p] Hkv. cbn [snd].
    apply (ok_cells b Hok pid p). apply mapGet_elem; [apply Hok | exact Hkv].
  - apply (NoDup_fmap_1 fst), Hok.
Qed.

(** On a well-formed board the occupied cells are the cells of the
    pieces. *)
Lemma occupied_are_piece_cells b : boardOK b -> occupiedPositions b ≡ₚ pieceCells b.
Proof.
  intros Hok. apply NoDup_Permutation.
  - apply occupiedPositions_NoDup.
  - by apply pieceCells_NoDup.
  - intros c. rewrite occupiedPositions_elem by apply Hok.
    rewrite pieceCells_elem by assumption. split.
    + intros [v Hv]. destruct c as [x y].
      destruct (ok_owner b Hok x y v Hv) as (p & Hget & Hin). by exists (pieceId v), p.
    + intros (pid & p & Hget & Hin).
      destruct (ok_cells b Hok pid p Hget) as [_ Hall]. rewrite Forall_forall in Hall.
      destruct (Hall c Hin) as [_ Hat]. by eexists.
Qed.

Lemma pieceCells_length b : boardOK b -> length (pieceCells b) = 4 * length (pieces b).
Proof.
  intros Hok. unfold pieceCells. pose proof (ok_four b Hok) as Hfour.
  induction Hfour as [|kv m Hkv _ IH]; [reflexivity|].
  cbn [mbind list_bind] in *. rewrite length_app, Hkv. cbn [length].
  change (list_bind _ _ (λ kv0 : nat * piece, cells kv0.2) m)
    with (m ≫= (λ kv0 : nat * piece, cells kv0.2)). lia.
Qed.

Lemma count_four b : boardOK b -> getFilledCellCount b = 4 * length (pieces b).
Proof.
  intros Hok. rewrite count_occupied.
  rewrite (Permutation_length (occupied_are_piece_cells b Hok)).
  by apply pieceCells_length.
Qed.

End BoardCount.

Section BoardDrop.

Import Board.

#[local] Open Scope Z_scope.

Implicit Types (b : board) (g : list (list (option cell))) (pid : nat).

Lemma clearBelow_range g pid x (n : nat) : 0 <= clearBelow g pid x n <= Z.of_nat n.
Proof.
  induction n as [|n IH]; cbn [clearBelow]; [lia|].
  destruct (gridAt g x (Z.of_nat n)) as [c|]; [case_decide|]; lia.
Qed.

(** The rows counted by [clearBelow] do not stop the piece. *)
Lemma clearBelow_free g pid x (n : nat) (j : Z) :
  0 < j <= clearBelow g pid x n -> freeFor pid (gridAt g x (Z.of_nat n - j)).
Proof.
  revert j. induction n as [|n IH]; intros j Hj; cbn [clearBelow] in Hj; [lia|].
  destruct (gridAt g x (Z.of_nat n)) as [c|] eqn:E.
  - case_decide as Hc; [lia|].
    destruct (decide (j = 1)) as [->|Hj1].
    + replace (Z.of_nat (S n) - 1) with (Z.of_nat n) by lia. by rewrite E.
    + replace (Z.of_nat (S n) - j) with (Z.of_nat n - (j - 1)) by lia.
      apply IH. lia.
  - destruct (decide (j = 1)) as [->|Hj1].
    + replace (Z.of_nat (S n) - 1) with (Z.of_nat n) by lia. by rewrite E.
    + replace (Z.of_nat (S n) - j) with (Z.of_nat n - (j - 1)) by lia.
      apply IH. lia.
Qed.

(** Where [clearBelow] stops short of the bottom, a cell of another
    piece lies just below. *)
Lemma clearBelow_stopped g pid x (n : nat) :
  clearBelow g pid x n < Z.of_nat n ->
  exists c, gridAt g x (Z.of_nat n - clearBelow g pid x n - 1) = Some c
            /\ pieceId c <> pid.
Proof.
  induction n as [|n IH]; cbn [clearBelow]; [lia|].
  destruct (gridAt g x (Z.of_nat n)) as [c|] eqn:E.
  - case_decide as Hc.
    + intros _. exists c. split; [|exact Hc].
      replace (Z.of_nat (S n) - 0 - 1) with (Z.of_nat n) by lia. exact E.
    + intros Hlt. destruct IH as (c' & Hc' & Hne); [lia|]. exists c'. split; [|exact Hne].
      rewrite <- Hc'. f_equal. lia.
  - intros Hlt. destruct IH as (c' & Hc' & Hne); [lia|]. exists c'. split; [|exact Hne].
    rewrite <- Hc'. f_equal. lia.
Qed.

Lemma minDropFold_le g pid (cs : list (Z * Z)) (m0 : Z) :
  let m := fold_left (fun minDrop c =>
                        Z.min minDrop
                              (Z.min (clearBelow g pid c.1 (Z.to_nat c.2)) c.2)) cs m0 in
  m <= m0 /\ Forall (fun c => m <= dropOf g pid c) cs.
Proof.
  revert m0. induction cs as [|c cs IH]; intros m0; cbn [fold_left].
  - split; [lia | constructor].
  - destruct (IH (Z.min m0 (Z.min (clearBelow g pid c.1 (Z.to_nat c.2)) c.2)))
      as [Hle Hall].
    cbn zeta in *. split; [lia|]. constructor; [unfold dropOf; lia | exact Hall].
Qed.

Lemma minDropFold_attained g pid (cs : list (Z * Z)) (m0 : Z) :
  let m := fold_left (fun minDrop c =>
                        Z.min minDrop
                              (Z.min (clearBelow g pid c.1 (Z.to_nat c.2)) c.2)) cs m0 in
  m = m0 \/ exists c, c ∈ cs /\ m = dropOf g pid c.
Proof.
  revert m0. induction cs as [|c cs IH]; intros m0; cbn [fold_left].
  - by left.
  - destruct (IH (Z.min m0 (Z.min (clearBelow g pid c.1 (Z.to_nat c.2)) c.2)))
      as [Heq|(c' & Hc' & Heq)]; cbn zeta in *.
    + rewrite Heq.
      destruct (Z.min_spec m0 (Z.min (clearBelow g pid c.1 (Z.to_nat c.2)) c.2))
        as [[_ ->]|[_ ->]]; [by left|].
      right. exists c. split; [apply list_elem_of_here | reflexivity].
    + right. exists c'. split; [by apply list_elem_of_further | exact Heq].
Qed.

Lemma minDropOf_le b pid (cs : list (Z * Z)) :
  minDropOf b pid cs <= Z.of_nat (height b)
  /\ Forall (fun c => minDropOf b pid cs <= dropOf (grid b) pid c) cs.
Proof. apply (minDropFold_le (grid b) pid cs (Z.of_nat (height b))). Qed.

Lemma minDropOf_attained b pid (cs : list (Z * Z)) :
  minDropOf b pid cs = Z.of_nat (height b)
  \/ exists c, c ∈ cs /\ minDropOf b pid cs = dropOf (grid b) pid c.
Proof. apply (minDropFold_attained (grid b) pid cs (Z.of_nat (height b))). Qed.

Lemma dropOf_nonneg g pid (c : Z * Z) : 0 <= c.2 -> 0 <= dropOf g pid c.
Proof.
  intros Hc. unfold dropOf.
  pose proof (clearBelow_range g pid c.1 (Z.to_nat c.2)). lia.
Qed.

Lemma minDropOf_nonneg b pid (cs : list (Z * Z)) :
  Forall (fun c => 0 <= c.2) cs -> 0 <= minDropOf b pid cs.
Proof.
  intros Hall.
  destruct (minDropOf_attained b pid cs) as [->|(c & Hc & ->)]; [lia|].
  apply dropOf_nonneg. rewrite Forall_forall in Hall. by apply Hall.
Qed.

Lemma dropPiece_missing b pid :
  mapGet pid (pieces b) = None -> dropPiece b pid = (0, b).
Proof. intros Hget. unfold dropPiece. by rewrite Hget. Qed.

Lemma dropPiece_rests b pid p :
  mapGet pid (pieces b) = Some p -> minDropOf b pid (cells p) = 0 ->
  dropPiece b pid = (0, b).
Proof. intros Hget Hmin. unfold dropPiece. rewrite Hget. cbn zeta. by rewrite decide_True. Qed.

Lemma dropPiece_falls b pid p :
  mapGet pid (pieces b) = Some p -> minDropOf b pid (cells p) <> 0 ->
  dropPiece b pid
  = (minDropOf b pid (cells p),
     MkBoard (width b) (height b)
       (fold_left (fun g c => gridSet g c.1 c.2 (Some (Cell pid (color p))))
                  (lowered (minDropOf b pid (cells p)) (cells p))
                  (fold_left (fun g c => gridSet g c.1 c.2 None) (cells p) (grid b)))
       (mapSet pid (Piece (type p) (color p)
                          (lowered (minDropOf b pid (cells p)) (cells p)))
               (pieces b))
       (nextPieceId b)).
Proof.
  intros Hget Hmin. unfold dropPiece. rewrite Hget. cbn zeta.
  by rewrite decide_False.
Qed.

End BoardDrop.

Section BoardDropOK.

Import Board.

#[local] Open Scope Z_scope.

Implicit Types (b : board) (g : list (list (option cell))) (pid : nat) (p : piece).

Lemma piece_rows_nonneg b pid p :
  boardOK b -> mapGet pid (pieces b) = Some p -> Forall (fun c => 0 <= c.2) (cells p).
Proof.
  intros Hok Hget. destruct (ok_cells b Hok pid p Hget) as [_ Hall].
  eapply Forall_impl; [exact Hall|]. intros c [[_ Hy] _]. lia.
Qed.

(** Where a falling piece lands: inside the grid, on cells that are
    free or its own. *)
Lemma drop_target b pid p :
  boardOK b -> mapGet pid (pieces b) = Some p ->
  let d := minDropOf b pid (cells p) in
  0 <= d
  /\ Forall (fun c => d <= c.2
                      /\ inGrid b (c.1, c.2 - d)
                      /\ (0 < d -> freeFor pid (gridAt (grid b) c.1 (c.2 - d))))
            (cells p).
Proof.
  intros Hok Hget d.
  pose proof (minDropOf_nonneg b pid (cells p) (piece_rows_nonneg b pid p Hok Hget)) as Hd.
  split; [exact Hd|].
  destruct (minDropOf_le b pid (cells p)) as [_ Hle].
  destruct (ok_cells b Hok pid p Hget) as [_ Hall].
  rewrite Forall_forall in Hle, Hall. apply Forall_forall. intros c Hc.
  specialize (Hle c Hc). destruct (Hall c Hc) as [[Hx Hy] _].
  fold d in Hle. unfold dropOf in Hle.
  split; [lia|]. split; [unfold inGrid; cbn [fst snd]; lia|].
  intros Hpos.
  replace (c.2 - d) with (Z.of_nat (Z.to_nat c.2) - d) by lia.
  apply clearBelow_free. lia.
Qed.

Lemma lowered_NoDup (d : Z) (cs : list (Z * Z)) : NoDup cs -> NoDup (lowered d cs).
Proof.
  intros Hnd. unfold lowered. apply NoDup_fmap_2; [|exact Hnd].
  intros [x1 y1] [x2 y2] [= H1 H2]. cbn in *. f_equal; lia.
Qed.

Lemma lowered_elem (d : Z) (cs : list (Z * Z)) (c : Z * Z) :
  c ∈ lowered d cs <-> (c.1, c.2 + d) ∈ cs.
Proof.
  unfold lowered. rewrite list_elem_of_fmap. split.
  - intros ([x y] & -> & Hin). cbn [fst snd]. by replace (y - d + d) with y by lia.
  - intros Hin. exists (c.1, c.2 + d). split; [|exact Hin].
    destruct c as [x y]. cbn [fst snd]. f_equal. lia.
Qed.

Lemma Forall_mapSet (P : nat * piece -> Prop) (k : nat) (v : piece) (m : list (nat * piece)) :
  Forall P m -> P (k, v) -> Forall P (mapSet k v m).
Proof.
  intros Hall Hkv. induction Hall as [|[k' v'] m Hx Hm IH]; cbn [mapSet].
  - by constructor.
  - case_decide; by constructor.
Qed.

Lemma mapGet_keys (k : nat) (m : list (nat * piece)) (p : piece) :
  mapGet k m = Some p -> k ∈ map fst m.
Proof.
  intros Hget. destruct (decide (k ∈ map fst m)) as [Hin|Hnot]; [exact Hin|].
  apply mapGet_None in Hnot. congruence.
Qed.

(** A drop keeps the board well formed. *)
Lemma dropPiece_OK b pid : boardOK b -> boardOK (dropPiece b pid).2.
Proof.
  intros Hok. destruct (mapGet pid (pieces b)) as [p|] eqn:Hget;
    [|by rewrite dropPiece_missing].
  destruct (decide (minDropOf b pid (cells p) = 0)) as [Hz|Hnz];
    [by rewrite (dropPiece_rests b pid p)|].
  rewrite (dropPiece_falls b pid p Hget Hnz). cbn [snd].
  destruct (drop_target b pid p Hok Hget) as [Hd Htarget]. cbn zeta in Hd, Htarget.
  set (d := minDropOf b pid (cells p)) in *.
  assert (Hpos : 0 < d) by lia.
  rewrite Forall_forall in Htarget.
  destruct (ok_cells b Hok pid p Hget) as [Hnd Hall]. rewrite Forall_forall in Hall.
  assert (Hg1 : rectangular (width b) (height b)
                  (fold_left (fun g c => gridSet g c.1 c.2 None) (cells p) (grid b)))
    by apply setCells_rectangular, Hok.
  assert (Hmoved : forall c, c ∈ lowered d (cells p) ->
                     inGrid b c /\ freeFor pid (gridAt (grid b) c.1 c.2)).
  { intros c Hc. apply lowered_elem in Hc.
    destruct (Htarget _ Hc) as (_ & Hin & Hfree). cbn [fst snd] in *.
    replace (c.2 + d - d) with c.2 in * by lia.
    split; [destruct c; exact Hin | by apply Hfree]. }
  constructor; cbn [width height grid pieces nextPieceId].
  - by apply setCells_rectangular.
  - rewrite mapSet_keys by (by eapply mapGet_keys). apply Hok.
  - apply Forall_mapSet; [apply Hok|]. cbn. by apply (mapGet_fresh b pid p).
  - apply Forall_mapSet; [apply Hok|]. cbn [snd cells].
    unfold lowered. rewrite length_map.
    pose proof (ok_four b Hok) as Hfour. rewrite Forall_forall in Hfour.
    apply (Hfour (pid, p)). by apply mapGet_Some_elem.
  - intros pid' p' Hget'. destruct (decide (pid = pid')) as [<-|Hne].
    + rewrite mapGet_mapSet_eq in Hget'. injection Hget' as <-. cbn [cells color].
      split; [by apply lowered_NoDup|].
      apply Forall_forall. intros [x y] Hc. destruct (Hmoved _ Hc) as [[Hx Hy] _].
      split; [by split|]. cbn [fst snd] in *.
      by apply (setCells_inside (width b) (height b)).
    + rewrite mapGet_mapSet_ne in Hget' by assumption.
      destruct (ok_cells b Hok pid' p' Hget') as [Hnd' Hall']. split; [assumption|].
      apply Forall_forall. intros [x y] Hc. rewrite Forall_forall in Hall'.
      destruct (Hall' _ Hc) as [Hin Hat]. split; [exact Hin|]. cbn [fst snd] in *.
      rewrite !setCells_outside; [exact Hat| |].
      * intros Hc'. apply Hne. by apply (cells_apart b pid p pid' p' (x, y)).
      * intros Hc'. destruct (Hmoved _ Hc') as [_ Hfree]. cbn [fst snd] in Hfree.
        rewrite Hat in Hfree. cbn in Hfree. congruence.
  - intros x y c Hat. destruct (decide ((x, y) ∈ lowered d (cells p))) as [Hc|Hc].
    + destruct (Hmoved _ Hc) as [[Hx Hy] _]. cbn [fst snd] in *.
      rewrite (setCells_inside (width b) (height b)) in Hat by assumption.
      injection Hat as <-. cbn [pieceId]. eexists. rewrite mapGet_mapSet_eq.
      split; [reflexivity | exact Hc].
    + rewrite setCells_outside in Hat by assumption.
      destruct (decide ((x, y) ∈ cells p)) as [Hold|Hold].
      * destruct (Hall _ Hold) as [[Hx Hy] _]. cbn [fst snd] in *.
        rewrite (setCells_inside (width b) (height b)) in Hat; try assumption;
          [discriminate | apply Hok].
      * rewrite setCells_outside in Hat by assumption.
        destruct (ok_owner b Hok x y c Hat) as (p' & Hget' & Hin).
        exists p'. split; [|exact Hin]. rewrite mapGet_mapSet_ne; [exact Hget'|].
        intros Heq. rewrite <- Heq, Hget in Hget'. injection Hget' as <-. contradiction.
Qed.

End BoardDropOK.

Section BoardDropOnce.

Import Board.

#[local] Open Scope Z_scope.

Implicit Types (b : board) (g : list (list (option cell))) (pid : nat) (p : piece).

(** What a drop does to the pieces: the dropped one is lowered as a
    whole, the others stay. *)
Lemma dropPiece_pieces b pid p :
  boardOK b -> mapGet pid (pieces b) = Some p ->
  let d := (dropPiece b pid).1 in
  let b' := (dropPiece b pid).2 in
  0 <= d
  /\ mapGet pid (pieces b') = Some (Piece (type p) (color p) (lowered d (cells p)))
  /\ (forall pid', pid' <> pid -> mapGet pid' (pieces b') = mapGet pid' (pieces b))
  /\ map fst (pieces b') = map fst (pieces b)
  /\ width b' = width b /\ height b' = height b /\ nextPieceId b' = nextPieceId b.
Proof.
  intros Hok Hget.
  destruct (decide (minDropOf b pid (cells p) = 0)) as [Hz|Hnz].
  - rewrite (dropPiece_rests b pid p Hget Hz). cbn [fst snd].
    split; [lia|]. split; [|by repeat split].
    rewrite Hget. f_equal. destruct p as [t c cs]. cbn [type color cells].
    f_equal. unfold lowered. rewrite <- (map_id cs) at 1. apply map_ext.
    intros [x y]. cbn. f_equal. lia.
  - rewrite (dropPiece_falls b pid p Hget Hnz). cbn [fst snd pieces width height nextPieceId].
    destruct (drop_target b pid p Hok Hget) as [Hd _]. cbn zeta in Hd.
    split; [exact Hd|]. split; [apply mapGet_mapSet_eq|].
    split; [intros pid' Hne; by apply mapGet_mapSet_ne|].
    split; [|by repeat split].
    apply mapSet_keys. by eapply mapGet_keys.
Qed.

(** A piece that has been dropped rests. *)
Lemma dropPiece_twice b pid :
  boardOK b ->
  dropPiece (dropPiece b pid).2 pid = (0, (dropPiece b pid).2).
Proof.
  intros Hok. destruct (mapGet pid (pieces b)) as [p|] eqn:Hget;
    [|rewrite (dropPiece_missing b pid Hget); cbn [snd]; by apply dropPiece_missing].
  destruct (decide (minDropOf b pid (cells p) = 0)) as [Hz|Hnz].
  { rewrite (dropPiece_rests b pid p Hget Hz). cbn [snd].
    by apply (dropPiece_rests b pid p). }
  pose proof (dropPiece_OK b pid Hok) as Hok'.
  destruct (dropPiece_pieces b pid p Hok Hget) as (_ & Hget' & _).
  cbn zeta in Hget'.
  destruct (drop_target b pid p Hok Hget) as [Hd Htarget]. cbn zeta in Hd, Htarget.
  rewrite Forall_forall in Htarget.
  destruct (ok_cells b Hok pid p Hget) as [Hnd Hall]. rewrite Forall_forall in Hall.
  revert Hok' Hget'. rewrite (dropPiece_falls b pid p Hget Hnz). cbn [fst snd].
  set (d := minDropOf b pid (cells p)) in *.
  set (g' := fold_left (fun g c => gridSet g c.1 c.2 (Some (Cell pid (color p))))
                       (lowered d (cells p))
                       (fold_left (fun g c => gridSet g c.1 c.2 None) (cells p) (grid b))).
  set (b' := MkBoard _ _ _ _ _). intros Hok' Hget'.
  apply (dropPiece_rests b' pid _ Hget').
  cbn [cells].
  assert (Hge : 0 <= minDropOf b' pid (lowered d (cells p))).
  { apply minDropOf_nonneg.
    apply (piece_rows_nonneg b' pid _ Hok' Hget'). }
  assert (Hle : exists c', c' ∈ lowered d (cells p) /\ dropOf g' pid c' = 0).
  { assert (Hne : exists c, c ∈ cells p /\ d = dropOf (grid b) pid c).
    { destruct (minDropOf_attained b pid (cells p)) as [Hh|Hc]; [|exact Hc].
      exfalso. pose proof (ok_four b Hok) as Hfour. rewrite Forall_forall in Hfour.
      specialize (Hfour (pid, p) (mapGet_Some_elem _ _ _ Hget)). cbn [snd] in Hfour.
      destruct (cells p) as [|c cs] eqn:Ecs; [discriminate|].
      destruct (Htarget c (list_elem_of_here _ _)) as (Hdc & _).
      destruct (Hall c (list_elem_of_here _ _)) as [[_ Hy] _].
      fold d in Hh. lia. }
    destruct Hne as (c & Hc & Hdc).
    exists (c.1, c.2 - d). split.
    { apply lowered_elem. cbn [fst snd]. replace (c.2 - d + d) with c.2 by lia.
      by destruct c. }
    destruct (Htarget c Hc) as (Hdle & _ & _).
    destruct (Hall c Hc) as [[Hx Hy] Hat].
    unfold dropOf in Hdc |- *. cbn [fst snd].
    pose proof (clearBelow_range (grid b) pid c.1 (Z.to_nat c.2)) as Hr.
    pose proof (clearBelow_range g' pid c.1 (Z.to_nat (c.2 - d))) as Hr'.
    destruct (decide (d = c.2)) as [Hbottom|Hshort].
    - replace (c.2 - d) with 0 by lia.
      pose proof (clearBelow_range g' pid c.1 (Z.to_nat 0)). lia.
    - assert (Hcb : d = clearBelow (grid b) pid c.1 (Z.to_nat c.2)) by lia.
      destruct (clearBelow_stopped (grid b) pid c.1 (Z.to_nat c.2)) as (f & Hf & Hforeign);
        [lia|].
      rewrite <- Hcb in Hf. replace (Z.of_nat (Z.to_nat c.2)) with c.2 in Hf by lia.
      assert (Hf' : gridAt g' c.1 (c.2 - d - 1) = Some f).
      { unfold g'. rewrite !setCells_outside; [exact Hf| |].
        - intros Hin. destruct (Hall _ Hin) as [_ Hown]. cbn [fst snd] in Hown.
          rewrite Hf in Hown. injection Hown as ->. by cbn in Hforeign.
        - intros Hin. apply lowered_elem in Hin. cbn [fst snd] in Hin.
          destruct (Htarget _ Hin) as (_ & _ & Hfree). cbn [fst snd] in Hfree.
          replace (c.2 - d - 1 + d - d) with (c.2 - d - 1) in Hfree by lia.
          rewrite Hf in Hfree. apply Hforeign, Hfree. lia. }
      replace (Z.to_nat (c.2 - d)) with (S (Z.to_nat (c.2 - d - 1))) by lia.
      cbn [clearBelow].
      replace (Z.of_nat (Z.to_nat (c.2 - d - 1))) with (c.2 - d - 1) by lia.
      rewrite Hf'. rewrite decide_True by assumption. lia. }
  destruct Hle as (c' & Hc' & Hzero).
  destruct (minDropOf_le b' pid (lowered d (cells p))) as [_ Hmin].
  rewrite Forall_forall in Hmin. specialize (Hmin c' Hc').
  change (grid b') with g' in Hmin. lia.
Qed.

End BoardDropOnce.

Section BoardGravity.

Import Board.

#[local] Open Scope Z_scope.

Implicit Types (b : board) (pid : nat) (p : piece).

Lemma rowSum_app (cs1 cs2 : list (Z * Z)) : rowSum (cs1 ++ cs2) = rowSum cs1 + rowSum cs2.
Proof.
  unfold rowSum. induction cs1 as [|c cs1 IH]; cbn [app fold_right]; [lia|].
  rewrite IH. lia.
Qed.

Lemma rowSum_lowered (d : Z) (cs : list (Z * Z)) :
  rowSum (lowered d cs) = rowSum cs - d * Z.of_nat (length cs).
Proof.
  unfold rowSum, lowered.
  induction cs as [|c cs IH]; cbn [map fold_right length snd]; [lia|].
  rewrite IH. lia.
Qed.

Lemma rowSum_nonneg (cs : list (Z * Z)) : Forall (fun c => 0 <= c.2) cs -> 0 <= rowSum cs.
Proof. unfold rowSum. induction 1; cbn [fold_right]; lia. Qed.

Lemma mapSet_split (k : nat) (p' : piece) (m : list (nat * piece)) (p : piece) :
  mapGet k m = Some p ->
  exists m1 m2, m = m1 ++ (k, p) :: m2 /\ mapSet k p' m = m1 ++ (k, p') :: m2.
Proof.
  induction m as [|[k0 v] m IH]; cbn [mapGet mapSet]; [discriminate|].
  case_decide as Hk.
  - intros [= ->]. subst k0. by exists [], m.
  - intros Hget. destruct (IH Hget) as (m1 & m2 & -> & ->).
    by exists ((k0, v) :: m1), m2.
Qed.

Lemma pieceCells_app (m1 m2 : list (nat * piece)) :
  (m1 ++ m2) ≫= (fun kv => cells kv.2)
  = (m1 ≫= (fun kv => cells kv.2)) ++ (m2 ≫= (fun kv => cells kv.2)).
Proof. apply bind_app. Qed.

Lemma totalRows_nonneg b : boardOK b -> 0 <= totalRows b.
Proof.
  intros Hok. apply rowSum_nonneg, Forall_forall. intros c Hc.
  apply (pieceCells_elem b c Hok) in Hc as (pid & p & Hget & Hin).
  pose proof (piece_rows_nonneg b pid p Hok Hget) as Hall.
  rewrite Forall_forall in Hall. by apply Hall.
Qed.

(** A drop of [d] rows lowers the four cells of the piece. *)
Lemma dropPiece_totalRows b pid :
  boardOK b ->
  totalRows (dropPiece b pid).2 = totalRows b - 4 * (dropPiece b pid).1.
Proof.
  intros Hok. destruct (mapGet pid (pieces b)) as [p|] eqn:Hget;
    [|rewrite (dropPiece_missing b pid Hget); cbn [fst snd]; lia].
  destruct (decide (minDropOf b pid (cells p) = 0)) as [Hz|Hnz];
    [rewrite (dropPiece_rests b pid p Hget Hz); cbn [fst snd]; lia|].
  rewrite (dropPiece_falls b pid p Hget Hnz). cbn [fst snd].
  unfold totalRows, pieceCells. cbn [pieces].
  destruct (mapSet_split pid (Piece (type p) (color p)
                                (lowered (minDropOf b pid (cells p)) (cells p)))
              (pieces b) p Hget) as (m1 & m2 & Hm & ->).
  rewrite Hm, !pieceCells_app. cbn [mbind list_bind snd cells].
  rewrite !rowSum_app, rowSum_lowered.
  pose proof (ok_four b Hok) as Hfour. rewrite Forall_forall in Hfour.
  pose proof (Hfour (pid, p) (mapGet_Some_elem _ _ _ Hget)) as H4. cbn [snd] in H4.
  rewrite H4. lia.
Qed.

Lemma settledFrom_refl b : settledFrom b b.
Proof.
  repeat split. intros pid p Hget. exists 0. split; [lia|].
  rewrite Hget. f_equal. destruct p as [t c cs]. cbn [type color cells].
  f_equal. unfold lowered. rewrite <- (map_id cs) at 1. apply map_ext.
  intros [x y]. cbn. f_equal. lia.
Qed.

Lemma lowered_lowered (k1 k2 : Z) (cs : list (Z * Z)) :
  lowered k2 (lowered k1 cs) = lowered (k1 + k2) cs.
Proof.
  unfold lowered. rewrite map_map. apply map_ext. intros [x y]. cbn. f_equal. lia.
Qed.

Lemma settledFrom_trans b1 b2 b3 :
  settledFrom b1 b2 -> settledFrom b2 b3 -> settledFrom b1 b3.
Proof.
  intros (W1 & H1 & N1 & K1 & P1) (W2 & H2 & N2 & K2 & P2).
  repeat split; try congruence.
  intros pid p Hget. destruct (P1 pid p Hget) as (k1 & Hk1 & G1).
  destruct (P2 pid _ G1) as (k2 & Hk2 & G2). cbn [type color cells] in G2.
  exists (k1 + k2). split; [lia|]. by rewrite G2, lowered_lowered.
Qed.

Lemma dropPiece_settles b pid : boardOK b -> settledFrom b (dropPiece b pid).2.
Proof.
  intros Hok. destruct (mapGet pid (pieces b)) as [p|] eqn:Hget;
    [|rewrite (dropPiece_missing b pid Hget); apply settledFrom_refl].
  destruct (dropPiece_pieces b pid p Hok Hget) as (Hd & Hsame & Hother & Hkeys & Hw & Hh & Hn).
  cbn zeta in *. repeat split; try assumption.
  intros pid' p' Hget'. destruct (decide (pid' = pid)) as [->|Hne].
  - exists (dropPiece b pid).1. split; [exact Hd|]. congruence.
  - exists 0. split; [lia|]. rewrite (Hother pid' Hne), Hget'. f_equal.
    destruct p' as [t c cs]. cbn [type color cells].
    f_equal. unfold lowered. rewrite <- (map_id cs) at 1. apply map_ext.
    intros [x y]. cbn. f_equal. lia.
Qed.

Lemma dropPiece_nonneg b pid : boardOK b -> 0 <= (dropPiece b pid).1.
Proof.
  intros Hok. destruct (mapGet pid (pieces b)) as [p|] eqn:Hget;
    [|rewrite (dropPiece_missing b pid Hget); cbn; lia].
  apply (dropPiece_pieces b pid p Hok Hget).
Qed.

Lemma dropPiece_zero b pid :
  boardOK b -> (dropPiece b pid).1 = 0 -> dropPiece b pid = (0, b).
Proof.
  intros Hok. destruct (mapGet pid (pieces b)) as [p|] eqn:Hget;
    [|by rewrite (dropPiece_missing b pid Hget)].
  destruct (decide (minDropOf b pid (cells p) = 0)) as [Hz|Hnz];
    [by rewrite (dropPiece_rests b pid p Hget Hz)|].
  rewrite (dropPiece_falls b pid p Hget Hnz). cbn [fst]. intros Hd. contradiction.
Qed.

(** One round of drops, from any point of the [for] loop. *)
Lemma gravityFold_spec (ids : list nat) (b : board) (total : Z) (ch : bool) :
  boardOK b ->
  let st :=
    fold_left
      (fun st pid =>
         let '(dropped, b') := dropPiece (gBoard st) pid in
         if dropped >? 0
         then GravityState b' (totalDropped st + dropped) true
         else GravityState b' (totalDropped st) (changed st))
      ids (GravityState b total ch) in
  boardOK (gBoard st)
  /\ settledFrom b (gBoard st)
  /\ totalRows (gBoard st) = totalRows b - 4 * (totalDropped st - total)
  /\ total <= totalDropped st
  /\ (changed st = true -> ch = true \/ total < totalDropped st)
  /\ (changed st = false ->
      ch = false /\ gBoard st = b /\ totalDropped st = total
      /\ forall pid, pid ∈ ids -> dropPiece b pid = (0, b)).
Proof.
  revert b total ch. induction ids as [|pid ids IH]; intros b total ch Hok; cbn [fold_left].
  - cbn [gBoard totalDropped changed]. split; [exact Hok|].
    split; [apply settledFrom_refl|]. split; [lia|]. split; [lia|].
    split; [intros ->; by left|].
    intros ->. repeat split. intros pid Hpid. by apply elem_of_nil in Hpid.
  - cbn [gBoard totalDropped changed].
    pose proof (dropPiece_OK b pid Hok) as Hok1.
    pose proof (dropPiece_settles b pid Hok) as Hset1.
    pose proof (dropPiece_totalRows b pid Hok) as Hrows1.
    pose proof (dropPiece_nonneg b pid Hok) as Hd1.
    pose proof (dropPiece_zero b pid Hok) as Hzero1.
    destruct (dropPiece b pid) as [d b1] eqn:E. cbn [fst snd] in *.
    destruct (Z.gtb_spec d 0) as [Hpos|Hnpos].
    + destruct (IH b1 (total + d) true Hok1) as (I1 & I2 & I3 & I4 & I5 & I6).
      cbn zeta in *. split; [exact I1|].
      split; [by apply (settledFrom_trans b b1)|]. split; [lia|]. split; [lia|].
      split; [intros _; right; lia|].
      intros Hch. destruct (I6 Hch) as [Hf _]. discriminate.
    + assert (d = 0) as -> by lia. specialize (Hzero1 eq_refl). injection Hzero1 as ->.
      destruct (IH b total ch Hok) as (I1 & I2 & I3 & I4 & I5 & I6).
      cbn zeta in *. split; [exact I1|]. split; [exact I2|]. split; [exact I3|].
      split; [exact I4|]. split; [exact I5|].
      intros Hch. destruct (I6 Hch) as (J1 & J2 & J3 & J4). repeat split; try assumption.
      intros pid' Hpid'. apply elem_of_cons in Hpid' as [->|Hpid']; [|by apply J4].
      exact E.
Qed.

End BoardGravity.

Section BoardGravityLoop.

Import Board.

#[local] Open Scope Z_scope.

Implicit Types (b : board) (pid : nat) (p : piece).

Lemma gravityRound_fold (ids : list nat) b (total : Z) :
  gravityRound ids b total
  = fold_left
      (fun st pid =>
         let '(dropped, b') := dropPiece (gBoard st) pid in
         if dropped >? 0
         then GravityState b' (totalDropped st + dropped) true
         else GravityState b' (totalDropped st) (changed st))
      ids (GravityState b total false).
Proof. reflexivity. Qed.

(** With more rounds allowed than rows can be given up, the loop of
    [applyGravity] ends, and ends with every listed piece at rest. *)
Lemma gravityLoop_ends (rounds : nat) (ids : list nat) b (total : Z) :
  boardOK b -> (Z.to_nat (totalRows b) < rounds)%nat ->
  exists total' b',
    gravityLoop rounds ids b total = Some (total', b')
    /\ boardOK b' /\ settledFrom b b'
    /\ totalRows b' = totalRows b - 4 * (total' - total)
    /\ total <= total'
    /\ forall pid, pid ∈ ids -> dropPiece b' pid = (0, b').
Proof.
  revert b total. induction rounds as [|rounds IH]; intros b total Hok Hfuel; [lia|].
  cbn [gravityLoop]. rewrite gravityRound_fold.
  destruct (gravityFold_spec ids b total false Hok) as (I1 & I2 & I3 & I4 & I5 & I6).
  cbn zeta in *.
  set (st := fold_left _ ids _) in *.
  destruct (changed st) eqn:Hch.
  - destruct (I5 eq_refl) as [Hf|Hlt]; [discriminate|].
    pose proof (totalRows_nonneg _ I1) as Hnn.
    destruct (IH (gBoard st) (totalDropped st) I1 ltac:(lia))
      as (total' & b' & Hloop & J1 & J2 & J3 & J4 & J5).
    exists total', b'. split; [exact Hloop|]. split; [exact J1|].
    split; [by apply (settledFrom_trans b (gBoard st))|].
    split; [lia|]. split; [lia | exact J5].
  - destruct (I6 eq_refl) as (_ & Hb & Ht & Hrest).
    exists (totalDropped st), (gBoard st). split; [reflexivity|].
    split; [exact I1|]. split; [exact I2|]. split; [exact I3|]. split; [exact I4|].
    rewrite Hb. exact Hrest.
Qed.

(** Allowing more rounds than needed does not change the outcome. *)
Lemma gravityLoop_more (rounds k : nat) (ids : list nat) b (total : Z) (r : Z * board) :
  gravityLoop rounds ids b total = Some r ->
  gravityLoop (rounds + k) ids b total = Some r.
Proof.
  revert b total. induction rounds as [|rounds IH]; intros b total; [discriminate|].
  cbn [gravityLoop Nat.add]. destruct (changed (gravityRound ids b total)); [apply IH | done].
Qed.

Lemma getHeightFrom_spec b (n : nat) :
  (getHeightFrom b n <= n)%nat
  /\ (forall x y, (x < width b)%nat -> (getHeightFrom b n <= y < n)%nat ->
        occupied b x y = false)
  /\ (getHeightFrom b n = 0%nat
      \/ exists x, (x < width b)%nat
                   /\ occupied b x (getHeightFrom b n - 1) = true).
Proof.
  induction n as [|n (IH1 & IH2 & IH3)]; cbn [getHeightFrom].
  - split; [lia|]. split; [intros; lia | by left].
  - destruct (existsb (fun x => occupied b x n) (seq 0 (width b))) eqn:E.
    + split; [lia|]. split; [intros; lia|]. right.
      apply existsb_exists in E as (x & Hx & Hocc). apply in_seq in Hx.
      exists x. split; [lia|]. by replace (n + 1 - 1)%nat with n by lia.
    + split; [lia|]. split; [|exact IH3].
      intros x y Hx Hy. destruct (decide (y = n)) as [->|Hne]; [|apply IH2; lia].
      destruct (occupied b x n) eqn:Hocc; [|reflexivity].
      assert (existsb (fun x => occupied b x n) (seq 0 (width b)) = true); [|congruence].
      apply existsb_exists. exists x. split; [apply in_seq; lia | exact Hocc].
Qed.

Lemma occupied_piece_cell b (x y : nat) :
  boardOK b ->
  occupied b x y = true <-> (Z.of_nat x, Z.of_nat y) ∈ pieceCells b.
Proof.
  intros Hok. rewrite <- (occupied_are_piece_cells b Hok).
  rewrite occupiedPositions_elem by apply Hok. cbn [fst snd]. unfold occupied.
  destruct (gridAt (grid b) (Z.of_nat x) (Z.of_nat y)) as [v|].
  - split; [intros _; by exists v | reflexivity].
  - split; [discriminate | intros [v Hv]; discriminate].
Qed.

Lemma pieceCells_inGrid b (c : Z * Z) : boardOK b -> c ∈ pieceCells b -> inGrid b c.
Proof.
  intros Hok Hc. apply (pieceCells_elem b c Hok) in Hc as (pid & p & Hget & Hin).
  destruct (ok_cells b Hok pid p Hget) as [_ Hall]. rewrite Forall_forall in Hall.
  apply (Hall c Hin).
Qed.

(** [getHeight] against the cells of the pieces: every cell lies below
    it, and when it is not 0 some cell lies in the row just below. *)
Lemma getHeight_cells b :
  boardOK b ->
  (forall c, c ∈ pieceCells b -> c.2 < Z.of_nat (getHeight b))
  /\ (getHeight b = 0%nat
      \/ exists c, c ∈ pieceCells b /\ c.2 = Z.of_nat (getHeight b) - 1).
Proof.
  intros Hok. unfold getHeight.
  destruct (getHeightFrom_spec b (height b)) as (H1 & H2 & H3). split.
  - intros [x y] Hc. destruct (pieceCells_inGrid b _ Hok Hc) as [Hx Hy]. cbn [fst snd] in *.
    destruct (decide (y < Z.of_nat (getHeightFrom b (height b)))) as [Hlt|Hge];
      [exact Hlt|]. exfalso.
    specialize (H2 (Z.to_nat x) (Z.to_nat y) ltac:(lia) ltac:(lia)).
    assert (Hocc : occupied b (Z.to_nat x) (Z.to_nat y) = true).
    { apply occupied_piece_cell; [exact Hok|]. by rewrite !Z2Nat.id by lia. }
    congruence.
  - destruct H3 as [H0|(x & Hx & Hocc)]; [by left|]. right.
    exists (Z.of_nat x, Z.of_nat (getHeightFrom b (height b) - 1)). split.
    + by apply occupied_piece_cell.
    + cbn [snd]. destruct (getHeightFrom b (height b)) as [|h] eqn:E; [|lia].
      exfalso. cbn in Hocc.
      assert (Hc : (Z.of_nat x, 0) ∈ pieceCells b) by (by apply (occupied_piece_cell b x 0)).
      destruct (pieceCells_inGrid b _ Hok Hc) as [_ Hy]. cbn [snd] in Hy.
      specialize (H2 x 0%nat Hx ltac:(lia)). congruence.
Qed.

Lemma settledFrom_cells b b' (c' : Z * Z) :
  boardOK b -> boardOK b' -> settledFrom b b' ->
  c' ∈ pieceCells b' -> exists c, c ∈ pieceCells b /\ c'.2 <= c.2.
Proof.
  intros Hok Hok' (_ & _ & _ & Hkeys & Hp) Hc'.
  apply (pieceCells_elem b' c' Hok') in Hc' as (pid & p' & Hget' & Hin').
  assert (Hkey : pid ∈ map fst (pieces b)).
  { rewrite <- Hkeys. by eapply mapGet_keys. }
  destruct (mapGet pid (pieces b)) as [p|] eqn:Hget;
    [|by apply mapGet_None in Hget].
  destruct (Hp pid p Hget) as (k & Hk & Hget2). rewrite Hget' in Hget2.
  injection Hget2 as ->. cbn [cells] in Hin'. apply lowered_elem in Hin'.
  exists (c'.1, c'.2 + k). split; [|cbn; lia].
  apply pieceCells_elem; [exact Hok|]. by exists pid, p.
Qed.

Lemma settledFrom_height b b' :
  boardOK b -> boardOK b' -> settledFrom b b' -> (getHeight b' <= getHeight b)%nat.
Proof.
  intros Hok Hok' Hset.
  destruct (getHeight_cells b Hok) as [Hbelow _].
  destruct (getHeight_cells b' Hok') as [_ [H0|(c' & Hc' & Htop)]]; [lia|].
  destruct (settledFrom_cells b b' c' Hok Hok' Hset Hc') as (c & Hc & Hle).
  specialize (Hbelow c Hc). lia.
Qed.

Lemma settledFrom_count b b' :
  boardOK b -> boardOK b' -> settledFrom b b' ->
  getFilledCellCount b' = getFilledCellCount b.
Proof.
  intros Hok Hok' (_ & _ & _ & Hkeys & _).
  rewrite !count_four by assumption. f_equal.
  rewrite <- (length_map fst (pieces b')), <- (length_map fst (pieces b)). by rewrite Hkeys.
Qed.

End BoardGravityLoop.

Section BoardRandom.

Import Board.

#[local] Open Scope Z_scope.

Lemma u32_range (z : Z) : 0 <= u32 z < 2 ^ 32.
Proof. unfold u32. apply Z.mod_pos_bound. lia. Qed.

Lemma lxor_range (a b : Z) :
  0 <= a < 2 ^ 32 -> 0 <= b < 2 ^ 32 -> 0 <= Z.lxor a b < 2 ^ 32.
Proof.
  intros Ha Hb. split; [apply Z.lxor_nonneg; lia|].
  destruct (decide (Z.lxor a b = 0)) as [->|Hnz]; [lia|].
  apply Z.log2_lt_pow2; [pose proof (Z.lxor_nonneg a b); lia|].
  eapply Z.le_lt_trans; [apply Z.log2_lxor; lia|].
  apply Z.max_lub_lt.
  - destruct (decide (a = 0)) as [->|?]; [cbn; lia|]. apply Z.log2_lt_pow2; lia.
  - destruct (decide (b = 0)) as [->|?]; [cbn; lia|]. apply Z.log2_lt_pow2; lia.
Qed.

Lemma shiftr_range (a n : Z) : 0 <= n -> 0 <= a < 2 ^ 32 -> 0 <= Z.shiftr a n < 2 ^ 32.
Proof.
  intros Hn Ha. rewrite Z.shiftr_div_pow2 by assumption. split.
  - apply Z.div_pos; lia.
  - apply Z.le_lt_trans with a; [|lia].
    apply Z.div_le_upper_bound; [lia|]. 
    assert (1 <= 2 ^ n) by (apply (Z.pow_le_mono_r 2 0 n); lia). nia.
Qed.

(** The numerator that a call of the generator returns is a 32-bit
    number, so the result lies in [0, 1). *)
Lemma mulberry32_range (seed : Z) : 0 <= (mulberry32 seed).2 < 2 ^ 32.
Proof.
  unfold mulberry32. cbn zeta. cbn [snd].
  apply lxor_range.
  - apply lxor_range; [apply u32_range | apply u32_range].
  - apply shiftr_range; [lia|]. apply lxor_range; apply u32_range.
Qed.

Lemma scaled_range (n k : Z) : 0 <= n < 2 ^ 32 -> 0 < k -> 0 <= scaled n k < k.
Proof.
  intros Hn Hk. unfold scaled. split.
  - apply Z.div_pos; nia.
  - apply Z.div_lt_upper_bound; nia.
Qed.

End BoardRandom.

Section BoardGenerate.

Import Board.

#[local] Open Scope Z_scope.

Implicit Types (b : board) (pid : nat) (p : piece).

Lemma occupiedPositions_length b :
  (length (occupiedPositions b) <= height b * width b)%nat.
Proof.
  unfold occupiedPositions.
  assert (Hrow : forall y (xs : list nat),
            (length (x ← xs; if occupied b x y then [(Z.of_nat x, Z.of_nat y)] else [])
             <= length xs)%nat).
  { intros y xs. induction xs as [|x xs IH]; cbn [mbind list_bind length]; [lia|].
    rewrite length_app. destruct (occupied b x y); cbn [length]; lia. }
  assert (Hrows : forall ys : list nat,
            (length (y ← ys; x ← seq 0 (width b);
                     if occupied b x y then [(Z.of_nat x, Z.of_nat y)] else [])
             <= length ys * width b)%nat).
  { intros ys. induction ys as [|y ys IH]; cbn [mbind list_bind length]; [lia|].
    rewrite length_app. specialize (Hrow y (seq 0 (width b))).
    rewrite length_seq in Hrow. lia. }
  specialize (Hrows (seq 0 (height b))). by rewrite length_seq in Hrows.
Qed.




Lemma placePiece_count b t (x y : Z) :
  boardOK b ->
  getFilledCellCount (placePiece b t x y).2
  = if canPlacePiece b t x y
    then (getFilledCellCount b + 4)%nat else getFilledCellCount b.
Proof.
  intros Hok. pose proof (placePiece_OK b t x y Hok) as Hok'.
  destruct (canPlacePiece b t x y) eqn:Hcan.
  - rewrite (count_four _ Hok'), (count_four _ Hok).
    rewrite placePiece_success by assumption. cbn [snd pieces].
    rewrite mapSet_new by (by apply next_id_unused). rewrite length_app. cbn [length]. lia.
  - by rewrite placePiece_failure.
Qed.


End BoardGenerate.

Section BoardClone.

Import Board.

#[local] Open Scope nat_scope.

Implicit Types (b : board) (g src : list (list (option cell))).

Lemma copyPieces_spec (m acc : list (nat * piece)) :
  NoDup (map fst (acc ++ m)) ->
  fold_left
    (fun acc kv =>
       mapSet kv.1 (Piece (type kv.2) (color kv.2) (map (fun c => c) (cells kv.2))) acc)
    m acc
  = acc ++ m.
Proof.
  revert acc. induction m as [|[k p] m IH]; intros acc Hnd; cbn [fold_left].
  - by rewrite app_nil_r.
  - cbn [fst snd]. rewrite map_id.
    replace (Piece (type p) (color p) (cells p)) with p by (by destruct p).
    assert (Hk : k ∉ map fst acc).
    { rewrite map_app in Hnd. apply NoDup_app in Hnd as (_ & Hdisj & _).
      intros Hin. apply (Hdisj k Hin). cbn [map fst]. apply list_elem_of_here. }
    rewrite mapSet_new by assumption.
    rewrite IH; [by rewrite <- app_assoc|].
    by rewrite <- app_assoc.
Qed.

(** One step of the copy loops of [clone]. *)
Let copyCell src g (q : nat * nat) : list (list (option cell)) :=
  match gridAt src (Z.of_nat q.1) (Z.of_nat q.2) with
  | Some c => gridSet g (Z.of_nat q.1) (Z.of_nat q.2) (Some (Cell (pieceId c) (cellColor c)))
  | None => g
  end.

Lemma copyCell_spec (w h : nat) src g (q : nat * nat) :
  rectangular w h src -> rectangular w h g ->
  (forall x y, gridAt g x y = None \/ gridAt g x y = gridAt src x y) ->
  rectangular w h (copyCell src g q)
  /\ (forall x y, gridAt (copyCell src g q) x y = None
                  \/ gridAt (copyCell src g q) x y = gridAt src x y)
  /\ gridAt (copyCell src g q) (Z.of_nat q.1) (Z.of_nat q.2)
     = gridAt src (Z.of_nat q.1) (Z.of_nat q.2)
  /\ (forall x y, gridAt g x y = gridAt src x y ->
                  gridAt (copyCell src g q) x y = gridAt src x y).
Proof.
  intros Hsrc Hg Hagree. unfold copyCell.
  destruct (gridAt src (Z.of_nat q.1) (Z.of_nat q.2)) as [c|] eqn:E.
  - destruct (gridAt_Some_inside _ _ _ _ _ _ Hsrc E) as [Hx Hy].
    assert (Hc : Cell (pieceId c) (cellColor c) = c) by (by destruct c).
    rewrite Hc.
    assert (Hset : forall x y,
              gridAt (gridSet g (Z.of_nat q.1) (Z.of_nat q.2) (Some c)) x y
              = if decide ((Z.of_nat q.1, Z.of_nat q.2) = (x, y))
                then Some c else gridAt g x y).
    { intros x y. case_decide as Hq.
      - injection Hq as <- <-. by apply (gridAt_gridSet_eq w h).
      - by apply gridAt_gridSet_ne. }
    split; [by apply gridSet_rectangular|]. split; [|split].
    + intros x y. rewrite Hset. case_decide as Hq; [|apply Hagree].
      injection Hq as <- <-. right. by rewrite E.
    + rewrite Hset. by rewrite decide_True.
    + intros x y Hxy. rewrite Hset. case_decide as Hq; [|exact Hxy].
      injection Hq as <- <-. by rewrite E.
  - split; [exact Hg|]. split; [exact Hagree|]. split; [|by intros].
    destruct (Hagree (Z.of_nat q.1) (Z.of_nat q.2)) as [H|H]; congruence.
Qed.

Lemma copyFold_spec (w h : nat) src (qs : list (nat * nat)) g :
  rectangular w h src -> rectangular w h g ->
  (forall x y, gridAt g x y = None \/ gridAt g x y = gridAt src x y) ->
  let g' := fold_left (copyCell src) qs g in
  rectangular w h g'
  /\ (forall x y, gridAt g' x y = None \/ gridAt g' x y = gridAt src x y)
  /\ (forall x y, gridAt g x y = gridAt src x y -> gridAt g' x y = gridAt src x y)
  /\ (forall q, q ∈ qs ->
        gridAt g' (Z.of_nat q.1) (Z.of_nat q.2) = gridAt src (Z.of_nat q.1) (Z.of_nat q.2)).
Proof.
  intros Hsrc. revert g. induction qs as [|q qs IH]; intros g Hg Hagree; cbn [fold_left].
  - split; [exact Hg|]. split; [exact Hagree|]. split; [by intros|].
    intros q Hq. by apply elem_of_nil in Hq.
  - destruct (copyCell_spec w h src g q Hsrc Hg Hagree) as (C1 & C2 & C3 & C4).
    destruct (IH (copyCell src g q) C1 C2) as (I1 & I2 & I3 & I4). cbn zeta in *.
    split; [exact I1|]. split; [exact I2|]. split; [intros x y Hxy; by apply I3, C4|].
    intros q' Hq'. apply elem_of_cons in Hq' as [->|Hq']; [by apply I3 | by apply I4].
Qed.

Lemma copyRows_flat src (w : nat) (ys : list nat) g :
  fold_left
    (fun g y =>
       fold_left
         (fun g x =>
            match gridAt src (Z.of_nat x) (Z.of_nat y) with
            | Some c => gridSet g (Z.of_nat x) (Z.of_nat y)
                                (Some (Cell (pieceId c) (cellColor c)))
            | None => g
            end)
         (seq 0 w) g)
    ys g
  = fold_left (copyCell src) (y ← ys; x ← seq 0 w; [(x, y)]) g.
Proof.
  revert g. induction ys as [|y ys IH]; intros g; cbn [fold_left mbind list_bind];
    [reflexivity|].
  rewrite fold_left_app, IH. f_equal.
  generalize (seq 0 w) as xs. intros xs. revert g.
  induction xs as [|x xs IHx]; intros g; cbn [fold_left mbind list_bind app]; [reflexivity|].
  by rewrite IHx.
Qed.

Lemma empty_grid_rectangular (w h : nat) :
  rectangular w h (replicate h (replicate w (@None cell))).
Proof.
  split; [apply length_replicate|].
  apply Forall_forall. intros row Hrow.
  apply elem_of_replicate in Hrow as [-> _]. apply length_replicate.
Qed.

Lemma empty_grid_free (w h : nat) (x y : Z) :
  gridAt (replicate h (replicate w (@None cell))) x y = None.
Proof.
  unfold gridAt. case_decide; [|reflexivity].
  destruct (replicate h (replicate w None) !! Z.to_nat y) as [row|] eqn:Erow;
    [|reflexivity].
  apply lookup_replicate in Erow as [-> _].
  destruct (replicate w (@None cell) !! Z.to_nat x) as [oc|] eqn:Ec; [|reflexivity].
  by apply lookup_replicate in Ec as [-> _].
Qed.

(** X20 ([clone]): the copy of a well-formed board has the same size,
    grid, pieces and id counter as the board. *)
Theorem clone_is_a_copy b : boardOK b -> clone b = b.
Proof.
  intros Hok. unfold clone. cbn zeta. unfold new, clear.
  cbn [width height grid pieces nextPieceId].
  rewrite copyPieces_spec by (cbn [app]; apply Hok). cbn [app].
  rewrite copyRows_flat.
  destruct (copyFold_spec (width b) (height b) (grid b)
              (y ← seq 0 (height b); x ← seq 0 (width b); [(x, y)])
              (replicate (height b) (replicate (width b) None)))
    as (F1 & _ & _ & F4).
  { apply Hok. }
  { apply empty_grid_rectangular. }
  { intros x y. left. apply empty_grid_free. }
  cbn zeta in *.
  replace (fold_left (copyCell (grid b)) _ _) with (grid b); [by destruct b|].
  symmetry. apply (grid_ext (width b) (height b)); [exact F1 | apply Hok|].
  intros x y Hx Hy.
  specialize (F4 (Z.to_nat x, Z.to_nat y)). cbn [fst snd] in F4.
  rewrite !Z2Nat.id in F4 by lia. apply F4.
  apply list_elem_of_bind. exists (Z.to_nat y). split; [|apply elem_of_seq; lia].
  apply list_elem_of_bind. exists (Z.to_nat x). split; [|apply elem_of_seq; lia].
  apply list_elem_of_here.
Qed.

Lemma clone_is_a_copy_witness :
  clone (placePiece (new 10 20) pieceT 3 5).2 = (placePiece (new 10 20) pieceT 3 5).2.
Proof.
  apply (clone_is_a_copy (placePiece (new 10 20) pieceT 3 5).2), placePiece_OK, new_OK.
Defined.

End BoardClone.

Section BoardFacts.

Import Board.

#[local] Open Scope nat_scope.

Implicit Types (b : board) (t : pieceType) (pid : nat).

Lemma clear_new b : clear b = new (width b) (height b).
Proof. reflexivity. Qed.


Lemma new_height (w h : nat) : getHeight (new w h) = 0.
Proof.
  destruct (getHeight_cells (new w h) (new_OK w h)) as [_ [H0|(c & Hc & _)]]; [exact H0|].
  apply (pieceCells_elem _ _ (new_OK w h)) in Hc as (pid & p & Hget & _). discriminate.
Qed.

Lemma removePiece_count b pid :
  boardOK b ->
  getFilledCellCount (removePiece b pid).2
  = if (removePiece b pid).1
    then getFilledCellCount b - 4 else getFilledCellCount b.
Proof.
  intros Hok. pose proof (removePiece_OK b pid Hok) as Hok'.
  destruct (mapGet pid (pieces b)) as [p|] eqn:Hget;
    [|by rewrite removePiece_missing].
  rewrite (count_four _ Hok'), (count_four _ Hok).
  rewrite (removePiece_found b pid p Hget). cbn [fst snd pieces].
  destruct (mapSet_split pid p (pieces b) p Hget) as (m1 & m2 & Hm & _).
  assert (Hnd : NoDup (map fst (pieces b))) by apply Hok.
  rewrite Hm in Hnd |- *. rewrite map_app in Hnd. cbn [map fst] in Hnd.
  apply NoDup_app in Hnd as (_ & Hdisj & Hnd2). apply NoDup_cons in Hnd2 as [Hnot2 _].
  unfold mapDelete. rewrite filter_app, filter_cons. cbn [fst].
  rewrite decide_False by (intros H; by apply H).
  fold (mapDelete pid m1). fold (mapDelete pid m2).
  rewrite !mapDelete_absent; [|exact Hnot2|].
  - rewrite !length_app. cbn [length]. lia.
  - intros Hin. apply (Hdisj pid Hin). apply list_elem_of_here.
Qed.

Lemma shape_extent t (d : Z * Z) :
  d ∈ shapeCells (PIECE_SHAPES t) -> (0 <= d.1 <= 3)%Z /\ (0 <= d.2 <= 1)%Z.
Proof.
  destruct t; cbn [PIECE_SHAPES shapeCells]; intros Hd;
    repeat (apply elem_of_cons in Hd as [->|Hd]; [cbn; lia|]);
    by apply elem_of_nil in Hd.
Qed.

End BoardFacts.

Section BoardSettles.

Import Board.

#[local] Open Scope Z_scope.

(** [applyGravity] ends, and leaves every piece at rest. *)
Lemma applyGravity_ends (b : board) :
  boardOK b ->
  exists total b',
    (forall rounds, (Z.to_nat (totalRows b) < rounds)%nat ->
                    applyGravity rounds b = Some (total, b'))
    /\ boardOK b' /\ atRest b' /\ settledFrom b b'
    /\ 0 <= total /\ 4 * total = totalRows b - totalRows b'.
Proof.
  intros Hok. unfold applyGravity. cbn zeta.
  set (ids := sortBy (lowestYOf b) (getPieceIds b)).
  destruct (gravityLoop_ends (S (Z.to_nat (totalRows b))) ids b 0 Hok ltac:(lia))
    as (total & b' & Hloop & Hok' & Hset & Hrows & Htotal & Hrest).
  exists total, b'. split.
  { intros rounds Hr.
    replace rounds with (S (Z.to_nat (totalRows b)) + (rounds - S (Z.to_nat (totalRows b))))%nat
      by lia.
    by apply gravityLoop_more. }
  split; [exact Hok'|]. split.
  { intros pid. destruct (mapGet pid (pieces b')) as [p|] eqn:Hget;
      [|by apply dropPiece_missing].
    apply Hrest. unfold ids. rewrite (sortBy_perm (lowestYOf b) (getPieceIds b)).
    unfold getPieceIds. destruct Hset as (_ & _ & _ & <- & _). by eapply mapGet_keys. }
  split; [exact Hset|]. split; [exact Htotal | lia].
Qed.

End BoardSettles.

(** ** Properties of the board operations *)

Section BoardProperties.

Import Board.

#[local] Open Scope Z_scope.

Implicit Types (b : board) (t : pieceType) (pid : nat).



(** X13 ([Board] constructor, [clear], [placePiece], [removePiece],
    [dropPiece]): the class invariant.  A new board is well formed
    (grid of the board's size, distinct piece ids below the id counter,
    four distinct cells per piece, all inside the grid and marked with
    the piece's id and colour, every occupied cell owned by a recorded
    piece), and each operation on a well-formed board leaves a
    well-formed board. *)
Theorem board_stays_well_formed b t (x y : Z) pid :
  boardOK b ->
  boardOK (new (width b) (height b))
  /\ boardOK (clear b)
  /\ boardOK (placePiece b t x y).2
  /\ boardOK (removePiece b pid).2
  /\ boardOK (dropPiece b pid).2.
Proof.
  intros Hok. split; [apply new_OK|]. split; [rewrite clear_new; apply new_OK|].
  split; [by apply placePiece_OK|]. split; [by apply removePiece_OK|].
  by apply dropPiece_OK.
Qed.

Lemma board_stays_well_formed_witness :
  let b := (placePiece (new 10 20) pieceT 3 5).2 in
  boardOK (new (width b) (height b))
  /\ boardOK (clear b)
  /\ boardOK (placePiece b pieceO 0 0).2
  /\ boardOK (removePiece b 0).2
  /\ boardOK (dropPiece b 0).2.
Proof.
  apply (board_stays_well_formed (placePiece (new 10 20) pieceT 3 5).2 pieceO 0 0 0).
  apply placePiece_OK, new_OK.
Defined.

(** X14 ([canPlacePiece], [placePiece]): on a well-formed board a
    placement is accepted exactly when the four cells of the piece at
    the base lie inside the grid and are free.  A refused placement
    returns [null] and changes nothing.  An accepted one returns the
    old value of the id counter and raises the counter by one, records
    the piece with its type, colour and cells at the end of [pieces],
    writes the piece's id and colour to exactly those four cells, and
    raises the filled cell count by 4. *)
Theorem placePiece_effect b t (baseX baseY : Z) :
  boardOK b ->
  let placed := placedCells t baseX baseY in
  let res := placePiece b t baseX baseY in
  (canPlacePiece b t baseX baseY = true
   <-> Forall (fun c => inGrid b c /\ gridAt (grid b) c.1 c.2 = None) placed)
  /\ (canPlacePiece b t baseX baseY = false -> res = (None, b))
  /\ (canPlacePiece b t baseX baseY = true ->
      res.1 = Some (nextPieceId b)
      /\ nextPieceId res.2 = (nextPieceId b + 1)%nat
      /\ pieces res.2
         = pieces b ++ [(nextPieceId b, Piece t (shapeColor (PIECE_SHAPES t)) placed)]
      /\ (forall x y,
            gridAt (grid res.2) x y
            = if decide ((x, y) ∈ placed)
              then Some (Cell (nextPieceId b) (shapeColor (PIECE_SHAPES t)))
              else gridAt (grid b) x y)
      /\ getFilledCellCount res.2 = (getFilledCellCount b + 4)%nat).
Proof.
  intros Hok placed res. split; [apply canPlacePiece_spec|].
  split; [apply placePiece_failure|]. intros Hcan.
  pose proof (placePiece_count b t baseX baseY Hok) as Hcount. rewrite Hcan in Hcount.
  unfold res. rewrite placePiece_success in * by assumption.
  cbn [fst snd nextPieceId pieces grid] in *.
  split; [reflexivity|]. split; [reflexivity|].
  split; [apply mapSet_new; by apply next_id_unused|]. split; [|exact Hcount].
  intros x y. apply canPlacePiece_spec in Hcan. rewrite Forall_forall in Hcan.
  case_decide as Hin.
  - destruct (Hcan _ Hin) as [[Hx Hy] _]. cbn [fst snd] in *.
    apply (setCells_inside (width b) (height b)); try assumption. apply Hok.
  - by apply setCells_outside.
Qed.

Lemma placePiece_effect_witness :
  let b := new 10 20 in
  let placed := placedCells pieceT 3 5 in
  let res := placePiece b pieceT 3 5 in
  (canPlacePiece b pieceT 3 5 = true
   <-> Forall (fun c => inGrid b c /\ gridAt (grid b) c.1 c.2 = None) placed)
  /\ (canPlacePiece b pieceT 3 5 = false -> res = (None, b))
  /\ (canPlacePiece b pieceT 3 5 = true ->
      res.1 = Some (nextPieceId b)
      /\ nextPieceId res.2 = (nextPieceId b + 1)%nat
      /\ pieces res.2
         = pieces b ++ [(nextPieceId b, Piece pieceT (shapeColor (PIECE_SHAPES pieceT)) placed)]
      /\ (forall x y,
            gridAt (grid res.2) x y
            = if decide ((x, y) ∈ placed)
              then Some (Cell (nextPieceId b) (shapeColor (PIECE_SHAPES pieceT)))
              else gridAt (grid b) x y)
      /\ getFilledCellCount res.2 = (getFilledCellCount b + 4)%nat).
Proof. apply (placePiece_effect (new 10 20) pieceT 3 5). apply new_OK. Defined.

(** X15 ([placePiece] then [removePiece]): removing the piece that was
    just placed gives back the grid and the pieces of the board before
    the placement; only the id counter stays raised. *)
Theorem place_then_remove b t (baseX baseY : Z) :
  boardOK b -> canPlacePiece b t baseX baseY = true ->
  removePiece (placePiece b t baseX baseY).2 (nextPieceId b)
  = (true, MkBoard (width b) (height b) (grid b) (pieces b) (nextPieceId b + 1)).
Proof.
  intros Hok Hcan. rewrite placePiece_success by assumption. cbn [snd].
  erewrite removePiece_found by (cbn [pieces]; apply mapGet_mapSet_eq).
  cbn [width height grid pieces nextPieceId cells]. f_equal. f_equal.
  - apply canPlacePiece_spec in Hcan.
    apply (clear_placed (width b) (height b)); [apply Hok | exact Hcan].
  - apply mapDelete_mapSet_new. by apply next_id_unused.
Qed.

Lemma place_then_remove_witness :
  removePiece (placePiece (new 10 20) pieceS 2 7).2 (nextPieceId (new 10 20))
  = (true, MkBoard (width (new 10 20)) (height (new 10 20)) (grid (new 10 20))
                   (pieces (new 10 20)) (nextPieceId (new 10 20) + 1)).
Proof.
  apply (place_then_remove (new 10 20) pieceS 2 7); [apply new_OK | reflexivity].
Defined.

(** X16 ([removePiece]): for an id that is not on the board the call
    returns [false] and changes nothing; for a piece of a well-formed
    board it returns [true], frees exactly the cells of the piece,
    drops the piece from [pieces] and leaves every other piece as it
    was, and the filled cell count falls by 4. *)
Theorem removePiece_effect b pid :
  boardOK b ->
  let res := removePiece b pid in
  (getPiece b pid = None -> res = (false, b))
  /\ (forall p, getPiece b pid = Some p ->
      res.1 = true
      /\ getPiece res.2 pid = None
      /\ (forall pid', pid' <> pid -> getPiece res.2 pid' = getPiece b pid')
      /\ (forall x y,
            gridAt (grid res.2) x y
            = if decide ((x, y) ∈ cells p) then None else gridAt (grid b) x y)
      /\ getFilledCellCount res.2 = (getFilledCellCount b - 4)%nat
      /\ nextPieceId res.2 = nextPieceId b).
Proof.
  intros Hok res. unfold getPiece. split; [apply removePiece_missing|].
  intros p Hget. pose proof (removePiece_count b pid Hok) as Hcount.
  unfold res. rewrite (removePiece_found b pid p Hget) in *.
  cbn [fst snd pieces grid nextPieceId] in *.
  split; [reflexivity|]. split; [apply mapGet_mapDelete_eq|].
  split; [intros pid' Hne; by apply mapGet_mapDelete_ne|].
  split; [|split; [exact Hcount | reflexivity]].
  intros x y. destruct (ok_cells b Hok pid p Hget) as [_ Hall].
  rewrite Forall_forall in Hall. case_decide as Hin.
  - destruct (Hall _ Hin) as [[Hx Hy] _]. cbn [fst snd] in *.
    apply (setCells_inside (width b) (height b)); try assumption. apply Hok.
  - by apply setCells_outside.
Qed.

Lemma removePiece_effect_witness :
  let b := (placePiece (new 10 20) pieceT 3 5).2 in
  let res := removePiece b 0 in
  (getPiece b 0 = None -> res = (false, b))
  /\ (forall p, getPiece b 0 = Some p ->
      res.1 = true
      /\ getPiece res.2 0 = None
      /\ (forall pid', pid' <> 0%nat -> getPiece res.2 pid' = getPiece b pid')
      /\ (forall x y,
            gridAt (grid res.2) x y
            = if decide ((x, y) ∈ cells p) then None else gridAt (grid b) x y)
      /\ getFilledCellCount res.2 = (getFilledCellCount b - 4)%nat
      /\ nextPieceId res.2 = nextPieceId b).
Proof.
  apply (removePiece_effect (placePiece (new 10 20) pieceT 3 5).2 0).
  apply placePiece_OK, new_OK.
Defined.

(** X17 ([dropPiece]): for an id that is not on the board the call
    returns 0 and changes nothing.  On a well-formed board the distance
    returned is not negative; the piece keeps its type and colour and
    every one of its cells is lower by exactly that distance, every
    other piece stays where it is, the ids of [pieces] keep their
    order, the filled cell count stays the same, and a second drop of
    the same piece returns 0 and changes nothing. *)
Theorem dropPiece_effect b pid :
  boardOK b ->
  let d := (dropPiece b pid).1 in
  let b' := (dropPiece b pid).2 in
  (getPiece b pid = None -> d = 0 /\ b' = b)
  /\ 0 <= d
  /\ (forall p, getPiece b pid = Some p ->
        getPiece b' pid = Some (Piece (type p) (color p) (lowered d (cells p))))
  /\ (forall pid', pid' <> pid -> getPiece b' pid' = getPiece b pid')
  /\ getPieceIds b' = getPieceIds b
  /\ getFilledCellCount b' = getFilledCellCount b
  /\ dropPiece b' pid = (0, b').
Proof.
  intros Hok d b'. unfold getPiece, getPieceIds.
  split; [intros Hget; unfold d, b'; by rewrite (dropPiece_missing b pid Hget)|].
  split; [by apply dropPiece_nonneg|].
  pose proof (dropPiece_OK b pid Hok) as Hok'.
  pose proof (dropPiece_settles b pid Hok) as Hset.
  split; [intros p Hget; apply (dropPiece_pieces b pid p Hok Hget)|].
  split.
  { intros pid' Hne. destruct (mapGet pid (pieces b)) as [p|] eqn:Hget.
    - by apply (dropPiece_pieces b pid p Hok Hget).
    - unfold b'. by rewrite (dropPiece_missing b pid Hget). }
  split; [apply Hset|].
  split; [by apply settledFrom_count | by apply dropPiece_twice].
Qed.

Lemma dropPiece_effect_witness :
  let b := (placePiece (new 10 20) pieceT 3 5).2 in
  let d := (dropPiece b 0).1 in
  let b' := (dropPiece b 0).2 in
  (getPiece b 0 = None -> d = 0 /\ b' = b)
  /\ 0 <= d
  /\ (forall p, getPiece b 0 = Some p ->
        getPiece b' 0 = Some (Piece (type p) (color p) (lowered d (cells p))))
  /\ (forall pid', pid' <> 0%nat -> getPiece b' pid' = getPiece b pid')
  /\ getPieceIds b' = getPieceIds b
  /\ getFilledCellCount b' = getFilledCellCount b
  /\ dropPiece b' 0 = (0, b').
Proof.
  apply (dropPiece_effect (placePiece (new 10 20) pieceT 3 5).2 0).
  apply placePiece_OK, new_OK.
Defined.

(** X18 ([applyGravity]): on a well-formed board the [while] loop
    ends: with any bound on its rounds above the sum of the row numbers
    of all piece cells the call returns one and the same result.  In
    the board it leaves no piece can fall any further, every piece is
    the piece of the same id moved down as a whole, four times the
    returned total is the fall of that row sum, the filled cell count
    is unchanged and the height has not grown. *)
Theorem applyGravity_settles b :
  boardOK b ->
  exists total b',
    (forall rounds, (Z.to_nat (totalRows b) < rounds)%nat ->
                    applyGravity rounds b = Some (total, b'))
    /\ boardOK b' /\ atRest b' /\ settledFrom b b'
    /\ 0 <= total /\ 4 * total = totalRows b - totalRows b'
    /\ getFilledCellCount b' = getFilledCellCount b
    /\ (getHeight b' <= getHeight b)%nat.
Proof.
  intros Hok.
  destruct (applyGravity_ends b Hok) as (total & b' & Hrun & Hok' & Hrest & Hset & H0 & H4).
  exists total, b'. repeat (split; [assumption|]).
  split; [by apply settledFrom_count | by apply settledFrom_height].
Qed.

Lemma applyGravity_settles_witness :
  let b := (placePiece (new 10 20) pieceT 3 5).2 in
  exists total b',
    (forall rounds, (Z.to_nat (totalRows b) < rounds)%nat ->
                    applyGravity rounds b = Some (total, b'))
    /\ boardOK b' /\ atRest b' /\ settledFrom b b'
    /\ 0 <= total /\ 4 * total = totalRows b - totalRows b'
    /\ getFilledCellCount b' = getFilledCellCount b
    /\ (getHeight b' <= getHeight b)%nat.
Proof.
  apply (applyGravity_settles (placePiece (new 10 20) pieceT 3 5).2).
  apply placePiece_OK, new_OK.
Defined.

(** X19 ([getHeight], [getFilledCellCount]): on a well-formed board
    the height is at most the board's height, every cell of every piece
    lies in a row below it, and it is 0 exactly when the board holds no
    piece; otherwise some piece has a cell in the row just below it.
    The filled cell count is four times the number of pieces and at
    most the number of grid cells. *)
Theorem height_and_count b :
  boardOK b ->
  (getHeight b <= height b)%nat
  /\ (forall c, c ∈ pieceCells b -> c.2 < Z.of_nat (getHeight b))
  /\ (getHeight b = 0%nat <-> pieces b = [])
  /\ (getHeight b <> 0%nat ->
      exists c, c ∈ pieceCells b /\ c.2 = Z.of_nat (getHeight b) - 1)
  /\ getFilledCellCount b = (4 * length (pieces b))%nat
  /\ (getFilledCellCount b <= height b * width b)%nat.
Proof.
  intros Hok. destruct (getHeight_cells b Hok) as [Hbelow Htop].
  split; [apply (getHeightFrom_spec b (height b))|]. split; [exact Hbelow|].
  split; [|split; [|split]].
  - split.
    + intros H0. destruct (pieces b) as [|[pid p] m] eqn:E; [reflexivity|]. exfalso.
      pose proof (ok_four b Hok) as Hfour. rewrite E in Hfour.
      inversion Hfour as [|? ? H4 _]; subst. cbn [snd] in H4.
      destruct (cells p) as [|c cs] eqn:Ec; [discriminate|].
      assert (Hc : c ∈ pieceCells b).
      { unfold pieceCells. rewrite E. cbn [mbind list_bind snd]. rewrite Ec.
        apply list_elem_of_here. }
      specialize (Hbelow c Hc).
      destruct (pieceCells_inGrid b c Hok Hc) as [_ Hy]. lia.
    + intros Hnil. destruct Htop as [H0|(c & Hc & _)]; [exact H0|].
      unfold pieceCells in Hc. rewrite Hnil in Hc. by apply elem_of_nil in Hc.
  - intros Hne. destruct Htop as [H0|Hc]; [contradiction | exact Hc].
  - by apply count_four.
  - rewrite count_occupied. apply occupiedPositions_length.
Qed.

Lemma height_and_count_witness :
  let b := (placePiece (new 10 20) pieceT 3 5).2 in
  (getHeight b <= height b)%nat
  /\ (forall c, c ∈ pieceCells b -> c.2 < Z.of_nat (getHeight b))
  /\ (getHeight b = 0%nat <-> pieces b = [])
  /\ (getHeight b <> 0%nat ->
      exists c, c ∈ pieceCells b /\ c.2 = Z.of_nat (getHeight b) - 1)
  /\ getFilledCellCount b = (4 * length (pieces b))%nat
  /\ (getFilledCellCount b <= height b * width b)%nat.
Proof.
  apply (height_and_count (placePiece (new 10 20) pieceT 3 5).2).
  apply placePiece_OK, new_OK.
Defined.


(** X22 (the placement attempts of [Board.generate]): on a well-formed
    board at least 4 cells wide and 3 cells high, whatever the generator
    returns, the drawn index picks one of the seven piece types and the
    four cells of any piece at the drawn position lie inside the grid;
    the placement is therefore refused only when one of those cells is
    taken. *)
Theorem random_placement_stays_inside b t (seed1 seed2 seed3 : Z) :
  boardOK b -> (4 <= width b)%nat -> (3 <= height b)%nat ->
  let i := scaled (mulberry32 seed1).2 (Z.of_nat (length PIECE_TYPES)) in
  let x := scaled (mulberry32 seed2).2 (Z.of_nat (width b) - 3) in
  let y := scaled (mulberry32 seed3).2 (Z.of_nat (height b) - 2) in
  (Z.to_nat i < length PIECE_TYPES)%nat
  /\ Forall (inGrid b) (placedCells t x y)
  /\ (canPlacePiece b t x y = true
      <-> Forall (fun c => gridAt (grid b) c.1 c.2 = None) (placedCells t x y)).
Proof.
  intros _ Hw Hh i x y.
  pose proof (scaled_range _ (Z.of_nat (length PIECE_TYPES)) (mulberry32_range seed1)
                ltac:(cbn; lia)) as Hi.
  pose proof (scaled_range _ (Z.of_nat (width b) - 3) (mulberry32_range seed2)
                ltac:(lia)) as Hx.
  pose proof (scaled_range _ (Z.of_nat (height b) - 2) (mulberry32_range seed3)
                ltac:(lia)) as Hy.
  fold i in Hi. fold x in Hx. fold y in Hy.
  assert (Hin : Forall (inGrid b) (placedCells t x y)).
  { apply Forall_forall. intros c Hc. unfold placedCells in Hc.
    apply list_elem_of_fmap in Hc as (d & -> & Hd).
    destruct (shape_extent t d Hd) as [Hdx Hdy].
    unfold inGrid. cbn [fst snd]. lia. }
  split; [lia|]. split; [exact Hin|].
  rewrite canPlacePiece_spec. rewrite Forall_forall in Hin.
  rewrite !Forall_forall. split.
  - intros Hall c Hc. apply (Hall c Hc).
  - intros Hall c Hc. split; [by apply Hin | by apply Hall].
Qed.

Lemma random_placement_stays_inside_witness :
  let b := new 10 20 in
  let i := scaled (mulberry32 1).2 (Z.of_nat (length PIECE_TYPES)) in
  let x := scaled (mulberry32 2).2 (Z.of_nat (width b) - 3) in
  let y := scaled (mulberry32 3).2 (Z.of_nat (height b) - 2) in
  (Z.to_nat i < length PIECE_TYPES)%nat
  /\ Forall (inGrid b) (placedCells pieceL x y)
  /\ (canPlacePiece b pieceL x y = true
      <-> Forall (fun c => gridAt (grid b) c.1 c.2 = None) (placedCells pieceL x y)).
Proof.
  apply (random_placement_stays_inside (new 10 20) pieceL 1 2 3);
    [apply new_OK | cbn; lia | cbn; lia].
Defined.

End BoardProperties.

(** * The second copy of the engine: accounting *)

Section CohortAccounting.

Import CohortSimulationCore.

Implicit Types (qs : gmap string (list item)) (h : handle) (a : alloc).













Section Steps.

Variable ks : list string.
Hypothesis ks_NoDup : NoDup ks.

(** What every step of serving keeps. *)
Let kept a a' : Prop :=
  sameTags (queues a) (queues a')
  /\ (forall k, ledger a' k = ledger a k)
  /\ usageGap ks a' = usageGap ks a.








End Steps.

End CohortAccounting.

Section CohortCapacity.

Import CohortSimulationCore.

Implicit Types (qs : gmap string (list item)) (h : handle) (a : alloc).




End CohortCapacity.

Section CohortLevel.

Import CohortSimulationCore.

Implicit Types (qs : gmap string (list item)) (h : handle) (a : alloc).

Variables (demandByCurve : gmap string (list R)) (minute : nat).









End CohortLevel.

Section CohortLevelSpec.

Import CohortSimulationCore.

Implicit Types (qs : gmap string (list item)) (h : handle) (a : alloc).

Variables (demandByCurve : gmap string (list R)) (curves : list curve) (minute : nat).

Hypothesis ids_NoDup : NoDup (map id curves).




End CohortLevelSpec.

Section CohortMinute.

Import CohortSimulationCore.

Implicit Types (qs : gmap string (list item)) (h : handle) (a : alloc).

Variables (machines : R) (demandByCurve : gmap string (list R))
          (curves : list curve) (queueTimeout : Z).

Hypothesis ids_NoDup : NoDup (map id curves).









End CohortMinute.

Section CohortRun.

Import CohortSimulationCore.

Variables (machines : R) (demandByCurve : gmap string (list R))
          (curves : list curve) (queueTimeout : Z).

Hypothesis ids_NoDup : NoDup (map id curves).




End CohortRun.









(** * The second copy of the engine: identical sources *)

Section CohortTwins.

Import CohortSimulationCore.

Implicit Types (qs : gmap string (list item)) (h : handle) (a : alloc).








End CohortTwins.

Section CohortTwinLevel.

Import CohortSimulationCore.

Implicit Types (qs : gmap string (list item)) (h : handle) (a : alloc).

Variables (demandByCurve : gmap string (list R)) (curves : list curve) (minute : nat).
Variables (ca cb : curve).

Hypothesis ids_NoDup : NoDup (map id curves).
Hypothesis ca_in : ca ∈ curves.
Hypothesis cb_in : cb ∈ curves.
Hypothesis same_priority : priority ca = priority cb.
Hypothesis same_demand :
  demandAt demandByCurve ca minute = demandAt demandByCurve cb minute.





End CohortTwinLevel.

Section CohortTwinRun.

Import CohortSimulationCore.

Variables (machines : R) (demandByCurve : gmap string (list R))
          (curves : list curve) (queueTimeout : Z).
Variables (ca cb : curve).

Hypothesis ids_NoDup : NoDup (map id curves).
Hypothesis ca_in : ca ∈ curves.
Hypothesis cb_in : cb ∈ curves.
Hypothesis same_priority : priority ca = priority cb.
Hypothesis same_demand :
  forall m, demandAt demandByCurve ca m = demandAt demandByCurve cb m.




End CohortTwinRun.





Section WaitingExample.

Import CohortSimulationCore.

(** The state above after the cohorts have been served: the request of
    minute 0 takes 30 of the 50, the request of minute 1 the 20 left. *)
Lemma waiting_served :
  let arrival := fun h => arrivalTime (itemAt waitingQueues h) in
  let a' := serveCohorts (cohorts arrival (sortBy arrival (combinedQueue waitingQueues [waitingCurve])))
              waitingAlloc in
  demand (itemAt (queues a') ("a"%string, 1%nat)) = 10.
Proof.
  intros arrival a'. subst a'.
  assert (Hc : cohorts arrival (sortBy arrival (combinedQueue waitingQueues [waitingCurve]))
          = [[("a"%string, 0%nat)]; [("a"%string, 1%nat)]]) by (vm_compute; reflexivity).
  rewrite Hc. clear Hc.
  set (x := ("a"%string, 0%nat)). set (y := ("a"%string, 1%nat)).
  assert (Hd0 : demand (itemAt waitingQueues x) = 30) by (vm_compute; reflexivity).
  assert (E1 : serveCohort waitingAlloc [x] = serveFully waitingAlloc x).
  { unfold serveCohort, cohortDemand. cbn [fold_left]. apply decide_True.
    change (queues waitingAlloc) with waitingQueues. rewrite Hd0. cbn. lra. }
  set (a1 := serveFully waitingAlloc x) in *.
  assert (Hav : available a1 = 20).
  { unfold a1, serveFully. cbn [available].
    change (queues waitingAlloc) with waitingQueues. rewrite Hd0. cbn. lra. }
  assert (Hd1 : demand (itemAt (queues a1) y) = 30) by (vm_compute; reflexivity).
  assert (Hr1 : inRange (queues a1) y) by (unfold inRange; vm_compute; lia).
  cbn [serveCohorts]. rewrite decide_True by (cbn; lra).
  rewrite E1. rewrite decide_True by lra.
  unfold serveCohort, cohortDemand. cbn [fold_left]. rewrite Hd1, Hav.
  rewrite decide_False by lra.
  cbn [queues]. unfold serveShare. cbn [queues].
  destruct (itemAt_setDemandAt_same (queues a1) y
              (demand (itemAt (queues a1) y) - available a1 * (demand (itemAt (queues a1) y) / (0 + 30)))
              Hr1) as (-> & _).
  rewrite Hd1, Hav. field.
Qed.

End WaitingExample.

Lemma group_served_oldest_first_witness :
  let arrival := fun h => arrivalTime (CohortSimulationCore.itemAt waitingQueues h) in
  let a' := CohortSimulationCore.serveCohorts
              (CohortSimulationCore.cohorts arrival
                 (sortBy arrival
                    (CohortSimulationCore.combinedQueue waitingQueues [waitingCurve])))
              waitingAlloc in
  demand (CohortSimulationCore.itemAt (CohortSimulationCore.queues a')
            ("a"%string, 0%nat)) = 0.
Proof.
  apply (group_served_oldest_first waitingQueues [waitingCurve] waitingAlloc
           ("a"%string, 0%nat) ("a"%string, 1%nat)).
  - apply (bool_decide_unpack _). vm_compute. exact I.
  - reflexivity.
  - apply list_elem_of_here.
  - apply list_elem_of_further, list_elem_of_here.
  - vm_compute. reflexivity.
  - intros Heq. pose proof waiting_served as Hs. cbn zeta in Hs.
    rewrite Heq in Hs. vm_compute in Hs. lra.
Defined.
